(** * Pulse dependency graph: a shallow embedding of [src/graph] and its properties

    The development follows the Python sources [node.py], [edge.py],
    [graph.py], [builder.py] and, for definitions given as strings,
    [parser.py].  Conventions of the embedding:

    - a Python [dict] that is iterated ([Graph.nodes], [in_degree]) is an
      association list in insertion order;
    - the two [defaultdict(set)] indexes are [gmap string (list string)]:
      they are only ever looked up by key.  Reading a missing key with
      [d[k]] inserts the empty set under [k], as [defaultdict] does;
    - a Python [set] that is iterated (the adjacency sets, [Graph.edges]) is
      a duplicate-free list; its order stands for the iteration order of
      the set, which Python leaves unspecified.  Theorems are stated for
      every well-formed graph, hence for every such order;
    - a Python [set] that is only tested for membership ([visited],
      [rec_stack], [impacted]) is a [gset string];
    - every operation is a function from the state it may mutate to an
      outcome paired with the state afterwards, so that what an exception
      leaves behind can be stated;
    - loops and recursion take a fuel argument; the interpreter's recursion
      limit and memory are not modelled;
    - strings are sequences of 8-bit characters; [lower] and [strip] are
      [str.lower] and [str.strip] on ASCII text, and every property that
      depends on what they compute is stated for ASCII text. *)

From Stdlib Require Import Ascii String ZArith Lia.
From stdpp Require Import gmap strings list fin_maps.

Local Open Scope string_scope.
Local Open Scope list_scope.
Local Open Scope nat_scope.

(** * The program *)

(** ** Outcomes *)

(** The exceptions that leave a function.  The sources raise the built-in
    classes only; [UnknownNodeError] is the class the spec names, raised by
    [remove_node], which is modelled from the spec. *)
Inductive exn : Type :=
| ValueError (msg : string)
| KeyError (key : string)
| IndexError
| UnknownNodeError (node_id : string).

(** [type(e).__name__] *)
Definition exn_class (e : exn) : string :=
  match e with
  | ValueError _ => "ValueError"
  | KeyError _ => "KeyError"
  | IndexError => "IndexError"
  | UnknownNodeError _ => "UnknownNodeError"
  end.

Inductive res (A : Type) : Type :=
| Ok (a : A)
| Raise (e : exn)
| OutOfFuel.
Arguments Ok {A} a.
Arguments Raise {A} e.
Arguments OutOfFuel {A}.

(** State and exception monad: the state survives a raised exception. *)
Definition M (S A : Type) : Type := S → res A * S.

Global Instance M_ret {S} : MRet (M S) := λ A a s, (Ok a, s).
Global Instance M_bind {S} : MBind (M S) := λ A B f m s,
  match m s with
  | (Ok a, s') => f a s'
  | (Raise e, s') => (Raise e, s')
  | (OutOfFuel, s') => (OutOfFuel, s')
  end.

Definition raise {S A} (e : exn) : M S A := λ s, (Raise e, s).

(** [for x in l: body x] *)
Fixpoint for_each {S A} (l : list A) (body : A → M S unit) : M S unit :=
  match l with
  | [] => mret tt
  | x :: l' => body x;; for_each l' body
  end.

(** ** Python values stored in metadata dictionaries *)

Inductive NodeType : Type :=
| DATABASE | API | KAFKA | CACHE | QUEUE | SERVICE | STORAGE | LOADBALANCER | CUSTOM.

Global Instance NodeType_eq_dec : EqDecision NodeType.
Proof. solve_decision. Defined.

(** [NodeType.value] *)
Definition NodeType_value (t : NodeType) : string :=
  match t with
  | DATABASE => "database"
  | API => "api"
  | KAFKA => "kafka"
  | CACHE => "cache"
  | QUEUE => "queue"
  | SERVICE => "service"
  | STORAGE => "storage"
  | LOADBALANCER => "loadbalancer"
  | CUSTOM => "custom"
  end.

Definition NodeType_members : list NodeType :=
  [DATABASE; API; KAFKA; CACHE; QUEUE; SERVICE; STORAGE; LOADBALANCER; CUSTOM].

(** [NodeType(s)]: lookup of a member by value, [None] where Python raises
    [ValueError]. *)
Definition NodeType_of_value (s : string) : option NodeType :=
  List.find (λ t, bool_decide (NodeType_value t = s)) NodeType_members.

Inductive PyVal : Type :=
| PStr (s : string)
| PInt (z : Z)
| PBool (b : bool)
| PEnum (t : NodeType).

(** ** [str.lower], on ASCII *)

(** [s.isascii()]: every character is below 128. *)
Fixpoint isascii (s : string) : bool :=
  match s with
  | EmptyString => true
  | String c s' => (Ascii.N_of_ascii c <? 128)%N && isascii s'
  end.

(** [lower] is [str.lower] on text for which [isascii] holds: there
    [str.lower] changes the letters A to Z and nothing else.  For other
    characters Python follows the Unicode tables, which are not modelled;
    the properties that depend on the lower-cased text are stated for ASCII
    text. *)
Definition lower_ascii (c : ascii) : ascii :=
  let n := Ascii.N_of_ascii c in
  if ((65 <=? n) && (n <=? 90))%N then Ascii.ascii_of_N (n + 32) else c.

Fixpoint lower (s : string) : string :=
  match s with
  | EmptyString => EmptyString
  | String c s' => String (lower_ascii c) (lower s')
  end.

(** ** Node *)

(** The [type] field holds a [str] or a [NodeType] until [__post_init__] has
    run. *)
Inductive TypeField : Type :=
| TStr (s : string)
| TEnum (t : NodeType).

Definition TypeField_val (t : TypeField) : PyVal :=
  match t with
  | TStr s => PStr s
  | TEnum t => PEnum t
  end.

Record Node : Type := mkNode {
  id : string;
  type : TypeField;
  metadata : gmap string PyVal
}.

Definition Node_post_init (self : Node) : res Node :=
  if bool_decide (id self = "") then Raise (ValueError "Node id cannot be empty")
  else
    match type self with
    | TStr s =>
        match NodeType_of_value (lower s) with
        | Some t => Ok (mkNode (id self) (TEnum t) (metadata self))
        | None =>
            let self1 := mkNode (id self) (TEnum CUSTOM) (metadata self) in
            if bool_decide (is_Some (metadata self1 !! "original_type")) then Ok self1
            else Ok (mkNode (id self1) (type self1)
                       (<["original_type" := TypeField_val (type self1)]> (metadata self1)))
        end
    | TEnum _ => Ok self
    end.

(** [Node(id, type, metadata)] *)
Definition Node_new (id : string) (type : TypeField) (metadata : gmap string PyVal) : res Node :=
  Node_post_init (mkNode id type metadata).

(** ** Edge *)

(** The field [metadata] is [edge_metadata] here, next to that of [Node]. *)
Record Edge : Type := mkEdge {
  source : string;
  target : string;
  edge_metadata : gmap string PyVal
}.

Definition Edge_post_init (self : Edge) : res Edge :=
  if bool_decide (source self = "") then Raise (ValueError "Edge source cannot be empty")
  else if bool_decide (target self = "") then Raise (ValueError "Edge target cannot be empty")
  else if bool_decide (source self = target self) then
    Raise (ValueError ("Self-loops not allowed: " +:+ source self +:+ " -> " +:+ target self))
  else Ok self.

Definition Edge_new (source target : string) (metadata : gmap string PyVal) : res Edge :=
  Edge_post_init (mkEdge source target metadata).

(** [Edge.__eq__]: by source and target only. *)
Definition Edge_eq (a b : Edge) : bool :=
  bool_decide (source a = source b) && bool_decide (target a = target b).

(** [edge in edges], for a set of edges hashed and compared by endpoints. *)
Definition edge_in (e : Edge) (s : list Edge) : bool := existsb (Edge_eq e) s.

(** ** Dictionaries and sets *)

(** [k in d] for an insertion-ordered dictionary. *)
Definition dict_mem {V} (k : string) (d : list (string * V)) : bool :=
  bool_decide (k ∈ d.*1).

(** [d.get(k)] *)
Fixpoint dict_get {V} (k : string) (d : list (string * V)) : option V :=
  match d with
  | [] => None
  | (k', v) :: d' => if bool_decide (k' = k) then Some v else dict_get k d'
  end.

(** [d[k] = v]: replaces in place, or appends a new key. *)
Fixpoint dict_set {V} (k : string) (v : V) (d : list (string * V)) : list (string * V) :=
  match d with
  | [] => [(k, v)]
  | (k', v') :: d' => if bool_decide (k' = k) then (k, v) :: d' else (k', v') :: dict_set k v d'
  end.

(** [s.add(x)] for a set kept as a duplicate-free list. *)
Definition set_add (x : string) (s : list string) : list string :=
  if bool_decide (x ∈ s) then s else s ++ [x].

(** The set stored under [k], empty when the key is missing:
    [d.get(k, set())]. *)
Definition dd_get (d : gmap string (list string)) (k : string) : list string :=
  default [] (d !! k).

(** [d[k]] on a [defaultdict(set)]: a missing key is inserted with the
    empty set. *)
Definition dd_getitem (d : gmap string (list string)) (k : string)
  : list string * gmap string (list string) :=
  match d !! k with
  | Some s => (s, d)
  | None => ([], <[k := []]> d)
  end.

(** ** Graph *)

(** [_nx_graph], the cached NetworkX view, belongs to an external library
    and is left out; [_dirty] is its staleness flag. *)
Record Graph : Type := mkGraph {
  nodes : list (string * Node);
  edges : list Edge;
  _adjacency : gmap string (list string);
  _reverse_adjacency : gmap string (list string);
  _dirty : bool
}.

Definition Graph_init : Graph := mkGraph [] [] ∅ ∅ true.

Definition set_adjacency (d : gmap string (list string)) (g : Graph) : Graph :=
  mkGraph (nodes g) (edges g) d (_reverse_adjacency g) (_dirty g).
Definition set_reverse_adjacency (d : gmap string (list string)) (g : Graph) : Graph :=
  mkGraph (nodes g) (edges g) (_adjacency g) d (_dirty g).

(** [self._adjacency[k]] *)
Definition adjacency_getitem (k : string) : M Graph (list string) :=
  λ self, let '(s, d) := dd_getitem (_adjacency self) k in (Ok s, set_adjacency d self).

(** [self._reverse_adjacency[k]] *)
Definition reverse_adjacency_getitem (k : string) : M Graph (list string) :=
  λ self, let '(s, d) := dd_getitem (_reverse_adjacency self) k in
          (Ok s, set_reverse_adjacency d self).

Definition add_node (node : Node) : M Graph unit :=
  λ self,
    if dict_mem (id node) (nodes self) then
      (Raise (ValueError ("Node with id '" +:+ id node +:+ "' already exists")), self)
    else
      (Ok tt, mkGraph (dict_set (id node) node (nodes self)) (edges self)
                (_adjacency self) (_reverse_adjacency self) true).

Definition add_edge (edge : Edge) : M Graph unit :=
  λ self,
    if negb (dict_mem (source edge) (nodes self)) then
      (Raise (ValueError ("Source node '" +:+ source edge +:+ "' does not exist")), self)
    else if negb (dict_mem (target edge) (nodes self)) then
      (Raise (ValueError ("Target node '" +:+ target edge +:+ "' does not exist")), self)
    else if negb (edge_in edge (edges self)) then
      let '(fs, adj) := dd_getitem (_adjacency self) (source edge) in
      let adj := <[source edge := set_add (target edge) fs]> adj in
      let '(rs, radj) := dd_getitem (_reverse_adjacency self) (target edge) in
      let radj := <[target edge := set_add (source edge) rs]> radj in
      (Ok tt, mkGraph (nodes self) (edges self ++ [edge]) adj radj true)
    else (Ok tt, self).

Definition get_node (node_id : string) : M Graph (option Node) :=
  λ self, (Ok (dict_get node_id (nodes self)), self).

Definition get_dependencies (node_id : string) : M Graph (list string) :=
  λ self, (Ok (dd_get (_adjacency self) node_id), self).

Definition get_dependents (node_id : string) : M Graph (list string) :=
  λ self, (Ok (dd_get (_reverse_adjacency self) node_id), self).

(** [stats()["node_count"]] and [stats()["edge_count"]]; the other entries
    are computed by NetworkX. *)
Definition node_count (self : Graph) : nat := length (nodes self).
Definition edge_count (self : Graph) : nat := length (edges self).

(** ** Running a function body over the graph and its local variables *)

Definition get_locals {L} : M (Graph * L) L := λ s, (Ok s.2, s).
Definition put_locals {L} (l : L) : M (Graph * L) unit := λ s, (Ok tt, (s.1, l)).
Definition get_self {L} : M (Graph * L) Graph := λ s, (Ok s.1, s).
Definition this : M Graph Graph := λ s, (Ok s, s).
Definition out_of_fuel {S A} : M S A := λ s, (OutOfFuel, s).

(** A method of [self] called from a body that also has local variables. *)
Definition on_self {L A} (m : M Graph A) : M (Graph * L) A :=
  λ s, let '(r, g) := m s.1 in (r, (g, s.2)).

(** Runs a body from initial local variables and forgets them at the end. *)
Definition with_locals {L A} (l0 : L) (m : M (Graph * L) A) : M Graph A :=
  λ g, let '(r, s) := m (g, l0) in (r, s.1).

(** ** [find_cycles] *)

(** The variables of [find_cycles] that the closure [dfs] updates. *)
Record dfs_locals : Type := mkDfs {
  cycles : list (list string);
  visited : gset string;
  rec_stack : gset string;
  path : list string
}.

(** [l.index(x)]: the first position of [x], [ValueError] when absent. *)
Fixpoint list_index (x : string) (l : list string) : option nat :=
  match l with
  | [] => None
  | y :: l' => if bool_decide (y = x) then Some 0 else S <$> list_index x l'
  end.

Definition path_index (x : string) : M (Graph * dfs_locals) nat :=
  l ← get_locals;
  match list_index x (path l) with
  | Some i => mret i
  | None => raise (ValueError (x +:+ " is not in list"))
  end.

(** [path.pop()] *)
Definition path_pop : M (Graph * dfs_locals) unit :=
  l ← get_locals;
  match path l with
  | [] => raise IndexError
  | _ => put_locals (mkDfs (cycles l) (visited l) (rec_stack l) (removelast (path l)))
  end.

(** [rec_stack.remove(x)] *)
Definition rec_stack_remove (x : string) : M (Graph * dfs_locals) unit :=
  l ← get_locals;
  if decide (x ∈ rec_stack l) then
    put_locals (mkDfs (cycles l) (visited l) (rec_stack l ∖ {[x]}) (path l))
  else raise (KeyError x).

(** The body of the loop over the neighbours in [dfs]; [dfs] is the
    recursive call. *)
Definition dfs_visit (dfs : string → M (Graph * dfs_locals) unit) (neighbor : string)
  : M (Graph * dfs_locals) unit :=
  l ← get_locals;
  if decide (neighbor ∉ visited l) then dfs neighbor
  else if decide (neighbor ∈ rec_stack l) then
    cycle_start ← path_index neighbor;
    let cycle := drop cycle_start (path l) ++ [neighbor] in
    put_locals (mkDfs (cycles l ++ [cycle]) (visited l) (rec_stack l) (path l))
  else mret tt.

Fixpoint dfs (fuel : nat) (node_id : string) : M (Graph * dfs_locals) unit :=
  match fuel with
  | 0 => out_of_fuel
  | S fuel' =>
      l ← get_locals;
      put_locals (mkDfs (cycles l) ({[node_id]} ∪ visited l) ({[node_id]} ∪ rec_stack l)
                    (path l ++ [node_id]));;
      neighbors ← on_self (adjacency_getitem node_id);
      for_each neighbors (dfs_visit (dfs fuel'));;
      path_pop;;
      rec_stack_remove node_id
  end.

(** The body of the loop over the nodes in [find_cycles]. *)
Definition dfs_root (fuel : nat) (node_id : string) : M (Graph * dfs_locals) unit :=
  l ← get_locals;
  if decide (node_id ∉ visited l) then dfs fuel node_id else mret tt.

Definition find_cycles (fuel : nat) : M Graph (list (list string)) :=
  with_locals (mkDfs [] ∅ ∅ [])
    (self ← get_self;
     for_each (nodes self).*1 (dfs_root fuel);;
     l ← get_locals;
     mret (cycles l)).

(** ** [validate] *)

(** [sep.join(l)] *)
Fixpoint join (sep : string) (l : list string) : string :=
  match l with
  | [] => ""
  | [x] => x
  | x :: l' => x +:+ sep +:+ join sep l'
  end.

Definition edge_errors (self : Graph) (edge : Edge) : list string :=
  (if negb (dict_mem (source edge) (nodes self))
   then ["Edge references non-existent source node: " +:+ source edge] else []) ++
  (if negb (dict_mem (target edge) (nodes self))
   then ["Edge references non-existent target node: " +:+ target edge] else []).

Definition cycle_error (cycle : list string) : string :=
  "Cycle detected: " +:+ join " -> " cycle.

(** The bodies of the two loops of [validate]. *)
Definition validate_edge (edge : Edge) : M (Graph * list string) unit :=
  errors ← get_locals;
  self ← get_self;
  put_locals (errors ++ edge_errors self edge).

Definition validate_cycle (cycle : list string) : M (Graph * list string) unit :=
  errors ← get_locals;
  put_locals (errors ++ [cycle_error cycle]).

Definition validate (fuel : nat) : M Graph (list string) :=
  with_locals ([] : list string)
    (self ← get_self;
     for_each (edges self) validate_edge;;
     cycles ← on_self (find_cycles fuel);
     (if bool_decide (cycles ≠ []) then for_each cycles validate_cycle else mret tt);;
     get_locals).

(** ** [topological_sort] *)

(** The local variables of Kahn's algorithm. *)
Record kahn_locals : Type := mkKahn {
  in_degree : list (string * Z);
  queue : list string;
  result : list string
}.

(** [in_degree[neighbor] -= 1], [KeyError] on a missing key. *)
Definition in_degree_decr (neighbor : string) : M (Graph * kahn_locals) unit :=
  l ← get_locals;
  match dict_get neighbor (in_degree l) with
  | Some d => put_locals (mkKahn (dict_set neighbor (d - 1)%Z (in_degree l)) (queue l) (result l))
  | None => raise (KeyError neighbor)
  end.

Definition in_degree_getitem (k : string) : M (Graph * kahn_locals) Z :=
  l ← get_locals;
  match dict_get k (in_degree l) with
  | Some d => mret d
  | None => raise (KeyError k)
  end.

(** The body of the loop over the neighbours in Kahn's algorithm. *)
Definition kahn_visit (neighbor : string) : M (Graph * kahn_locals) unit :=
  in_degree_decr neighbor;;
  d ← in_degree_getitem neighbor;
  if bool_decide (d = 0%Z) then
    l ← get_locals;
    put_locals (mkKahn (in_degree l) (queue l ++ [neighbor]) (result l))
  else mret tt.

(** The body of the comprehension that builds [in_degree]. *)
Definition kahn_in_degree (node_id : string) : M (Graph * kahn_locals) unit :=
  rs ← on_self (reverse_adjacency_getitem node_id);
  l ← get_locals;
  put_locals (mkKahn (dict_set node_id (Z.of_nat (length rs)) (in_degree l))
                (queue l) (result l)).

Fixpoint kahn_loop (fuel : nat) : M (Graph * kahn_locals) unit :=
  match fuel with
  | 0 => out_of_fuel
  | S fuel' =>
      l ← get_locals;
      match queue l with
      | [] => mret tt
      | node_id :: rest =>
          put_locals (mkKahn (in_degree l) rest (result l ++ [node_id]));;
          neighbors ← on_self (adjacency_getitem node_id);
          for_each neighbors kahn_visit;;
          kahn_loop fuel'
      end
  end.

Definition topological_sort (fuel : nat) : M Graph (option (list string)) :=
  cycles ← find_cycles fuel;
  if bool_decide (cycles ≠ []) then mret None
  else
    with_locals (mkKahn [] [] [])
      (self ← get_self;
       for_each (nodes self).*1 kahn_in_degree;;
       l ← get_locals;
       put_locals (mkKahn (in_degree l)
                     (List.filter (λ kv, bool_decide (kv.2 = 0%Z)) (in_degree l)).*1 []);;
       kahn_loop fuel;;
       l ← get_locals;
       self ← get_self;
       mret (if bool_decide (length (result l) = length (nodes self))
             then Some (result l) else None)).

(** ** [get_impact_radius] *)

(** The local variables [impacted], [queue] and [visited]. *)
Record impact_locals : Type := mkImpact {
  impacted : gset string;
  ir_queue : list (string * Z);
  ir_visited : gset string
}.

(** The body of the loop over the dependents of a node at [depth]. *)
Definition impact_visit (depth : Z) (dependent : string) : M (Graph * impact_locals) unit :=
  l ← get_locals;
  if decide (dependent ∉ ir_visited l) then
    put_locals (mkImpact ({[dependent]} ∪ impacted l)
                  (ir_queue l ++ [(dependent, (depth + 1)%Z)])
                  ({[dependent]} ∪ ir_visited l))
  else mret tt.

Fixpoint impact_loop (fuel : nat) (max_depth : option Z) : M (Graph * impact_locals) unit :=
  match fuel with
  | 0 => out_of_fuel
  | S fuel' =>
      l ← get_locals;
      match ir_queue l with
      | [] => mret tt
      | (current, depth) :: rest =>
          put_locals (mkImpact (impacted l) rest (ir_visited l));;
          (if match max_depth with Some m => bool_decide (m ≤ depth)%Z | None => false end
           then mret tt
           else
             dependents ← on_self (reverse_adjacency_getitem current);
             for_each dependents (impact_visit depth));;
          impact_loop fuel' max_depth
      end
  end.

Definition get_impact_radius (fuel : nat) (node_id : string) (max_depth : option Z)
  : M Graph (gset string) :=
  self ← this;
  if negb (dict_mem node_id (nodes self)) then mret ∅
  else
    with_locals (mkImpact ∅ [(node_id, 0%Z)] {[node_id]})
      (impact_loop fuel max_depth;;
       l ← get_locals;
       mret (impacted l)).

(** ** [get_critical_path] *)

(** The local variables [queue] and [visited]. *)
Record path_locals : Type := mkPath {
  cp_queue : list (string * list string);
  cp_visited : gset string
}.

(** The body of the loop over the neighbours of the node reached by
    [path]. *)
Definition path_visit (path : list string) (neighbor : string) : M (Graph * path_locals) unit :=
  l ← get_locals;
  if decide (neighbor ∉ cp_visited l) then
    put_locals (mkPath (cp_queue l ++ [(neighbor, path ++ [neighbor])])
                  ({[neighbor]} ∪ cp_visited l))
  else mret tt.

(** The loop returns [Some path] at its [return path] and [None] when the
    queue runs empty. *)
Fixpoint path_loop (fuel : nat) (end_ : string) : M (Graph * path_locals) (option (list string)) :=
  match fuel with
  | 0 => out_of_fuel
  | S fuel' =>
      l ← get_locals;
      match cp_queue l with
      | [] => mret None
      | (current, path) :: rest =>
          put_locals (mkPath rest (cp_visited l));;
          if bool_decide (current = end_) then mret (Some path)
          else
            neighbors ← on_self (adjacency_getitem current);
            for_each neighbors (path_visit path);;
            path_loop fuel' end_
      end
  end.

Definition get_critical_path (fuel : nat) (start end_ : string)
  : M Graph (option (list string)) :=
  self ← this;
  if negb (dict_mem start (nodes self)) || negb (dict_mem end_ (nodes self)) then mret None
  else
    with_locals (mkPath [(start, [start])] {[start]}) (path_loop fuel end_).

(** ** [remove_node] *)

(** Modelled from the spec: [remove_node] is not defined by [graph.py]; the
    route [delete_node] of [api/routes/nodes.py] calls a [delete_node] of the
    graph service, which is not among the sources.  The spec: "fails with
    UnknownNodeError if absent; removes the node and every edge where it is
    source or target, updating both adjacency indexes accordingly", and
    "afterward no stats/index reflects the removed node": the cached view is
    marked stale, as by the other mutations. *)
Definition remove_node (node_id : string) : M Graph unit :=
  λ self,
    if negb (dict_mem node_id (nodes self)) then
      (Raise (UnknownNodeError node_id), self)
    else
      let drop_id (s : list string) := List.filter (λ x, bool_decide (x ≠ node_id)) s in
      (Ok tt,
       mkGraph
         (List.filter (λ kv, bool_decide (kv.1 ≠ node_id)) (nodes self))
         (List.filter (λ e, bool_decide (source e ≠ node_id) && bool_decide (target e ≠ node_id))
            (edges self))
         (drop_id <$> delete node_id (_adjacency self))
         (drop_id <$> delete node_id (_reverse_adjacency self))
         true).

(** ** The degree entries of [stats] *)

(** The two comprehensions of [stats] over the indexes, [in_degrees] and
    [out_degrees], with their loop bodies; they run when the graph has a
    node.  The averages and maxima of [stats] are [sum] over [len], and
    [max], of these lists. *)
Record degree_locals : Type := mkDegrees {
  in_degrees : list Z;
  out_degrees : list Z
}.

Definition stats_in_degree (n : string) : M (Graph * degree_locals) unit :=
  rs ← on_self (reverse_adjacency_getitem n);
  l ← get_locals;
  put_locals (mkDegrees (in_degrees l ++ [Z.of_nat (length rs)]) (out_degrees l)).

Definition stats_out_degree (n : string) : M (Graph * degree_locals) unit :=
  fs ← on_self (adjacency_getitem n);
  l ← get_locals;
  put_locals (mkDegrees (in_degrees l) (out_degrees l ++ [Z.of_nat (length fs)])).

Definition stats_degrees : M Graph (option degree_locals) :=
  self ← this;
  if bool_decide (nodes self ≠ []) then
    with_locals (mkDegrees [] [])
      (self ← get_self;
       for_each (nodes self).*1 stats_in_degree;;
       self ← get_self;
       for_each (nodes self).*1 stats_out_degree;;
       l ← get_locals;
       mret (Some l))
  else mret None.

(** [sum(l)] and [max(l)] of the built-ins; [max] of an empty list is a
    [ValueError]. *)
Definition py_sum (l : list Z) : Z := foldl Z.add 0%Z l.

Definition py_max (l : list Z) : res Z :=
  match l with
  | [] => Raise (ValueError "max() arg is an empty sequence")
  | x :: l' => Ok (foldl Z.max x l')
  end.

(** ** [str] methods, on ASCII *)

(** [strip] and its parts are [str.strip] on text for which [isascii]
    holds: there the white space of Python is the characters 9 to 13, 28 to
    31 and 32.  The properties that depend on stripped text are stated for
    ASCII text. *)

(** [s.find(sub)]: the index of the first occurrence. *)
Fixpoint str_find (sub s : string) : option nat :=
  if String.prefix sub s then Some 0
  else
    match s with
    | EmptyString => None
    | String _ s' => S <$> str_find sub s'
    end.

(** [sub in s] *)
Definition str_contains (sub s : string) : bool :=
  match str_find sub s with Some _ => true | None => false end.

(** [s[:n]] and [s[n:]] *)
Fixpoint str_take (n : nat) (s : string) : string :=
  match n, s with
  | S n', String c s' => String c (str_take n' s')
  | _, _ => EmptyString
  end.

Fixpoint str_drop (n : nat) (s : string) : string :=
  match n, s with
  | S n', String _ s' => str_drop n' s'
  | _, _ => s
  end.

(** [a, b = s.split(sep, 1)]: [split] refuses the empty separator;
    otherwise the parts are those around the first occurrence of [sep], and
    without one the list has one element and the assignment raises. *)
Definition split1 (sep s : string) : res (string * string) :=
  match sep with
  | EmptyString => Raise (ValueError "empty separator")
  | _ =>
      match str_find sep s with
      | Some i => Ok (str_take i s, str_drop (i + String.length sep) s)
      | None => Raise (ValueError "not enough values to unpack (expected 2, got 1)")
      end
  end.
Global Arguments split1 : simpl never.

(** [c.isspace()] *)
Definition isspace (c : ascii) : bool :=
  let n := Ascii.N_of_ascii c in
  (((9 <=? n) && (n <=? 13)) || ((28 <=? n) && (n <=? 32)))%N.

Fixpoint lstrip (s : string) : string :=
  match s with
  | EmptyString => EmptyString
  | String c s' => if isspace c then lstrip s' else s
  end.

Fixpoint rstrip (s : string) : string :=
  match s with
  | EmptyString => EmptyString
  | String c s' =>
      match rstrip s' with
      | EmptyString => if isspace c then EmptyString else String c EmptyString
      | r => String c r
      end
  end.

(** [s.strip()] *)
Definition strip (s : string) : string := rstrip (lstrip s).

(** ** Running a constructor inside a method *)

Definition of_res {S A} (r : res A) : M S A := λ s, (r, s).

Definition res_bind {A B} (r : res A) (k : A → res B) : res B :=
  match r with
  | Ok a => k a
  | Raise e => Raise e
  | OutOfFuel => OutOfFuel
  end.

(** ** YAMLParser *)

(** [parser.py], for definitions given as strings: [_parse_node] and
    [_parse_dependency] are their branch [isinstance(_, str)], and
    [parse_dict] takes a dictionary whose values are lists of strings.  The
    branches for dictionaries and lists take ids of any type. *)
Module YAMLParser.

Definition _parse_node (node_def : string) : res Node :=
  res_bind
    (if str_contains ":" node_def then split1 ":" node_def
     else Ok (node_def, "service"))
    (λ '(node_id, node_type), Node_new (strip node_id) (TStr (strip node_type)) ∅).

Definition _parse_dependency (dep_def : string) : res Edge :=
  if str_contains "->" dep_def then
    res_bind (split1 "->" dep_def)
      (λ '(source, target), Edge_new (strip source) (strip target) ∅)
  else Raise (ValueError ("Invalid dependency string format: " +:+ dep_def)).

(** The bodies of the two loops of [parse_dict]. *)
Definition parse_dict_node (node_def : string) : M Graph unit :=
  node ← of_res (_parse_node node_def);
  add_node node.

Definition parse_dict_dependency (dep_def : string) : M Graph unit :=
  edge ← of_res (_parse_dependency dep_def);
  add_edge edge.

(** The graph is local to [parse_dict]: it is returned, or lost when an
    exception leaves the function. *)
Definition parse_dict (data : gmap string (list string)) : res Graph :=
  let nodes_data := default [] (data !! "nodes") in
  let dependencies := default (default [] (data !! "edges")) (data !! "dependencies") in
  match (for_each nodes_data parse_dict_node;;
         for_each dependencies parse_dict_dependency) Graph_init with
  | (Ok _, graph) => Ok graph
  | (Raise e, _) => Raise e
  | (OutOfFuel, _) => OutOfFuel
  end.

End YAMLParser.

(** ** GraphBuilder *)

(** [builder.py].  A builder has one field, [graph]; a method works on it
    and returns the builder, so a method is a computation on the graph.
    Keyword arguments [**metadata] are a dictionary. *)
Module GraphBuilder.

(** [GraphBuilder()] *)
Definition init : Graph := Graph_init.

(** [add_node(node_id, node_type, **metadata)]; [node_type] defaults to
    ["service"]. *)
Definition add_node (node_id node_type : string) (metadata : gmap string PyVal)
  : M Graph unit :=
  node ← of_res (Node_new node_id (TStr node_type) metadata);
  add_node node.

Definition add_dependency (source target : string) (metadata : gmap string PyVal)
  : M Graph unit :=
  edge ← of_res (Edge_new source target metadata);
  add_edge edge.

(** The definitions [add_dependencies] is modelled for: an [Edge] or a
    string. *)
Inductive dep_def : Type :=
| DepEdge (e : Edge)
| DepStr (s : string).

Definition add_dependencies_step (d : dep_def) : M Graph unit :=
  match d with
  | DepEdge e => add_edge e
  | DepStr s =>
      if str_contains "->" s then
        '(source, target) ← of_res (split1 "->" s);
        add_dependency (strip source) (strip target) ∅
      else raise (ValueError ("Invalid dependency definition: " +:+ s))
  end.

Definition add_dependencies (dependencies : list dep_def) : M Graph unit :=
  for_each dependencies add_dependencies_step.

(** [for i in range(len(node_ids) - 1)], with [node_ids[i]] and
    [node_ids[i + 1]]. *)
Definition add_chain_step (node_ids : list string) (i : nat) : M Graph unit :=
  match node_ids !! i, node_ids !! (i + 1) with
  | Some a, Some b => add_dependency a b ∅
  | _, _ => raise IndexError
  end.

Definition add_chain (node_ids : list string) : M Graph unit :=
  for_each (seq 0 (length node_ids - 1)) (add_chain_step node_ids).

Definition add_fanout (source : string) (targets : list string) : M Graph unit :=
  for_each targets (λ target, add_dependency source target ∅).

Definition add_fanin (target : string) (sources : list string) : M Graph unit :=
  for_each sources (λ source, add_dependency source target ∅).

Definition newline : string := String (Ascii.ascii_of_nat 10) EmptyString.

Definition validate (fuel : nat) : M Graph unit :=
  errors ← validate fuel;
  if bool_decide (errors ≠ []) then
    raise (ValueError ("Graph validation failed:" +:+ newline +:+ join newline errors))
  else mret tt.

Definition build : M Graph Graph := this.

End GraphBuilder.

(** * What the properties are stated with *)

(** ** Views of a graph state *)

Definition node_ids (g : Graph) : list string := (nodes g).*1.

Definition has_edge (g : Graph) (s t : string) : Prop :=
  ∃ e, e ∈ edges g ∧ source e = s ∧ target e = t.

(** Forward and reverse adjacency as membership relations. *)
Definition fwd (g : Graph) (s : string) : list string := dd_get (_adjacency g) s.
Definition rev (g : Graph) (t : string) : list string := dd_get (_reverse_adjacency g) t.

(** The invariants of the data model, with the set discipline of the Python
    containers. *)
Record wf (g : Graph) : Prop := mkWf {
  wf_ids : NoDup (node_ids g);
  wf_I1 : ∀ e, e ∈ edges g → source e ∈ node_ids g ∧ target e ∈ node_ids g;
  wf_fwd : ∀ s t, t ∈ fwd g s ↔ has_edge g s t;
  wf_rev : ∀ s t, s ∈ rev g t ↔ has_edge g s t;
  wf_I3 : ∀ e, e ∈ edges g → source e ≠ target e;
  wf_fwd_set : ∀ s, NoDup (fwd g s);
  wf_rev_set : ∀ t, NoDup (rev g t)
}.

(** States reached from the empty graph by calls of [add_node] and
    [add_edge] on constructed nodes and edges, whatever their outcome. *)
Inductive reachable : Graph → Prop :=
| reach_init : reachable Graph_init
| reach_add_node n0 n g :
    reachable g → Node_post_init n0 = Ok n → reachable (add_node n g).2
| reach_add_edge e0 e g :
    reachable g → Edge_post_init e0 = Ok e → reachable (add_edge e g).2.

(** What a query may change: nothing but keys of the adjacency indexes
    bound to the empty set. *)
Definition same_graph (g g' : Graph) : Prop :=
  nodes g' = nodes g ∧ edges g' = edges g ∧
  (∀ s, fwd g' s = fwd g s) ∧ (∀ t, rev g' t = rev g t).

(** ** Call sequences and the graphs of the spec's scenarios *)

Inductive op : Type :=
| AddNode (n : Node)
| AddEdge (e : Edge).

Definition run_op (g : Graph) (o : op) : Graph :=
  match o with
  | AddNode n => (add_node n g).2
  | AddEdge e => (add_edge e g).2
  end.

Definition run (ops : list op) : Graph := foldl run_op Graph_init ops.

(** The argument is a value the constructors return. *)
Definition constructed (o : op) : Prop :=
  match o with
  | AddNode n => Node_post_init n = Ok n
  | AddEdge e => Edge_post_init e = Ok e
  end.

Definition service (nid : string) : op := AddNode (mkNode nid (TEnum SERVICE) ∅).
Definition depends (s t : string) : op := AddEdge (mkEdge s t ∅).

(** Nodes a, b, c with edges a→b, b→c, c→a. *)
Definition scenario_cycle : Graph :=
  run [service "a"; service "b"; service "c";
       depends "a" "b"; depends "b" "c"; depends "c" "a"].

(** Nodes api, db, cache with edges api→db, api→cache. *)
Definition scenario_api : Graph :=
  run [service "api"; service "db"; service "cache";
       depends "api" "db"; depends "api" "cache"].

(** A state that [add_edge] never produces: one edge, from x to y, and no
    node. *)
Definition dangling_edge : Graph := mkGraph [] [mkEdge "x" "y" ∅] ∅ ∅ true.

(** ** Walks and paths *)

(** [walk g k u w]: there are [k] edges leading from [u] to [w]. *)
Inductive walk (g : Graph) : nat → string → string → Prop :=
| walk_O u : walk g 0 u u
| walk_S k u v w : has_edge g u v → walk g k v w → walk g (S k) u w.

(** A graph without a closed walk. *)
Definition acyclic (g : Graph) : Prop := ∀ k u, ¬ walk g (S k) u u.

(** [is_path g u w p]: the list [p] starts at [u], ends at [w], and each of
    its elements has an edge to the next. *)
Inductive is_path (g : Graph) : string → string → list string → Prop :=
| path_one u : is_path g u u [u]
| path_cons u v w p : has_edge g u v → is_path g v w p → is_path g u w (u :: p).

(** [reach nb s k v]: [v] is [k] steps from [s] along the neighbour
    function [nb]. *)
Inductive reach (nb : string → list string) (s : string) : nat → string → Prop :=
| reach_O : reach nb s 0 s
| reach_S k u v : reach nb s k u → v ∈ nb u → reach nb s (S k) v.

(** ** Breadth-first search, abstractly *)

(** The elements of [l] that a loop adding each unvisited element to [V]
    adds, in order. *)
Fixpoint fresh (V : gset string) (l : list string) : list string :=
  match l with
  | [] => []
  | x :: l' => if decide (x ∉ V) then x :: fresh ({[x]} ∪ V) l' else fresh V l'
  end.

Definition within (M : option nat) (k : nat) : Prop :=
  match M with None => True | Some m => (k ≤ m)%nat end.
Definition below (M : option nat) (k : nat) : Prop :=
  match M with None => True | Some m => (k < m)%nat end.

(** A queue holding depth [d] and then depth [d + 1]. *)
Definition levels (d : nat) (Q : list (string * nat)) : Prop :=
  ∃ Q1 Q2, Q = Q1 ++ Q2 ∧ Forall (λ x, x.2 = d) Q1 ∧ Forall (λ x, x.2 = S d) Q2.

(** The invariant of a breadth-first search from [s] along [nb], expanding
    nodes at depths below [M], with visited set [V] and queue [Q] of nodes
    with their depths. *)
Record bfs_inv (nb : string → list string) (s : string) (M : option nat)
    (V : gset string) (Q : list (string * nat)) : Prop := mkBfsInv {
  bfs_start : s ∈ V;
  bfs_label : ∀ u d, (u, d) ∈ Q → u ∈ V ∧ reach nb s d u ∧ ∀ k, reach nb s k u → (d ≤ k)%nat;
  bfs_levels : ∃ d, levels d Q;
  bfs_closed : ∀ u k v, u ∈ V → u ∉ Q.*1 → reach nb s k u → below M k → v ∈ nb u → v ∈ V;
  bfs_sound : ∀ v, v ∈ V → v = s ∨ ∃ k, reach nb s (S k) v ∧ within M (S k)
}.

(** The state after [self._adjacency[u]] and [self._reverse_adjacency[u]]
    have been read. *)
Definition touch_fwd (u : string) (g : Graph) : Graph :=
  set_adjacency (dd_getitem (_adjacency g) u).2 g.
Definition touch_rev (u : string) (g : Graph) : Graph :=
  set_reverse_adjacency (dd_getitem (_reverse_adjacency g) u).2 g.

(** The queue of [get_impact_radius] with its depths as naturals. *)
Definition depth_queue (Q : list (string * Z)) : list (string * nat) :=
  (λ x, (x.1, Z.to_nat x.2)) <$> Q.

(** The queue of [get_critical_path] with the hop count of each path. *)
Definition hop_queue (Q : list (string * list string)) : list (string * nat) :=
  (λ x, (x.1, length x.2 - 1)) <$> Q.

(** ** Depth-first search: what it maintains *)

(** A list in which every element has all its forward neighbours further
    down: read from its end, a topological order. *)
Inductive topo (g : Graph) : list string → Prop :=
| topo_nil : topo g []
| topo_cons x fin : topo g fin → (∀ y, y ∈ fwd g x → y ∈ fin) → topo g (x :: fin).

(** A reported cycle: a path of at least one edge from a node back to
    itself. *)
Definition closed_walk (g : Graph) (c : list string) : Prop :=
  ∃ n, is_path g n n c ∧ 2 ≤ length c.

(** The invariant of [dfs] on its closure variables: [rec_stack] is the set
    of [path], which is a duplicate-free path of the graph; every reported
    cycle is one; and as long as none is reported, the nodes visited and no
    longer on the stack, each listed once, are in topological order. *)
Record dfs_inv (g : Graph) (l : dfs_locals) : Prop := mkDfsInv {
  di_stack : ∀ x, x ∈ rec_stack l ↔ x ∈ path l;
  di_nodup : NoDup (path l);
  di_visited : ∀ x, x ∈ rec_stack l → x ∈ visited l;
  di_nodes : ∀ x, x ∈ visited l → x ∈ node_ids g;
  di_chain : ∀ u, last (path l) = Some u → ∃ first, is_path g first u (path l);
  di_cycles : Forall (closed_walk g) (cycles l);
  di_cert : cycles l = [] →
            ∃ fin, topo g fin ∧ NoDup fin ∧
              (∀ x, x ∈ fin → x ∈ visited l ∧ x ∉ rec_stack l) ∧
              (∀ x, x ∈ visited l → x ∈ rec_stack l ∨ x ∈ fin)
}.

(** What a call of [dfs] leaves in place. *)
Definition dfs_post (l l' : dfs_locals) : Prop :=
  path l' = path l ∧ rec_stack l' = rec_stack l ∧ visited l ⊆ visited l' ∧
  (cycles l' = [] → cycles l = []).

(** Every id a traversal of the forward index can meet: the node ids and
    the members of the sets of the index. *)
Definition univ (g : Graph) : gset string :=
  list_to_set (node_ids g) ∪ list_to_set (concat (map_to_list (_adjacency g)).*2).

(** What [dfs] needs of its closure variables to return normally, on any
    state: the stack is the set of the path, within the visited ids, within
    [U]. *)
Record dfs_stack_inv (U : gset string) (l : dfs_locals) : Prop := mkDfsStackInv {
  ds_stack : ∀ x, x ∈ rec_stack l ↔ x ∈ path l;
  ds_visited : rec_stack l ⊆ visited l;
  ds_univ : visited l ⊆ U
}.

(** ** Kahn's algorithm: what it maintains *)

(** The number of predecessors of [v] not yet in [done]. *)
Definition pending (g : Graph) (done : list string) (v : string) : nat :=
  length (List.filter (λ p, bool_decide (p ∉ done)) (rev g v)).

(** The invariant of the loop of [topological_sort]: [in_degree] counts for
    every node its predecessors not yet in [result], and [result] followed
    by [queue] lists, once each, the nodes that have none. *)
Record kahn_inv (g : Graph) (l : kahn_locals) : Prop := mkKahnInv {
  ki_keys : (in_degree l).*1 = node_ids g;
  ki_count : ∀ v, v ∈ node_ids g →
             dict_get v (in_degree l) = Some (Z.of_nat (pending g (result l) v));
  ki_nodup : NoDup (result l ++ queue l);
  ki_ready : ∀ v, v ∈ result l ++ queue l ↔ v ∈ node_ids g ∧ pending g (result l) v = 0
}.

(** ** Computations that keep the graph *)

(** A method of the graph, and a body over the graph and local variables,
    that change nothing of the graph but for empty entries of the
    indexes, whatever the outcome. *)
Definition keeps_self {A} (m : M Graph A) : Prop := ∀ g, same_graph g (m g).2.
Definition keeps {L A} (m : M (Graph * L) A) : Prop := ∀ s, same_graph s.1 (m s).2.1.

(** ** Calls of the builder *)

(** What [add_dependency] needs of its two ids to return normally. *)
Definition linkable (g : Graph) (s t : string) : Prop :=
  s ≠ "" ∧ t ≠ "" ∧ s ≠ t ∧ s ∈ node_ids g ∧ t ∈ node_ids g.

Global Instance linkable_dec g s t : Decision (linkable g s t).
Proof. unfold linkable. apply _. Defined.

(** The pairs [add_chain] links: each id with the next. *)
Definition chain_links (node_ids : list string) : list (string * string) :=
  zip node_ids (tail node_ids).

(** ** Text *)

(** A string of white space only. *)
Fixpoint blank (s : string) : bool :=
  match s with
  | EmptyString => true
  | String c s' => isspace c && blank s'
  end.

(** A string that [strip] leaves as it is. *)
Definition stripped (s : string) : Prop := strip s = s.

(** * Properties *)

(** ** Dictionaries *)

Lemma dict_mem_true {V} k (d : list (string * V)) : dict_mem k d = true ↔ k ∈ d.*1.
Proof. unfold dict_mem. apply bool_decide_eq_true. Qed.

Lemma dict_mem_false {V} k (d : list (string * V)) : dict_mem k d = false ↔ k ∉ d.*1.
Proof. unfold dict_mem. apply bool_decide_eq_false. Qed.

Lemma dict_set_keys_fresh {V} k (v : V) d : k ∉ d.*1 → (dict_set k v d).*1 = d.*1 ++ [k].
Proof.
  induction d as [|[k' v'] d IH]; csimpl; intros Hk; [done|].
  apply not_elem_of_cons in Hk as [Hne Hk].
  rewrite bool_decide_eq_false_2 by done. csimpl. by rewrite IH.
Qed.

Lemma dict_set_keys_mem {V} k (v : V) d : k ∈ d.*1 → (dict_set k v d).*1 = d.*1.
Proof.
  induction d as [|[k' v'] d IH]; csimpl; intros Hk; [by apply elem_of_nil in Hk|].
  case_bool_decide; csimpl; [by subst|].
  apply elem_of_cons in Hk as [?|Hk]; [done|]. by rewrite IH.
Qed.

Lemma dict_get_set_eq {V} k (v : V) d : dict_get k (dict_set k v d) = Some v.
Proof.
  induction d as [|[k' v'] d IH]; simpl.
  - by rewrite bool_decide_eq_true_2.
  - case_bool_decide; simpl.
    + by rewrite bool_decide_eq_true_2.
    + by rewrite bool_decide_eq_false_2.
Qed.

Lemma dict_get_set_ne {V} k k' (v : V) d : k ≠ k' → dict_get k' (dict_set k v d) = dict_get k' d.
Proof.
  intros Hne. induction d as [|[k0 v0] d IH]; simpl.
  - by rewrite bool_decide_eq_false_2.
  - case_bool_decide; simpl.
    + subst. by rewrite !bool_decide_eq_false_2.
    + case_bool_decide; done.
Qed.

Lemma dict_get_Some_mem {V} k (d : list (string * V)) : is_Some (dict_get k d) ↔ k ∈ d.*1.
Proof.
  induction d as [|[k' v'] d IH]; csimpl.
  - split; [by intros [? ?]|by intros ?%elem_of_nil].
  - case_bool_decide; subst.
    + split; [intros _; left|eauto].
    + rewrite IH. set_solver.
Qed.

Lemma dd_getitem_fst d k : (dd_getitem d k).1 = dd_get d k.
Proof. unfold dd_getitem, dd_get. by destruct (d !! k). Qed.

Lemma dd_getitem_snd d k k' : dd_get (dd_getitem d k).2 k' = dd_get d k'.
Proof.
  unfold dd_getitem, dd_get. destruct (d !! k) eqn:E; simpl; [done|].
  destruct (decide (k = k')) as [->|Hne].
  - by rewrite lookup_insert_eq, E.
  - by rewrite lookup_insert_ne.
Qed.

Lemma dd_get_insert d k v k' :
  dd_get (<[k := v]> d) k' = if decide (k = k') then v else dd_get d k'.
Proof.
  unfold dd_get. rewrite lookup_insert. by case_decide.
Qed.

Lemma elem_of_set_add x y s : x ∈ set_add y s ↔ x = y ∨ x ∈ s.
Proof.
  unfold set_add. case_bool_decide; [set_solver|].
  rewrite elem_of_app, list_elem_of_singleton. tauto.
Qed.

Lemma NoDup_set_add y s : NoDup s → NoDup (set_add y s).
Proof.
  unfold set_add. case_bool_decide; [done|].
  intros Hs. apply NoDup_app. repeat split; [done| |apply NoDup_singleton].
  intros x Hx ->%list_elem_of_singleton. done.
Qed.

Lemma edge_in_true e s : edge_in e s = true ↔ ∃ e', e' ∈ s ∧ source e' = source e ∧ target e' = target e.
Proof.
  unfold edge_in. rewrite existsb_exists. unfold Edge_eq. split.
  - intros (e' & Hin & Heq). exists e'. apply list_elem_of_In in Hin.
    apply andb_true_iff in Heq as [H1 H2].
    apply bool_decide_eq_true in H1, H2. done.
  - intros (e' & Hin & H1 & H2). exists e'. split; [by apply list_elem_of_In|].
    rewrite !bool_decide_eq_true_2; done.
Qed.

(** ** The mutations and the invariants *)

Lemma add_node_dup n g :
  id n ∈ node_ids g →
  add_node n g = (Raise (ValueError ("Node with id '" +:+ id n +:+ "' already exists")), g).
Proof.
  intros Hin. unfold add_node. by rewrite (proj2 (dict_mem_true _ _) Hin).
Qed.

Lemma add_node_fresh n g :
  id n ∉ node_ids g →
  add_node n g =
    (Ok tt, mkGraph (nodes g ++ [(id n, n)]) (edges g) (_adjacency g) (_reverse_adjacency g) true).
Proof.
  intros Hin. unfold add_node. rewrite (proj2 (dict_mem_false _ _) Hin).
  do 2 f_equal. clear -Hin. unfold node_ids in Hin.
  induction (nodes g) as [|[k v] d IH]; csimpl in *; [done|].
  apply not_elem_of_cons in Hin as [Hne Hin].
  rewrite bool_decide_eq_false_2 by done. by rewrite IH.
Qed.

Lemma add_edge_present e g :
  source e ∈ node_ids g → target e ∈ node_ids g → edge_in e (edges g) = true →
  add_edge e g = (Ok tt, g).
Proof.
  intros Hs Ht He. unfold add_edge.
  rewrite (proj2 (dict_mem_true _ _) Hs), (proj2 (dict_mem_true _ _) Ht), He. done.
Qed.

Lemma add_edge_new e g :
  source e ∈ node_ids g → target e ∈ node_ids g → edge_in e (edges g) = false →
  ∃ g', add_edge e g = (Ok tt, g') ∧
    nodes g' = nodes g ∧ edges g' = edges g ++ [e] ∧
    (∀ s, fwd g' s = if decide (source e = s) then set_add (target e) (fwd g s) else fwd g s) ∧
    (∀ t, rev g' t = if decide (target e = t) then set_add (source e) (rev g t) else rev g t).
Proof.
  intros Hs Ht He. unfold add_edge.
  rewrite (proj2 (dict_mem_true _ _) Hs), (proj2 (dict_mem_true _ _) Ht), He. simpl.
  destruct (dd_getitem (_adjacency g) (source e)) as [fs adj] eqn:Ef.
  destruct (dd_getitem (_reverse_adjacency g) (target e)) as [rs radj] eqn:Er.
  eexists; split; [done|]. simpl. repeat split.
  - intros s. unfold fwd; simpl. rewrite dd_get_insert.
    pose proof (dd_getitem_fst (_adjacency g) (source e)) as H1.
    pose proof (dd_getitem_snd (_adjacency g) (source e) s) as H2.
    rewrite Ef in H1, H2; simpl in *. case_decide; subst; done.
  - intros t. unfold rev; simpl. rewrite dd_get_insert.
    pose proof (dd_getitem_fst (_reverse_adjacency g) (target e)) as H1.
    pose proof (dd_getitem_snd (_reverse_adjacency g) (target e) t) as H2.
    rewrite Er in H1, H2; simpl in *. case_decide; subst; done.
Qed.

Lemma wf_init : wf Graph_init.
Proof.
  split; unfold node_ids, fwd, rev, has_edge, dd_get; simpl.
  - constructor.
  - intros e H. by apply elem_of_nil in H.
  - intros s t. rewrite lookup_empty; simpl. split; [by intros ?%elem_of_nil|].
    intros (e & H & _). by apply elem_of_nil in H.
  - intros s t. rewrite lookup_empty; simpl. split; [by intros ?%elem_of_nil|].
    intros (e & H & _). by apply elem_of_nil in H.
  - intros e H. by apply elem_of_nil in H.
  - intros s. rewrite lookup_empty. constructor.
  - intros s. rewrite lookup_empty. constructor.
Qed.

Lemma wf_add_node n g : wf g → wf (add_node n g).2.
Proof.
  intros Hwf. destruct (decide (id n ∈ node_ids g)) as [Hin|Hin].
  - by rewrite add_node_dup.
  - rewrite add_node_fresh by done.
    split; simpl; try (by apply Hwf).
    + unfold node_ids; simpl. rewrite fmap_app. apply NoDup_app.
      repeat split; [apply Hwf| |apply NoDup_singleton].
      intros x Hx ->%list_elem_of_singleton. done.
    + intros e He. unfold node_ids; simpl. rewrite fmap_app.
      destruct (wf_I1 g Hwf e He). split; apply elem_of_app; by left.
Qed.

Lemma wf_add_edge e0 e g : Edge_post_init e0 = Ok e → wf g → wf (add_edge e g).2.
Proof.
  intros Hinit Hwf.
  assert (source e ≠ target e) as Hloop.
  { unfold Edge_post_init in Hinit. repeat case_bool_decide; naive_solver. }
  destruct (decide (source e ∈ node_ids g)) as [Hs|Hs]; cycle 1.
  { unfold add_edge. by rewrite (proj2 (dict_mem_false _ _) Hs). }
  destruct (decide (target e ∈ node_ids g)) as [Ht|Ht]; cycle 1.
  { unfold add_edge.
    by rewrite (proj2 (dict_mem_true _ _) Hs), (proj2 (dict_mem_false _ _) Ht). }
  destruct (edge_in e (edges g)) eqn:He.
  { by rewrite add_edge_present. }
  destruct (add_edge_new e g Hs Ht He) as (g' & -> & Hn & Hed & Hf & Hr). simpl.
  assert (∀ s t, has_edge g' s t ↔ has_edge g s t ∨ (s = source e ∧ t = target e)) as Hhas.
  { intros s t. unfold has_edge. rewrite Hed. split.
    - intros (e' & Hin & <- & <-). apply elem_of_app in Hin as [Hin|Hin].
      + left. eauto.
      + apply list_elem_of_singleton in Hin as ->. by right.
    - intros [(e' & Hin & <- & <-)|[-> ->]].
      + exists e'. rewrite elem_of_app. eauto.
      + exists e. rewrite elem_of_app, list_elem_of_singleton. eauto. }
  split.
  - unfold node_ids. rewrite Hn. apply Hwf.
  - intros e'. unfold node_ids. rewrite Hn, Hed. intros [Hin|Hin]%elem_of_app.
    + by apply (wf_I1 g Hwf).
    + by apply list_elem_of_singleton in Hin as ->.
  - intros s t. rewrite Hhas, Hf. pose proof (wf_fwd g Hwf s t) as Hd.
    case_decide; subst; [rewrite elem_of_set_add|]; naive_solver.
  - intros s t. rewrite Hhas, Hr. pose proof (wf_rev g Hwf s t) as Hd.
    case_decide; subst; [rewrite elem_of_set_add|]; naive_solver.
  - intros e'. rewrite Hed. intros [Hin|Hin]%elem_of_app.
    + by apply (wf_I3 g Hwf).
    + by apply list_elem_of_singleton in Hin as ->.
  - intros s. rewrite Hf. case_decide; [apply NoDup_set_add|]; apply Hwf.
  - intros t. rewrite Hr. case_decide; [apply NoDup_set_add|]; apply Hwf.
Qed.

Lemma reachable_wf g : reachable g → wf g.
Proof.
  induction 1; eauto using wf_init, wf_add_node, wf_add_edge.
Qed.

(** ** Claims on the mutations *)

(** C2. Every state reached from the empty graph by calls of [add_node]
    and [add_edge], successful or not, satisfies I1 (every edge's endpoints
    are nodes), I2 (forward and reverse adjacency hold exactly the pairs of
    [edges]) and I3 (no self-loop); hence [t] is among the dependencies of
    [s] exactly when [s] is among the dependents of [t]. *)
Theorem reachable_invariants (g : Graph) :
  reachable g →
  (∀ e, e ∈ edges g → source e ∈ node_ids g ∧ target e ∈ node_ids g) ∧
  (∀ s t, (t ∈ fwd g s ↔ s ∈ rev g t) ∧ (s ∈ rev g t ↔ has_edge g s t)) ∧
  (∀ e, e ∈ edges g → source e ≠ target e) ∧
  (∀ s t, ∃ ds dt,
     get_dependencies s g = (Ok ds, g) ∧ get_dependents t g = (Ok dt, g) ∧
     (t ∈ ds ↔ s ∈ dt)).
Proof.
  intros Hwf%reachable_wf. split; [apply Hwf|]. split; [|split; [apply Hwf|]].
  - intros s t. rewrite (wf_fwd g Hwf), (wf_rev g Hwf). tauto.
  - intros s t. exists (fwd g s), (rev g t). repeat split.
    + by rewrite (wf_fwd g Hwf), (wf_rev g Hwf).
    + by rewrite (wf_fwd g Hwf), (wf_rev g Hwf).
Qed.

(** C3, as the code has it.  [add_node] raises exactly when the id is
    already present and [add_edge] raises exactly when an endpoint is
    unknown; the exception is a [ValueError] whose message names the id, for
    [add_edge] the missing endpoint (the source first); a call that raises
    leaves the whole graph state as it was. *)
Theorem mutation_errors (node : Node) (edge : Edge) (g : Graph) :
  ((∃ e, (add_node node g).1 = Raise e) ↔ id node ∈ node_ids g) ∧
  (id node ∈ node_ids g →
   add_node node g =
     (Raise (ValueError ("Node with id '" +:+ id node +:+ "' already exists")), g)) ∧
  ((∃ e, (add_edge edge g).1 = Raise e) ↔
   source edge ∉ node_ids g ∨ target edge ∉ node_ids g) ∧
  (source edge ∉ node_ids g →
   add_edge edge g =
     (Raise (ValueError ("Source node '" +:+ source edge +:+ "' does not exist")), g)) ∧
  (source edge ∈ node_ids g → target edge ∉ node_ids g →
   add_edge edge g =
     (Raise (ValueError ("Target node '" +:+ target edge +:+ "' does not exist")), g)) ∧
  (∀ e, (add_node node g).1 = Raise e → (add_node node g).2 = g) ∧
  (∀ e, (add_edge edge g).1 = Raise e → (add_edge edge g).2 = g).
Proof.
  assert (source edge ∉ node_ids g →
    add_edge edge g =
      (Raise (ValueError ("Source node '" +:+ source edge +:+ "' does not exist")), g)) as Hsrc.
  { intros Hs. unfold add_edge. by rewrite (proj2 (dict_mem_false _ _) Hs). }
  assert (source edge ∈ node_ids g → target edge ∉ node_ids g →
    add_edge edge g =
      (Raise (ValueError ("Target node '" +:+ target edge +:+ "' does not exist")), g)) as Htgt.
  { intros Hs Ht. unfold add_edge.
    by rewrite (proj2 (dict_mem_true _ _) Hs), (proj2 (dict_mem_false _ _) Ht). }
  assert (source edge ∈ node_ids g → target edge ∈ node_ids g →
    (add_edge edge g).1 = Ok tt) as Hok.
  { intros Hs Ht. destruct (edge_in edge (edges g)) eqn:He.
    - by rewrite add_edge_present.
    - by destruct (add_edge_new edge g Hs Ht He) as (g' & -> & _). }
  repeat split.
  - intros [e He]. destruct (decide (id node ∈ node_ids g)) as [|Hn]; [done|].
    by rewrite add_node_fresh in He.
  - intros Hin. rewrite add_node_dup by done. eauto.
  - apply add_node_dup.
  - intros [e He].
    destruct (decide (source edge ∈ node_ids g)) as [Hs|Hs]; [|by left].
    destruct (decide (target edge ∈ node_ids g)) as [Ht|Ht]; [|by right].
    by rewrite Hok in He.
  - intros [Hs|Ht].
    + rewrite Hsrc by done. eauto.
    + destruct (decide (source edge ∈ node_ids g)) as [Hs|Hs].
      * rewrite Htgt by done. eauto.
      * rewrite Hsrc by done. eauto.
  - done.
  - done.
  - intros e He. destruct (decide (id node ∈ node_ids g)) as [Hn|Hn].
    + by rewrite add_node_dup.
    + by rewrite add_node_fresh in He.
  - intros e He.
    destruct (decide (source edge ∈ node_ids g)) as [Hs|Hs]; [|by rewrite Hsrc].
    destruct (decide (target edge ∈ node_ids g)) as [Ht|Ht]; [|by rewrite Htgt].
    by rewrite Hok in He.
Qed.

(** C3 as the spec words it fails: the exceptions are not of the classes
    the spec names.  On the graph with the one node a, [add_node] of a node a
    and [add_edge] from a to an unknown x both raise a [ValueError]. *)
Lemma mutation_errors_counterexample :
  ¬ (∀ node edge g,
       ((∃ e, (add_node node g).1 = Raise e ∧ exn_class e = "DuplicateNodeError") ↔
        id node ∈ node_ids g) ∧
       ((∃ e, (add_edge edge g).1 = Raise e ∧ exn_class e = "UnknownNodeError") ↔
        source edge ∉ node_ids g ∨ target edge ∉ node_ids g)).
Proof.
  intros H.
  destruct (H (mkNode "a" (TEnum SERVICE) ∅) (mkEdge "a" "x" ∅) (run [service "a"]))
    as [[_ H1] _].
  destruct H1 as (e & He & Hc).
  { eapply bool_decide_unpack. vm_compute. exact I. }
  vm_compute in He. injection He as <-. vm_compute in Hc. discriminate Hc.
Qed.

(** C9. Where an edge from [s] to [t] is present, [add_edge] of any edge
    with these endpoints, whatever its metadata, returns normally and leaves
    the state as it was: [edges], both adjacency indexes and the edge count
    are unchanged. *)
Theorem add_edge_idempotent (g : Graph) (edge : Edge) :
  wf g → has_edge g (source edge) (target edge) →
  ∃ g', add_edge edge g = (Ok tt, g') ∧
    edges g' = edges g ∧ _adjacency g' = _adjacency g ∧
    _reverse_adjacency g' = _reverse_adjacency g ∧ edge_count g' = edge_count g.
Proof.
  intros Hwf (e' & Hin & Hs & Ht). exists g.
  destruct (wf_I1 g Hwf e' Hin) as [H1 H2]. rewrite Hs in H1. rewrite Ht in H2.
  rewrite add_edge_present; [done..|]. apply edge_in_true. eauto.
Qed.

(** ** Claims on node construction *)

Lemma NodeType_of_value_Some v t : NodeType_of_value v = Some t ↔ v = NodeType_value t.
Proof.
  split.
  - intros H. apply find_some in H as [_ H]. by apply bool_decide_eq_true in H.
  - intros ->. by destruct t.
Qed.

Lemma NodeType_of_value_None v : NodeType_of_value v = None ↔ ∀ t, v ≠ NodeType_value t.
Proof.
  split.
  - intros H t ->. by rewrite (proj2 (NodeType_of_value_Some _ t)) in H.
  - intros H. destruct (NodeType_of_value v) as [t|] eqn:E; [|done].
    apply NodeType_of_value_Some in E. by destruct (H t).
Qed.

(** C4, as the code has it.  The values of the enumeration are database,
    api, kafka, cache, queue, service, storage, loadbalancer and custom.
    For a non-empty id and any kind given as ASCII text, construction
    succeeds; the kind is the member whose value is the lower-cased text
    when there is one, and the metadata is then untouched; otherwise the
    kind is custom. *)
Theorem Node_new_kind (nid s : string) (md : gmap string PyVal) :
  nid ≠ "" → isascii s = true →
  NodeType_value <$> NodeType_members =
    ["database"; "api"; "kafka"; "cache"; "queue"; "service"; "storage";
     "loadbalancer"; "custom"] ∧
  ∃ n, Node_new nid (TStr s) md = Ok n ∧ id n = nid ∧
    (∀ t, lower s = NodeType_value t → type n = TEnum t ∧ metadata n = md) ∧
    ((∀ t, lower s ≠ NodeType_value t) → type n = TEnum CUSTOM).
Proof.
  intros Hid _. split; [done|].
  unfold Node_new, Node_post_init; simpl.
  rewrite bool_decide_eq_false_2 by done.
  destruct (NodeType_of_value (lower s)) as [t|] eqn:E.
  - eexists; split; [done|]. simpl. split; [done|].
    apply NodeType_of_value_Some in E. split.
    + intros t' Ht'. rewrite E in Ht'.
      assert (t = t') as -> by (by destruct t, t'). done.
    + intros H. by destruct (H t).
  - pose proof (proj1 (NodeType_of_value_None _) E) as Hn.
    case_bool_decide; (eexists; split; [done|]); simpl;
      (split; [done|]); (split; [intros t Ht; by destruct (Hn t)|done]).
Qed.

Lemma Node_new_kind_witness :
  "api-gateway" ≠ "" ∧ isascii "API" = true ∧
  ∃ n, Node_new "api-gateway" (TStr "API") ∅ = Ok n ∧ type n = TEnum API.
Proof.
  split; [done|]. split; [reflexivity|].
  destruct (Node_new_kind "api-gateway" "API" ∅) as (_ & n & Hn & _ & Hk & _);
    [done|reflexivity|].
  exists n. split; [done|]. by apply (Hk API).
Defined.

(** C4 as the spec words it fails: "kafka" is none of the spec's nine
    strings and yet the kind is not custom. *)
Lemma Node_new_kind_counterexample :
  ¬ (∀ nid s md, nid ≠ "" →
       ∃ n, Node_new nid (TStr s) md = Ok n ∧
         (s ∈ ["database"; "api"; "service"; "cache"; "queue"; "event-stream";
               "storage"; "load-balancer"; "custom"] →
          ∃ t, type n = TEnum t ∧ NodeType_value t = s) ∧
         (s ∉ ["database"; "api"; "service"; "cache"; "queue"; "event-stream";
               "storage"; "load-balancer"; "custom"] →
          type n = TEnum CUSTOM ∧ metadata n !! "original_type" = Some (PStr s))).
Proof.
  intros H. destruct (H "n1" "kafka" ∅) as (n & Hn & _ & Hc); [done|].
  destruct Hc as [Hc _].
  { intros Hin. repeat (apply elem_of_cons in Hin as [Hin|Hin]; [done|]).
    by apply elem_of_nil in Hin. }
  vm_compute in Hn. injection Hn as <-. done.
Qed.

(** What the fallback stores under [original_type]: the field is read after
    it has been overwritten, so the text is not kept. *)
Lemma Node_new_original_type (nid s : string) (md : gmap string PyVal) n :
  Node_new nid (TStr s) md = Ok n →
  (∀ t, lower s ≠ NodeType_value t) → md !! "original_type" = None →
  metadata n !! "original_type" = Some (PEnum CUSTOM).
Proof.
  unfold Node_new, Node_post_init; simpl. intros Hn Hs Hmd.
  apply NodeType_of_value_None in Hs. rewrite Hs in Hn.
  case_bool_decide; [done|].
  rewrite bool_decide_eq_false_2 in Hn by (rewrite Hmd; by intros [? ?]).
  injection Hn as <-. simpl. apply lookup_insert_eq.
Qed.

(** ** Claims on [remove_node] *)

Lemma dd_get_remove d nid k :
  dd_get (List.filter (λ x, bool_decide (x ≠ nid)) <$> delete nid d) k =
    if decide (k = nid) then [] else List.filter (λ x, bool_decide (x ≠ nid)) (dd_get d k).
Proof.
  unfold dd_get. rewrite lookup_fmap. case_decide; subst.
  - by rewrite lookup_delete_eq.
  - rewrite lookup_delete_ne by done. by destruct (d !! k).
Qed.

Lemma elem_of_filter_ne (x nid : string) l :
  x ∈ List.filter (λ x, bool_decide (x ≠ nid)) l ↔ x ∈ l ∧ x ≠ nid.
Proof.
  rewrite !list_elem_of_In, filter_In, bool_decide_eq_true. done.
Qed.

Lemma dict_get_filter_ne {V} k nid (d : list (string * V)) :
  dict_get k (List.filter (λ kv, bool_decide (kv.1 ≠ nid)) d) =
    if decide (k = nid) then None else dict_get k d.
Proof.
  induction d as [|[k' v] d IH]; cbn [List.filter dict_get fst]; [by case_decide|].
  destruct (decide (k' = nid)) as [->|Hne].
  - rewrite (bool_decide_eq_false_2 (nid ≠ nid)) by (intros H; by apply H).
    rewrite IH. case_decide; [done|]. by rewrite bool_decide_eq_false_2 by congruence.
  - rewrite (bool_decide_eq_true_2 (k' ≠ nid)) by done. cbn [dict_get].
    destruct (decide (k' = k)) as [->|Hk].
    + rewrite !bool_decide_eq_true_2 by done. by rewrite decide_False.
    + rewrite !bool_decide_eq_false_2 by done. apply IH.
Qed.

(** C5.  An unknown id raises [UnknownNodeError] and changes nothing.
    Otherwise the node and exactly the edges that touch it are removed, no
    adjacency set is keyed by it or contains it, both indexes remain exact
    duals of the remaining edges, and the node and edge counts are those of
    what remains; the cached view is marked stale, [get_node] no longer
    finds the id and finds under every other id the node it found before,
    and the adjacency sets of the other ids keep their other members. *)
Theorem remove_node_spec (g : Graph) (nid : string) :
  (nid ∉ node_ids g → remove_node nid g = (Raise (UnknownNodeError nid), g)) ∧
  (nid ∈ node_ids g →
   ∃ g', remove_node nid g = (Ok tt, g') ∧
     (∀ x, x ∈ node_ids g' ↔ x ∈ node_ids g ∧ x ≠ nid) ∧
     (∀ e, e ∈ edges g' ↔ e ∈ edges g ∧ source e ≠ nid ∧ target e ≠ nid) ∧
     (∀ k, nid ∉ fwd g' k) ∧ fwd g' nid = [] ∧
     (∀ k, nid ∉ rev g' k) ∧ rev g' nid = [] ∧
     (wf g → wf g' ∧ S (node_count g') = node_count g) ∧
     edge_count g' =
       length (List.filter (λ e, bool_decide (source e ≠ nid) && bool_decide (target e ≠ nid))
                 (edges g)) ∧
     _dirty g' = true ∧
     (get_node nid g').1 = Ok None ∧
     (∀ k, k ≠ nid → (get_node k g').1 = (get_node k g).1) ∧
     (∀ k x, k ≠ nid → x ∈ fwd g' k ↔ x ∈ fwd g k ∧ x ≠ nid) ∧
     (∀ k x, k ≠ nid → x ∈ rev g' k ↔ x ∈ rev g k ∧ x ≠ nid)).
Proof.
  split.
  { intros Hn. unfold remove_node. by rewrite (proj2 (dict_mem_false _ _) Hn). }
  intros Hn. unfold remove_node. rewrite (proj2 (dict_mem_true _ _) Hn). simpl.
  eexists; split; [done|].
  set (g' := mkGraph _ _ _ _ _).
  assert (∀ x, x ∈ node_ids g' ↔ x ∈ node_ids g ∧ x ≠ nid) as Hids.
  { intros x. unfold node_ids, g'; simpl. rewrite !list_elem_of_fmap. split.
    - intros ([k v] & -> & Hin). apply list_elem_of_In, filter_In in Hin as [Hin Hne].
      apply bool_decide_eq_true in Hne. split; [|done].
      exists (k, v). split; [done|]. by apply list_elem_of_In.
    - intros [([k v] & -> & Hin) Hne]. exists (k, v). split; [done|].
      apply list_elem_of_In, filter_In. split; [by apply list_elem_of_In|].
      by apply bool_decide_eq_true. }
  assert (∀ e, e ∈ edges g' ↔ e ∈ edges g ∧ source e ≠ nid ∧ target e ≠ nid) as Hedges.
  { intros e. unfold g'; simpl.
    rewrite !list_elem_of_In, filter_In, andb_true_iff, !bool_decide_eq_true. done. }
  assert (∀ k, fwd g' k =
    if decide (k = nid) then [] else List.filter (λ x, bool_decide (x ≠ nid)) (fwd g k)) as Hf.
  { intros k. apply dd_get_remove. }
  assert (∀ k, rev g' k =
    if decide (k = nid) then [] else List.filter (λ x, bool_decide (x ≠ nid)) (rev g k)) as Hr.
  { intros k. apply dd_get_remove. }
  assert (∀ s t, has_edge g' s t ↔ has_edge g s t ∧ s ≠ nid ∧ t ≠ nid) as Hhas.
  { intros s t. unfold has_edge. split.
    - intros (e & He & <- & <-). apply Hedges in He as (? & ? & ?). eauto 6.
    - intros ((e & He & <- & <-) & ? & ?). exists e. rewrite Hedges. eauto. }
  split; [done|]. split; [done|]. split.
  { intros k. rewrite Hf. case_decide; [apply not_elem_of_nil|].
    rewrite elem_of_filter_ne. tauto. }
  split. { rewrite Hf. by rewrite decide_True. }
  split.
  { intros k. rewrite Hr. case_decide; [apply not_elem_of_nil|].
    rewrite elem_of_filter_ne. tauto. }
  split. { rewrite Hr. by rewrite decide_True. }
  assert (∀ k, dict_get k (nodes g') = if decide (k = nid) then None else dict_get k (nodes g))
    as Hget.
  { intros k. apply dict_get_filter_ne. }
  split; cycle 1.
  { split; [done|]. split; [done|]. unfold get_node. cbn [fst].
    split; [by rewrite Hget, decide_True|].
    split; [intros k Hk; by rewrite Hget, decide_False|].
    split; intros k x Hk; [rewrite Hf|rewrite Hr]; rewrite decide_False by done;
      apply elem_of_filter_ne. }
  intros Hwf. split.
  - split.
    + unfold node_ids, g'; simpl. pose proof (wf_ids g Hwf) as Hnd. unfold node_ids in Hnd.
      clear -Hnd. induction (nodes g) as [|[k v] d IH]; csimpl in *; [constructor|].
      apply NoDup_cons in Hnd as [Hk Hnd]. case_bool_decide; csimpl; [|by apply IH].
      apply NoDup_cons. split; [|by apply IH].
      intros Hin. apply Hk. apply list_elem_of_fmap in Hin as ([k' v'] & -> & Hin).
      apply list_elem_of_In, filter_In in Hin as [Hin _].
      apply list_elem_of_fmap. exists (k', v'). split; [done|]. by apply list_elem_of_In.
    + intros e He. apply Hedges in He as (He & Hs & Ht).
      destruct (wf_I1 g Hwf e He). rewrite !Hids. done.
    + intros s t. rewrite Hhas, Hf. pose proof (wf_fwd g Hwf s t).
      case_decide; [rewrite elem_of_nil|rewrite elem_of_filter_ne]; naive_solver.
    + intros s t. rewrite Hhas, Hr. pose proof (wf_rev g Hwf s t).
      case_decide; [rewrite elem_of_nil|rewrite elem_of_filter_ne]; naive_solver.
    + intros e He. apply Hedges in He as (He & _). by apply (wf_I3 g Hwf).
    + intros s. rewrite Hf. case_decide; [constructor|].
      apply NoDup_ListNoDup, List.NoDup_filter, NoDup_ListNoDup, Hwf.
    + intros t. rewrite Hr. case_decide; [constructor|].
      apply NoDup_ListNoDup, List.NoDup_filter, NoDup_ListNoDup, Hwf.
  - unfold node_count, g'; simpl. pose proof (wf_ids g Hwf) as Hnd.
    unfold node_ids in Hnd, Hn. clear -Hnd Hn.
    induction (nodes g) as [|[k v] d IH]; csimpl in *; [by apply elem_of_nil in Hn|].
    apply NoDup_cons in Hnd as [Hk Hnd]. case_bool_decide as Hkn; csimpl.
    + apply elem_of_cons in Hn as [->|Hn]; [done|]. by rewrite IH.
    + subst. f_equal.
      clear -Hk. induction d as [|[k' v'] d IH]; csimpl in *; [done|].
      apply not_elem_of_cons in Hk as [Hne Hk].
      rewrite bool_decide_eq_true_2 by done. csimpl. by rewrite IH.
Qed.

(** ** Witnesses on the scenario graphs *)

Lemma reachable_run ops : Forall constructed ops → reachable (run ops).
Proof.
  unfold run. induction ops as [|o ops IH] using rev_ind; [constructor|].
  intros [Hops Ho]%Forall_app. apply (proj1 (Forall_singleton _ _)) in Ho.
  rewrite foldl_app. simpl.
  destruct o; simpl in *.
  - eapply reach_add_node; eauto.
  - eapply reach_add_edge; eauto.
Qed.

Lemma reachable_scenario_api : reachable scenario_api.
Proof. apply reachable_run. repeat constructor. Qed.

Lemma reachable_scenario_cycle : reachable scenario_cycle.
Proof. apply reachable_run. repeat constructor. Qed.

Lemma reachable_invariants_witness :
  reachable scenario_api ∧
  ∃ ds dt, get_dependencies "api" scenario_api = (Ok ds, scenario_api) ∧
    get_dependents "db" scenario_api = (Ok dt, scenario_api) ∧ ("db" ∈ ds ↔ "api" ∈ dt).
Proof.
  split; [apply reachable_scenario_api|].
  apply (reachable_invariants scenario_api reachable_scenario_api).
Defined.

Lemma add_edge_idempotent_witness :
  wf scenario_api ∧
  has_edge scenario_api "api" "db" ∧
  ∃ g', add_edge (mkEdge "api" "db" {["latency" := PInt 5]}) scenario_api = (Ok tt, g') ∧
    edges g' = edges scenario_api ∧ _adjacency g' = _adjacency scenario_api ∧
    _reverse_adjacency g' = _reverse_adjacency scenario_api ∧
    edge_count g' = edge_count scenario_api.
Proof.
  assert (has_edge scenario_api "api" "db") as He.
  { exists (mkEdge "api" "db" ∅). split; [|done]. vm_compute. left. }
  split; [apply reachable_wf, reachable_scenario_api|]. split; [done|].
  apply (add_edge_idempotent scenario_api (mkEdge "api" "db" {["latency" := PInt 5]}));
    [apply reachable_wf, reachable_scenario_api|done].
Defined.

(** ** Breadth-first search: the invariant *)

Lemma elem_of_fresh V l x : x ∈ fresh V l ↔ x ∈ l ∧ x ∉ V.
Proof.
  revert V. induction l as [|y l IH]; intros V; simpl.
  - rewrite elem_of_nil. tauto.
  - case_decide as Hy.
    + rewrite !elem_of_cons, IH. destruct (decide (x = y)) as [->|]; set_solver.
    + rewrite IH, elem_of_cons. set_solver.
Qed.

Lemma NoDup_fresh V l : NoDup (fresh V l).
Proof.
  revert V. induction l as [|y l IH]; intros V; simpl; [constructor|].
  case_decide; [|done]. apply NoDup_cons. split; [|done].
  rewrite elem_of_fresh. set_solver.
Qed.

Lemma size_fresh V l : size (list_to_set (fresh V l) ∪ V) = length (fresh V l) + size V.
Proof.
  rewrite size_union.
  - rewrite size_list_to_set by apply NoDup_fresh. done.
  - intros x Hx%elem_of_list_to_set%elem_of_fresh. tauto.
Qed.

Lemma levels_head d0 u d Q x dx :
  levels d0 ((u, d) :: Q) → (x, dx) ∈ Q → d ≤ dx ≤ S d.
Proof.
  intros (Q1 & Q2 & HQ & H1 & H2) Hx.
  rewrite Forall_forall in H1. rewrite Forall_forall in H2.
  destruct Q1 as [|[u1 d1] Q1]; simpl in HQ.
  - subst Q2. pose proof (H2 (u, d) ltac:(left)) as Hd. simpl in Hd.
    pose proof (H2 (x, dx) ltac:(by right)) as Hdx. simpl in Hdx. lia.
  - injection HQ as Hu1 Hd1 HQ'; subst u1 d1 Q.
    pose proof (H1 (u, d) ltac:(left)) as Hd. simpl in Hd.
    apply elem_of_app in Hx as [Hx|Hx].
    + pose proof (H1 (x, dx) ltac:(by right)) as Hdx. simpl in Hdx. lia.
    + pose proof (H2 (x, dx) Hx) as Hdx. simpl in Hdx. lia.
Qed.

Lemma levels_pop u d Q : (∃ d0, levels d0 ((u, d) :: Q)) → ∃ d0, levels d0 Q.
Proof.
  intros (d0 & Q1 & Q2 & HQ & H1 & H2). exists d0.
  destruct Q1 as [|[u1 d1] Q1]; simpl in HQ.
  - subst Q2. exists [], Q. split; [done|]. split; [done|]. by apply Forall_cons in H2 as [_ ?].
  - injection HQ as Hu1 Hd1 HQ'; subst u1 d1 Q. exists Q1, Q2. split; [done|]. split; [|done].
    by apply Forall_cons in H1 as [_ ?].
Qed.

Lemma levels_push u d Q (new : list string) :
  (∃ d0, levels d0 ((u, d) :: Q)) → ∃ d0, levels d0 (Q ++ ((λ x, (x, S d)) <$> new)).
Proof.
  intros (d0 & Q1 & Q2 & HQ & H1 & H2).
  assert (Forall (λ x : string * nat, x.2 = S d) ((λ x, (x, S d)) <$> new)) as Hnew.
  { apply Forall_fmap, Forall_forall. done. }
  destruct Q1 as [|[u1 d1] Q1]; simpl in HQ.
  - subst Q2. apply Forall_cons in H2 as [Hd H2]. simpl in Hd. subst d.
    exists (S d0), Q, ((λ x, (x, S (S d0))) <$> new). done.
  - injection HQ as Hu1 Hd1 HQ'; subst u1 d1 Q. apply Forall_cons in H1 as [Hd H1]. simpl in Hd. subst d.
    exists d0, Q1, (Q2 ++ ((λ x, (x, S d0)) <$> new)).
    split; [by rewrite app_assoc|]. split; [done|]. by apply Forall_app.
Qed.

Section bfs.
Context (nb : string → list string) (s : string) (M : option nat).

Lemma bfs_inv_init : bfs_inv nb s M {[s]} [(s, 0)].
Proof.
  split.
  - set_solver.
  - intros u d [= -> ->]%list_elem_of_singleton.
    split; [set_solver|]. split; [constructor|lia].
  - exists 0, [(s, 0)], []. repeat split; by repeat constructor.
  - intros u k v ->%elem_of_singleton Hu. exfalso. apply Hu. csimpl. left.
  - intros v ->%elem_of_singleton. by left.
Qed.

(** Every node within the bound whose distance is at most every depth
    in the queue has been visited. *)
Lemma bfs_level V Q k v :
  bfs_inv nb s M V Q → reach nb s k v → within M k →
  (∀ x dx, (x, dx) ∈ Q → k ≤ dx) → v ∈ V.
Proof.
  intros Hinv Hr. induction Hr as [|k u v Hr IH Hv]; intros Hk HQ.
  - apply Hinv.
  - assert (u ∈ V) as Hu.
    { apply IH; [destruct M; simpl in *; lia|]. intros x dx Hx. specialize (HQ x dx Hx). lia. }
    apply (bfs_closed _ _ _ _ _ Hinv u k v Hu); [|exact Hr| |exact Hv].
    + intros ([x dx] & -> & Hx)%list_elem_of_fmap. simpl in *.
      specialize (HQ _ _ Hx). destruct (bfs_label _ _ _ _ _ Hinv _ _ Hx) as (_ & _ & Hmin).
      specialize (Hmin k Hr). lia.
    + destruct M; simpl in *; lia.
Qed.

Lemma bfs_inv_skip V u d Q :
  bfs_inv nb s M V ((u, d) :: Q) → ¬ below M d → bfs_inv nb s M V Q.
Proof.
  intros Hinv Hd. split.
  - apply Hinv.
  - intros x dx Hx. apply (bfs_label _ _ _ _ _ Hinv). by right.
  - eapply levels_pop, Hinv.
  - intros x k v Hx HxQ Hr Hk Hv.
    destruct (decide (x = u)) as [->|Hne].
    + destruct (bfs_label _ _ _ _ _ Hinv u d ltac:(left)) as (_ & _ & Hmin).
      specialize (Hmin k Hr). exfalso. apply Hd. destruct M; simpl in *; [lia|done].
    + apply (bfs_closed _ _ _ _ _ Hinv x k v Hx); [|exact Hr|exact Hk|exact Hv].
      csimpl. intros [?|?]%elem_of_cons; done.
  - apply Hinv.
Qed.

Lemma bfs_inv_expand V u d Q :
  bfs_inv nb s M V ((u, d) :: Q) → below M d →
  bfs_inv nb s M (list_to_set (fresh V (nb u)) ∪ V)
    (Q ++ ((λ x, (x, S d)) <$> fresh V (nb u))).
Proof.
  intros Hinv Hd.
  destruct (bfs_label _ _ _ _ _ Hinv u d ltac:(left)) as (HuV & Hru & Hmin).
  split.
  - apply elem_of_union_r, Hinv.
  - intros x dx [Hx|Hx]%elem_of_app.
    + destruct (bfs_label _ _ _ _ _ Hinv x dx ltac:(by right)) as (? & ? & ?).
      split; [by apply elem_of_union_r|done].
    + apply list_elem_of_fmap in Hx as (y & [= -> ->] & Hy).
      pose proof Hy as [Hnb HyV]%elem_of_fresh.
      split; [by apply elem_of_union_l, elem_of_list_to_set|].
      split; [by econstructor|].
      intros k Hk. destruct (decide (S d ≤ k)) as [|Hlt]; [done|].
      exfalso. apply HyV. apply (bfs_level V ((u, d) :: Q) k y); try done.
      * destruct M; simpl in *; lia.
      * intros x dx [[= -> ->]|Hx]%elem_of_cons; [lia|].
        destruct (bfs_levels _ _ _ _ _ Hinv) as [d0 Hl].
        pose proof (levels_head _ _ _ _ _ _ Hl Hx). lia.
  - eapply levels_push, Hinv.
  - intros x k v Hx HxQ Hr Hk Hv.
    destruct (decide (x = u)) as [->|Hne].
    { destruct (decide (v ∈ V)); [by apply elem_of_union_r|].
      apply elem_of_union_l, elem_of_list_to_set, elem_of_fresh. done. }
    apply elem_of_union in Hx as [Hx|Hx].
    { exfalso. apply HxQ. rewrite fmap_app. apply elem_of_app. right.
      rewrite <- list_fmap_compose. apply elem_of_list_to_set in Hx.
      apply list_elem_of_fmap. exists x. done. }
    apply elem_of_union_r.
    apply (bfs_closed _ _ _ _ _ Hinv x k v Hx); [|exact Hr|exact Hk|exact Hv].
    csimpl. intros [?|HQ]%elem_of_cons; [done|].
    apply HxQ. rewrite fmap_app. apply elem_of_app. by left.
  - intros v [Hv|Hv]%elem_of_union.
    + apply elem_of_list_to_set, elem_of_fresh in Hv as [Hv _].
      right. exists d. split; [by econstructor|]. destruct M; simpl in *; lia.
    + by apply Hinv.
Qed.

(** When the queue has run empty the visited set is the start together
    with everything within the bound. *)
Lemma bfs_inv_final V v :
  bfs_inv nb s M V [] → v ∈ V ↔ v = s ∨ ∃ k, reach nb s (S k) v ∧ within M (S k).
Proof.
  intros Hinv. split; [apply Hinv|].
  intros [->|(k & Hr & Hk)]; [apply Hinv|].
  apply (bfs_level V [] (S k) v); try done.
  intros x dx Hx. by apply elem_of_nil in Hx.
Qed.
End bfs.

(** ** Running monadic code *)

Lemma bind_ok {S A B} (m : M S A) (f : A → M S B) s a s' :
  m s = (Ok a, s') → (m ≫= f) s = f a s'.
Proof. unfold mbind, M_bind. by intros ->. Qed.

Lemma for_each_cons_ok {S A} (body : A → M S unit) x l s s' :
  body x s = (Ok tt, s') → for_each (x :: l) body s = for_each l body s'.
Proof. intros H. simpl. by rewrite (bind_ok _ _ _ _ _ H). Qed.

(** ** Reading the adjacency indexes *)

Lemma same_graph_refl g : same_graph g g.
Proof. by repeat split. Qed.

Lemma same_graph_trans g1 g2 g3 : same_graph g1 g2 → same_graph g2 g3 → same_graph g1 g3.
Proof.
  intros (H1 & H2 & H3 & H4) (H1' & H2' & H3' & H4').
  repeat split; intros; congruence.
Qed.

Lemma same_graph_touch_fwd u g : same_graph g (touch_fwd u g).
Proof.
  repeat split; try done. intros s. apply dd_getitem_snd.
Qed.

Lemma same_graph_touch_rev u g : same_graph g (touch_rev u g).
Proof.
  repeat split; try done. intros s. apply dd_getitem_snd.
Qed.

Lemma adjacency_getitem_eq u g : adjacency_getitem u g = (Ok (fwd g u), touch_fwd u g).
Proof.
  unfold adjacency_getitem, touch_fwd, fwd. rewrite <- dd_getitem_fst.
  by destruct (dd_getitem (_adjacency g) u).
Qed.

Lemma reverse_adjacency_getitem_eq u g :
  reverse_adjacency_getitem u g = (Ok (rev g u), touch_rev u g).
Proof.
  unfold reverse_adjacency_getitem, touch_rev, rev. rewrite <- dd_getitem_fst.
  by destruct (dd_getitem (_reverse_adjacency g) u).
Qed.

Lemma on_self_fwd {L} u g (l : L) :
  on_self (adjacency_getitem u) (g, l) = (Ok (fwd g u), (touch_fwd u g, l)).
Proof. unfold on_self. simpl. by rewrite adjacency_getitem_eq. Qed.

Lemma on_self_rev {L} u g (l : L) :
  on_self (reverse_adjacency_getitem u) (g, l) = (Ok (rev g u), (touch_rev u g, l)).
Proof. unfold on_self. simpl. by rewrite reverse_adjacency_getitem_eq. Qed.

(** ** Walks *)

Lemma walk_snoc g k u v w : walk g k u v → has_edge g v w → walk g (S k) u w.
Proof.
  induction 1 as [u|k u x v Hux Hxv IH]; intros Hvw.
  - econstructor; [done|constructor].
  - econstructor; [done|]. by apply IH.
Qed.

Lemma reach_cons nb s k u v : u ∈ nb s → reach nb u k v → reach nb s (S k) v.
Proof.
  intros Hu. induction 1 as [|k x v Hx IH Hv].
  - econstructor; [constructor|done].
  - econstructor; [exact IH|done].
Qed.

Lemma reach_rev_walk g s k u : wf g → reach (rev g) s k u ↔ walk g k u s.
Proof.
  intros Hwf. split.
  - induction 1 as [|k x v Hx IH Hv]; [constructor|].
    apply (wf_rev g Hwf) in Hv. by econstructor.
  - induction 1 as [u|k u x v Hux Hxv IH]; [constructor|].
    apply (wf_rev g Hwf) in Hux. by econstructor.
Qed.

Lemma reach_fwd_walk g s k u : wf g → reach (fwd g) s k u ↔ walk g k s u.
Proof.
  intros Hwf. split.
  - induction 1 as [|k x v Hx IH Hv]; [constructor|].
    apply (wf_fwd g Hwf) in Hv. by eapply walk_snoc.
  - induction 1 as [u|k u x v Hux Hxv IH]; [constructor|].
    apply (wf_fwd g Hwf) in Hux. by eapply reach_cons.
Qed.

Lemma has_edge_nodes g u v : wf g → has_edge g u v → u ∈ node_ids g ∧ v ∈ node_ids g.
Proof.
  intros Hwf (e & He & <- & <-). by apply (wf_I1 g Hwf).
Qed.

Lemma walk_nodes g k u w : wf g → walk g (S k) u w → u ∈ node_ids g ∧ w ∈ node_ids g.
Proof.
  intros Hwf. revert u. induction k as [|k IH]; intros u Hw.
  - inversion Hw as [|? ? v ? He Hw']; subst. inversion Hw'; subst.
    by apply has_edge_nodes.
  - inversion Hw as [|? ? v ? He Hw']; subst. split.
    + by apply (has_edge_nodes g u v).
    + by apply (IH v).
Qed.

Lemma size_node_ids g (V : gset string) :
  wf g → (∀ v, v ∈ V → v ∈ node_ids g) → size V ≤ length (node_ids g).
Proof.
  intros Hwf HV. rewrite <- (size_list_to_set (C:=gset string)) by apply Hwf.
  apply subseteq_size. intros v Hv. by apply elem_of_list_to_set, HV.
Qed.

(** ** [get_impact_radius] *)

Lemma impact_visit_eq depth x g I Q V :
  impact_visit depth x (g, mkImpact I Q V) =
    (Ok tt, (g, if decide (x ∉ V)
                then mkImpact ({[x]} ∪ I) (Q ++ [(x, (depth + 1)%Z)]) ({[x]} ∪ V)
                else mkImpact I Q V)).
Proof.
  unfold impact_visit, mbind, M_bind, get_locals, put_locals; simpl.
  by case_decide.
Qed.

Lemma impact_visit_for_each depth l g I Q V :
  for_each l (impact_visit depth) (g, mkImpact I Q V) =
    (Ok tt, (g, mkImpact (list_to_set (fresh V l) ∪ I)
                  (Q ++ ((λ x, (x, (depth + 1)%Z)) <$> fresh V l))
                  (list_to_set (fresh V l) ∪ V))).
Proof.
  revert I Q V. induction l as [|x l IH]; intros I Q V.
  - simpl. rewrite app_nil_r. do 3 f_equal; set_solver.
  - rewrite (for_each_cons_ok _ _ _ _ _ (impact_visit_eq _ _ _ _ _ _)). simpl.
    case_decide.
    + rewrite IH. rewrite <- app_assoc. simpl. do 3 f_equal; set_solver.
    + apply IH.
Qed.

Lemma depth_queue_app Q1 Q2 : depth_queue (Q1 ++ Q2) = depth_queue Q1 ++ depth_queue Q2.
Proof. apply fmap_app. Qed.

Lemma below_depth (M : option Z) (depth : Z) :
  (0 ≤ depth)%Z →
  match M with Some m => bool_decide (m ≤ depth)%Z | None => false end = false ↔
  below (Z.to_nat <$> M) (Z.to_nat depth).
Proof.
  intros Hd. destruct M as [m|]; simpl; [|done].
  rewrite bool_decide_eq_false. lia.
Qed.

Lemma impact_loop_spec g0 s M :
  wf g0 → s ∈ node_ids g0 →
  ∀ fuel g Qc V,
    same_graph g0 g → Forall (λ x, (0 ≤ x.2)%Z) Qc →
    bfs_inv (rev g0) s (Z.to_nat <$> M) V (depth_queue Qc) →
    length Qc + length (node_ids g0) < fuel + size V →
    ∃ g' V', impact_loop fuel M (g, mkImpact (V ∖ {[s]}) Qc V) =
               (Ok tt, (g', mkImpact (V' ∖ {[s]}) [] V')) ∧
      same_graph g0 g' ∧ bfs_inv (rev g0) s (Z.to_nat <$> M) V' [].
Proof.
  intros Hwf Hs.
  assert (∀ V Q, bfs_inv (rev g0) s (Z.to_nat <$> M) V Q → ∀ v, v ∈ V → v ∈ node_ids g0) as Hnodes.
  { intros V Q Hinv v Hv. destruct (bfs_sound _ _ _ _ _ Hinv v Hv) as [->|(k & Hr & _)]; [done|].
    apply reach_rev_walk in Hr; [|done]. by apply walk_nodes in Hr as [? ?]. }
  induction fuel as [|fuel IH]; intros g Qc V Hg Hpos Hinv Hfuel.
  { pose proof (size_node_ids g0 V Hwf (Hnodes _ _ Hinv)). lia. }
  destruct Qc as [|[current depth] rest].
  { exists g, V. done. }
  apply Forall_cons in Hpos as [Hdepth Hpos]. simpl in Hdepth.
  simpl. unfold mbind, M_bind, get_locals, put_locals; simpl.
  destruct (match M with Some m => bool_decide (m ≤ depth)%Z | None => false end) eqn:Hskip.
  - simpl. apply (IH g rest V); [done|done| |simpl in Hfuel; lia].
    apply (bfs_inv_skip _ _ _ _ current (Z.to_nat depth)); [done|].
    rewrite <- below_depth by done. by rewrite Hskip.
  - apply below_depth in Hskip; [|done].
    rewrite on_self_rev. destruct Hg as (Hg1 & Hg2 & Hg3 & Hg4). rewrite Hg4.
    rewrite impact_visit_for_each.
    pose proof (bfs_inv_expand _ _ _ _ current (Z.to_nat depth) _ Hinv Hskip) as Hinv'.
    set (new := fresh V (rev g0 current)) in *.
    assert (list_to_set new ∪ V ∖ {[s]} = (list_to_set new ∪ V) ∖ {[s]}) as ->.
    { assert (s ∈ V) as HsV by apply Hinv.
      assert (s ∉ new) as Hsn by (unfold new; rewrite elem_of_fresh; tauto).
      clear -HsV Hsn. set_solver. }
    apply IH.
    + eapply same_graph_trans; [|apply same_graph_touch_rev]. done.
    + apply Forall_app. split; [done|]. apply Forall_fmap, Forall_forall. simpl. lia.
    + rewrite depth_queue_app. unfold depth_queue at 2. rewrite <- list_fmap_compose.
      replace (depth_queue rest ++ _) with
        (depth_queue rest ++ ((λ x, (x, S (Z.to_nat depth))) <$> new)); [done|].
      f_equal. apply list_fmap_ext. intros _ x _. simpl. f_equal. lia.
    + unfold new. rewrite size_fresh. rewrite length_app, length_fmap. simpl in Hfuel. lia.
Qed.

Lemma impact_radius_char (g : Graph) (nid : string) (M : option Z) (fuel : nat) :
  wf g → length (node_ids g) < fuel →
  ∃ r g', get_impact_radius fuel nid M g = (Ok r, g') ∧ same_graph g g' ∧
    ∀ u, u ∈ r ↔
      u ≠ nid ∧ ∃ k, walk g k u nid ∧
        match M with Some m => (Z.of_nat k ≤ m)%Z | None => True end.
Proof.
  intros Hwf Hfuel. unfold get_impact_radius, mbind, M_bind, this; simpl.
  destruct (dict_mem nid (nodes g)) eqn:Hmem; simpl.
  - apply dict_mem_true in Hmem.
    destruct (impact_loop_spec g nid M Hwf Hmem fuel g [(nid, 0%Z)] {[nid]})
      as (g' & V' & Hrun & Hg' & Hinv).
    { apply same_graph_refl. }
    { by repeat constructor. }
    { apply bfs_inv_init. }
    { rewrite size_singleton. simpl. lia. }
    replace ({[nid]} ∖ {[nid]} : gset string) with (∅ : gset string) in Hrun by set_solver.
    unfold with_locals, mbind, M_bind, get_locals. rewrite Hrun. simpl.
    eexists _, _. split; [done|]. split; [done|].
    intros u. rewrite elem_of_difference, elem_of_singleton.
    rewrite (bfs_inv_final _ _ _ _ _ Hinv). split.
    + intros [[->|(k & Hr & Hk)] Hne]; [done|]. split; [done|].
      exists (S k). split; [by apply reach_rev_walk|].
      destruct M; simpl in *; lia.
    + intros [Hne (k & Hw & Hk)]. split; [|done]. right.
      destruct k as [|k]; [by inversion Hw|].
      exists k. split; [by apply reach_rev_walk|].
      destruct M; simpl in *; lia.
  - apply dict_mem_false in Hmem. exists ∅, g. split; [done|].
    split; [apply same_graph_refl|].
    intros u. split; [by intros ?%not_elem_of_empty|].
    intros [Hne (k & Hw & Hk)]. exfalso.
    destruct k as [|k]; [by inversion Hw|].
    by apply walk_nodes in Hw as [_ ?].
Qed.

(** C6.  On a well-formed graph and with fuel above the number of nodes,
    [get_impact_radius nid M] returns the set of the [u] other than [nid]
    from which a walk of at most [M] edges (of any length for [None]) leads
    to [nid]; the graph is unchanged up to empty index entries.  An unknown
    id gives the empty set, depth 0 gives the empty set, and a larger bound
    gives a larger set.  In the api/db/cache scenario the radius of db is
    {api} and that of api is empty. *)
Theorem impact_radius_spec (g : Graph) (nid : string) (M : option Z) (fuel : nat) :
  wf g → length (node_ids g) < fuel →
  (∃ r g', get_impact_radius fuel nid M g = (Ok r, g') ∧ same_graph g g' ∧
     (∀ u, u ∈ r ↔
        u ≠ nid ∧ ∃ k, walk g k u nid ∧
          match M with Some m => (Z.of_nat k ≤ m)%Z | None => True end) ∧
     (nid ∉ node_ids g → r = ∅) ∧
     (M = Some 0%Z → r = ∅) ∧
     (∀ M' r' g'',
        match M, M' with
        | Some m, Some m' => (m ≤ m')%Z
        | _, None => True
        | None, Some _ => False
        end →
        get_impact_radius fuel nid M' g = (Ok r', g'') → r ⊆ r')) ∧
  (get_impact_radius 4 "db" None scenario_api).1 = Ok {["api"]} ∧
  (get_impact_radius 4 "api" None scenario_api).1 = Ok ∅.
Proof.
  intros Hwf Hfuel. split; [|split; vm_compute; reflexivity].
  destruct (impact_radius_char g nid M fuel Hwf Hfuel) as (r & g' & Hrun & Hg' & Hr).
  exists r, g'. split; [done|]. split; [done|]. split; [done|]. split; [|split].
  - intros Hnid. apply set_eq. intros u. rewrite Hr. split; [|by intros ?%not_elem_of_empty].
    intros [Hne (k & Hw & _)]. exfalso.
    destruct k as [|k]; [by inversion Hw|]. by apply walk_nodes in Hw as [_ ?].
  - intros ->. apply set_eq. intros u. rewrite Hr. split; [|by intros ?%not_elem_of_empty].
    intros [Hne (k & Hw & Hk)]. exfalso.
    destruct k as [|k]; [by inversion Hw|lia].
  - intros M' r' g'' HM Hrun'.
    destruct (impact_radius_char g nid M' fuel Hwf Hfuel) as (r2 & g2 & Hrun2 & _ & Hr2).
    rewrite Hrun' in Hrun2. injection Hrun2 as <- <-.
    intros u. rewrite Hr, Hr2. intros [Hne (k & Hw & Hk)]. split; [done|].
    exists k. split; [done|]. destruct M, M'; try done. lia.
Qed.

Lemma impact_radius_spec_witness :
  wf scenario_api ∧ length (node_ids scenario_api) < 4 ∧
  ∃ r g', get_impact_radius 4 "db" (Some 1%Z) scenario_api = (Ok r, g') ∧
    same_graph scenario_api g'.
Proof.
  assert (length (node_ids scenario_api) < 4) as Hlen by (vm_compute; lia).
  split; [apply reachable_wf, reachable_scenario_api|]. split; [done|].
  destruct (impact_radius_spec scenario_api "db" (Some 1%Z) 4
              (reachable_wf _ reachable_scenario_api) Hlen)
    as [(r & g' & Hrun & Hg' & _) _].
  by exists r, g'.
Defined.

(** ** [get_critical_path] *)

Lemma is_path_nonempty g u w p : is_path g u w p → 1 ≤ length p.
Proof. destruct 1; simpl; lia. Qed.

Lemma is_path_snoc g u v w p : is_path g u v p → has_edge g v w → is_path g u w (p ++ [w]).
Proof.
  induction 1 as [u|u x v p Hux Hp IH]; intros Hvw; simpl.
  - econstructor; [done|constructor].
  - econstructor; [done|]. by apply IH.
Qed.

Lemma is_path_reach g u w p : wf g → is_path g u w p → reach (fwd g) u (length p - 1) w.
Proof.
  intros Hwf. induction 1 as [u|u x v p Hux Hp IH]; simpl; [constructor|].
  pose proof (is_path_nonempty _ _ _ _ Hp).
  replace (length p - 0) with (S (length p - 1)) by lia.
  apply reach_cons with x; [|done]. by apply (wf_fwd g Hwf).
Qed.

Lemma is_path_self g u p : is_path g u u p → length p ≤ 1 → p = [u].
Proof.
  destruct 1 as [|u v w p He Hp]; [done|].
  apply is_path_nonempty in Hp. simpl. lia.
Qed.

Lemma path_visit_eq path x g Q V :
  path_visit path x (g, mkPath Q V) =
    (Ok tt, (g, if decide (x ∉ V)
                then mkPath (Q ++ [(x, path ++ [x])]) ({[x]} ∪ V)
                else mkPath Q V)).
Proof.
  unfold path_visit, mbind, M_bind, get_locals, put_locals; simpl.
  by case_decide.
Qed.

Lemma path_visit_for_each path l g Q V :
  for_each l (path_visit path) (g, mkPath Q V) =
    (Ok tt, (g, mkPath (Q ++ ((λ x, (x, path ++ [x])) <$> fresh V l))
                  (list_to_set (fresh V l) ∪ V))).
Proof.
  revert Q V. induction l as [|x l IH]; intros Q V.
  - simpl. rewrite app_nil_r. do 3 f_equal; set_solver.
  - rewrite (for_each_cons_ok _ _ _ _ _ (path_visit_eq _ _ _ _ _)). simpl.
    case_decide.
    + rewrite IH. rewrite <- app_assoc. simpl. do 3 f_equal; set_solver.
    + apply IH.
Qed.

Lemma path_loop_spec g0 s end_ :
  wf g0 → s ∈ node_ids g0 →
  ∀ fuel g Qc V,
    same_graph g0 g →
    Forall (λ x, is_path g0 s x.1 x.2 ∧ NoDup x.2 ∧ ∀ y, y ∈ x.2 → y ∈ V) Qc →
    bfs_inv (fwd g0) s None V (hop_queue Qc) →
    (∀ x, x ∈ V → x ∉ Qc.*1 → x ≠ end_) →
    length Qc + length (node_ids g0) < fuel + size V →
    ∃ r g' l', path_loop fuel end_ (g, mkPath Qc V) = (Ok r, (g', l')) ∧
      same_graph g0 g' ∧
      match r with
      | Some p =>
          is_path g0 s end_ p ∧ NoDup p ∧ ∀ p', is_path g0 s end_ p' → length p ≤ length p'
      | None => ∀ p', ¬ is_path g0 s end_ p'
      end.
Proof.
  intros Hwf Hs.
  assert (∀ V Q, bfs_inv (fwd g0) s None V Q → ∀ v, v ∈ V → v ∈ node_ids g0) as Hnodes.
  { intros V Q Hinv v Hv. destruct (bfs_sound _ _ _ _ _ Hinv v Hv) as [->|(k & Hr & _)]; [done|].
    apply reach_fwd_walk in Hr; [|done]. by apply walk_nodes in Hr as [? ?]. }
  induction fuel as [|fuel IH]; intros g Qc V Hg Hpaths Hinv Hend Hfuel.
  { pose proof (size_node_ids g0 V Hwf (Hnodes _ _ Hinv)). lia. }
  destruct Qc as [|[current path] rest].
  { exists None, g, (mkPath [] V). split; [done|]. split; [done|].
    intros p' Hp'. apply is_path_reach in Hp'; [|done].
    apply (Hend end_); [|apply not_elem_of_nil|done].
    apply (bfs_level _ _ _ _ _ _ _ Hinv Hp'); [done|].
    intros x dx Hx. by apply elem_of_nil in Hx. }
  apply Forall_cons in Hpaths as [(Hpath & Hnd & HpV) Hpaths]. simpl in Hpath, Hnd, HpV.
  simpl. unfold mbind, M_bind, get_locals, put_locals; simpl.
  case_bool_decide as Hcur.
  - subst current. exists (Some path), g, (mkPath rest V). split; [done|]. split; [done|].
    split; [done|]. split; [done|]. intros p' Hp'.
    destruct (bfs_label _ _ _ _ _ Hinv end_ (length path - 1)) as (_ & _ & Hmin); [left|].
    pose proof (Hmin _ (is_path_reach _ _ _ _ Hwf Hp')).
    pose proof (is_path_nonempty _ _ _ _ Hp'). lia.
  - rewrite on_self_fwd. destruct Hg as (Hg1 & Hg2 & Hg3 & Hg4). rewrite Hg3.
    rewrite path_visit_for_each.
    pose proof (bfs_inv_expand _ _ _ _ current (length path - 1) _ Hinv I) as Hinv'.
    set (new := fresh V (fwd g0 current)) in *.
    pose proof (is_path_nonempty _ _ _ _ Hpath) as Hlen.
    apply IH.
    + eapply same_graph_trans; [|apply same_graph_touch_fwd]. done.
    + apply Forall_app. split.
      { eapply Forall_impl; [exact Hpaths|]. intros x (? & ? & HxV).
        split; [done|]. split; [done|]. intros y Hy. by apply elem_of_union_r, HxV. }
      apply Forall_fmap, Forall_forall.
      intros x [Hx HxV]%elem_of_fresh. simpl. split; [|split].
      * apply is_path_snoc with current; [done|]. by apply (wf_fwd g0 Hwf).
      * apply NoDup_app. split; [done|]. split; [|apply NoDup_singleton].
        intros y Hy Hyx. apply list_elem_of_singleton in Hyx as ->. by apply HxV, HpV.
      * intros y [Hy|Hy]%elem_of_app; [by apply elem_of_union_r, HpV|].
        apply list_elem_of_singleton in Hy as ->.
        by apply elem_of_union_l, elem_of_list_to_set, elem_of_fresh.
    + unfold hop_queue in *. rewrite fmap_app, <- list_fmap_compose.
      replace (_ ++ _) with
        (((λ x, (x.1, length x.2 - 1)) <$> rest) ++ ((λ x, (x, S (length path - 1))) <$> new));
        [done|].
      f_equal. apply list_fmap_ext. intros _ x _. simpl. f_equal.
      rewrite length_app. simpl. lia.
    + intros x Hx HxQ. destruct (decide (x = current)) as [->|Hne]; [done|].
      apply elem_of_union in Hx as [Hx|Hx].
      { exfalso. apply HxQ. rewrite fmap_app, <- list_fmap_compose. apply elem_of_app. right.
        apply elem_of_list_to_set in Hx. apply list_elem_of_fmap. by exists x. }
      apply Hend; [done|]. csimpl. intros [?|HQ]%elem_of_cons; [done|].
      apply HxQ. rewrite fmap_app. apply elem_of_app. by left.
    + unfold new. rewrite size_fresh. rewrite length_app, length_fmap. simpl in Hfuel. lia.
Qed.

(** C7.  On a well-formed graph and with fuel above the number of nodes,
    [get_critical_path start end_] returns [None] exactly when an endpoint
    is not a node or no path leads from [start] to [end_]; a returned list
    is a path from [start] to [end_] that repeats no node and has no more
    hops than any other; from a node to itself it is the one-element
    path. *)
Theorem critical_path_spec (g : Graph) (start end_ : string) (fuel : nat) :
  wf g → length (node_ids g) < fuel →
  ∃ r g', get_critical_path fuel start end_ g = (Ok r, g') ∧ same_graph g g' ∧
    (r = None ↔
     start ∉ node_ids g ∨ end_ ∉ node_ids g ∨ ¬ ∃ p, is_path g start end_ p) ∧
    (∀ p, r = Some p →
       is_path g start end_ p ∧ NoDup p ∧
       ∀ p', is_path g start end_ p' → length p - 1 ≤ length p' - 1) ∧
    (start = end_ → start ∈ node_ids g → r = Some [start]).
Proof.
  intros Hwf Hfuel. unfold get_critical_path, mbind, M_bind, this; simpl.
  destruct (dict_mem start (nodes g)) eqn:Hs; simpl; cycle 1.
  { apply dict_mem_false in Hs. exists None, g. split; [done|].
    split; [apply same_graph_refl|]. split; [split; [by left|done]|]. split; [done|].
    by intros _ ?. }
  destruct (dict_mem end_ (nodes g)) eqn:He; simpl; cycle 1.
  { apply dict_mem_false in He. exists None, g. split; [done|].
    split; [apply same_graph_refl|]. split; [split; [by right; left|done]|]. split; [done|].
    intros <- ?. done. }
  apply dict_mem_true in Hs, He.
  destruct (path_loop_spec g start end_ Hwf Hs fuel g [(start, [start])] {[start]})
    as (r & g' & l' & Hrun & Hg' & Hr).
  { apply same_graph_refl. }
  { apply Forall_singleton. simpl. split; [constructor|]. split; [apply NoDup_singleton|].
    intros y Hy. apply list_elem_of_singleton in Hy as ->. by apply elem_of_singleton. }
  { apply bfs_inv_init. }
  { intros x ->%elem_of_singleton Hx. exfalso. apply Hx. csimpl. left. }
  { rewrite size_singleton. simpl. lia. }
  unfold with_locals. rewrite Hrun. simpl. exists r, g'.
  split; [done|]. split; [done|]. destruct r as [p|].
  - destruct Hr as (Hp & Hnd & Hmin). split; [|split].
    + split; [done|]. intros [?|[?|Hno]]; [done..|]. exfalso. apply Hno. by exists p.
    + intros ? [= <-]. split; [done|]. split; [done|].
      intros p' Hp'. specialize (Hmin p' Hp'). lia.
    + intros <- _. f_equal. apply (is_path_self g start); [done|].
      apply (Hmin [start]). constructor.
  - split; [|split].
    + split; [|done]. intros _. right; right. intros [p Hp]. by apply (Hr p).
    + done.
    + intros <- _. exfalso. apply (Hr [start]). constructor.
Qed.

Lemma critical_path_spec_witness :
  wf scenario_api ∧ length (node_ids scenario_api) < 4 ∧
  ∃ r g', get_critical_path 4 "api" "cache" scenario_api = (Ok r, g') ∧
    same_graph scenario_api g'.
Proof.
  assert (length (node_ids scenario_api) < 4) as Hlen by (vm_compute; lia).
  split; [apply reachable_wf, reachable_scenario_api|]. split; [done|].
  destruct (critical_path_spec scenario_api "api" "cache" 4
              (reachable_wf _ reachable_scenario_api) Hlen)
    as (r & g' & Hrun & Hg' & _).
  by exists r, g'.
Defined.

(** ** Loops that return normally *)

Lemma for_each_ok {S A} (I : list A → S → Prop) (body : A → M S unit) l s :
  I [] s →
  (∀ pre x post s, l = pre ++ x :: post → I pre s →
     ∃ s', body x s = (Ok tt, s') ∧ I (pre ++ [x]) s') →
  ∃ s', for_each l body s = (Ok tt, s') ∧ I l s'.
Proof.
  intros H0 Hstep.
  assert (∀ post pre s, l = pre ++ post → I pre s →
            ∃ s', for_each post body s = (Ok tt, s') ∧ I l s') as Hgen.
  { induction post as [|x post IH]; intros pre s0 Hl Hpre.
    - rewrite app_nil_r in Hl. subst. by exists s0.
    - destruct (Hstep pre x post s0 Hl Hpre) as (s1 & Hrun & Hs1).
      rewrite (for_each_cons_ok _ _ _ _ _ Hrun).
      apply (IH (pre ++ [x])); [|done]. by rewrite <- app_assoc. }
  by apply (Hgen l []).
Qed.

(** ** Paths and closed walks *)

Lemma is_path_walk g u w p : is_path g u w p → walk g (length p - 1) u w.
Proof.
  induction 1 as [u|u x v p Hux Hp IH]; simpl; [constructor|].
  pose proof (is_path_nonempty _ _ _ _ Hp).
  replace (length p - 0) with (S (length p - 1)) by lia.
  by econstructor.
Qed.

Lemma is_path_last g u w p : is_path g u w p → last p = Some w.
Proof.
  induction 1 as [u|u x v p Hux Hp IH]; [done|].
  destruct p; [by inversion Hp|]. done.
Qed.

Lemma is_path_drop g u w p i x :
  is_path g u w p → p !! i = Some x → is_path g x w (drop i p).
Proof.
  intros Hp. revert i. induction Hp as [u|u y v p Huy Hp IH]; intros i Hi.
  - destruct i as [|i]; simpl in Hi; [|by destruct i].
    injection Hi as <-. constructor.
  - destruct i as [|i]; simpl in Hi.
    + injection Hi as <-. by econstructor.
    + simpl. by apply IH.
Qed.

Lemma list_index_Some x l : x ∈ l → ∃ i, list_index x l = Some i ∧ l !! i = Some x.
Proof.
  induction l as [|y l IH]; [by intros ?%elem_of_nil|].
  intros Hx. simpl. case_bool_decide as Hy.
  - subst. by exists 0.
  - apply elem_of_cons in Hx as [->|Hx]; [done|].
    destruct (IH Hx) as (i & -> & Hi). by exists (S i).
Qed.

Lemma closed_walk_not_acyclic g c : acyclic g → ¬ closed_walk g c.
Proof.
  intros Hac (n & Hp & Hlen). apply is_path_walk in Hp.
  apply (Hac (length c - 2) n). by replace (S (length c - 2)) with (length c - 1) by lia.
Qed.

Lemma topo_closed g fin : wf g → topo g fin → ∀ x k y, x ∈ fin → walk g k x y → y ∈ fin.
Proof.
  intros Hwf. induction 1 as [|x0 fin Htopo IH Hx0]; intros x k y Hx Hw.
  { by apply elem_of_nil in Hx. }
  destruct Hw as [x|k x z y Hxz Hzy]; [done|].
  apply elem_of_cons in Hx as [->|Hx].
  - right. apply (IH z k y); [|done]. by apply Hx0, (wf_fwd g Hwf).
  - right. apply (IH x (S k) y); [done|]. by econstructor.
Qed.

Lemma topo_no_cycle g fin : wf g → topo g fin → ∀ x k, x ∈ fin → ¬ walk g (S k) x x.
Proof.
  intros Hwf. induction 1 as [|x0 fin Htopo IH Hx0]; intros x k Hx Hw.
  { by apply elem_of_nil in Hx. }
  assert (x ∈ fin) as Hfin.
  { apply elem_of_cons in Hx as [->|Hx]; [|done].
    inversion Hw as [|? ? z ? Hxz Hzx]; subst.
    apply (topo_closed g fin Hwf Htopo z k x0); [|done]. by apply Hx0, (wf_fwd g Hwf). }
  by apply (IH x k).
Qed.

Lemma topo_acyclic g fin :
  wf g → topo g fin → (∀ x, x ∈ node_ids g → x ∈ fin) → acyclic g.
Proof.
  intros Hwf Htopo Hall k u Hw.
  apply (topo_no_cycle g fin Hwf Htopo u k); [|done].
  apply Hall. by apply walk_nodes in Hw as [? _].
Qed.

(** ** [find_cycles] *)

Lemma dfs_S fuel u g l :
  dfs (S fuel) u (g, l) =
    ((for_each (fwd g u) (dfs_visit (dfs fuel));; path_pop;; rec_stack_remove u) : M _ _)
      (touch_fwd u g,
       mkDfs (cycles l) ({[u]} ∪ visited l) ({[u]} ∪ rec_stack l) (path l ++ [u])).
Proof.
  simpl. unfold mbind at 1 2 3, M_bind at 1 2 3, get_locals, put_locals. simpl.
  by rewrite on_self_fwd.
Qed.

Lemma path_pop_eq g l :
  path l ≠ [] →
  path_pop (g, l) =
    (Ok tt, (g, mkDfs (cycles l) (visited l) (rec_stack l) (removelast (path l)))).
Proof.
  intros Hp. unfold path_pop, mbind, M_bind, get_locals, put_locals. simpl.
  by destruct (path l).
Qed.

Lemma rec_stack_remove_eq g l x :
  x ∈ rec_stack l →
  rec_stack_remove x (g, l) =
    (Ok tt, (g, mkDfs (cycles l) (visited l) (rec_stack l ∖ {[x]}) (path l))).
Proof.
  intros Hx. unfold rec_stack_remove, mbind, M_bind, get_locals, put_locals. simpl.
  by rewrite decide_True.
Qed.

Lemma dfs_visit_new rec y g l : y ∉ visited l → dfs_visit rec y (g, l) = rec y (g, l).
Proof.
  intros Hy. unfold dfs_visit, mbind, M_bind, get_locals. simpl. by rewrite decide_True.
Qed.

Lemma dfs_visit_back rec y g l i :
  y ∈ visited l → y ∈ rec_stack l → list_index y (path l) = Some i →
  dfs_visit rec y (g, l) =
    (Ok tt, (g, mkDfs (cycles l ++ [drop i (path l) ++ [y]]) (visited l) (rec_stack l) (path l))).
Proof.
  intros Hv Hr Hi. unfold dfs_visit, path_index, mbind, M_bind, get_locals, put_locals. simpl.
  rewrite decide_False by (by intros ?). rewrite decide_True by done. simpl. by rewrite Hi.
Qed.

Lemma dfs_visit_done rec y g l :
  y ∈ visited l → y ∉ rec_stack l → dfs_visit rec y (g, l) = (Ok tt, (g, l)).
Proof.
  intros Hv Hr. unfold dfs_visit, mbind, M_bind, get_locals. simpl.
  rewrite decide_False by (by intros ?). by rewrite decide_False.
Qed.

Lemma dfs_post_refl l : dfs_post l l.
Proof. by repeat split. Qed.

Lemma dfs_post_trans l1 l2 l3 : dfs_post l1 l2 → dfs_post l2 l3 → dfs_post l1 l3.
Proof.
  intros (H1 & H2 & H3 & H4) (H1' & H2' & H3' & H4').
  repeat split; [congruence|congruence|set_solver|tauto].
Qed.

Lemma dfs_stack_size g l : wf g → dfs_inv g l → size (rec_stack l) ≤ length (node_ids g).
Proof.
  intros Hwf Hinv. apply size_node_ids; [done|].
  intros v Hv. by apply (di_nodes g l Hinv), (di_visited g l Hinv).
Qed.

Lemma dfs_spec g0 :
  wf g0 →
  ∀ fuel u g l,
    same_graph g0 g → dfs_inv g0 l → u ∉ visited l → u ∈ node_ids g0 →
    (∀ w, last (path l) = Some w → has_edge g0 w u) →
    length (node_ids g0) < fuel + size (rec_stack l) →
    ∃ g' l', dfs fuel u (g, l) = (Ok tt, (g', l')) ∧
      same_graph g0 g' ∧ dfs_inv g0 l' ∧ dfs_post l l' ∧ u ∈ visited l'.
Proof.
  intros Hwf. induction fuel as [|fuel IH]; intros u g l Hg Hinv Hu Hnode Hedge Hfuel.
  { pose proof (dfs_stack_size g0 l Hwf Hinv). lia. }
  rewrite dfs_S. destruct l as [C V R P]. simpl in *.
  assert (u ∉ R) as HuR by (intros ?; by apply Hu, (di_visited _ _ Hinv)).
  assert (u ∉ P) as HuP by (intros ?; by apply HuR, (di_stack _ _ Hinv)).
  set (l1 := mkDfs C ({[u]} ∪ V) ({[u]} ∪ R) (P ++ [u])).
  assert (dfs_inv g0 l1) as Hinv1.
  { split; simpl.
    - intros x. rewrite elem_of_union, elem_of_singleton, elem_of_app, list_elem_of_singleton.
      pose proof (di_stack _ _ Hinv x). simpl in *. tauto.
    - apply NoDup_app. split; [apply Hinv|]. split; [|apply NoDup_singleton].
      intros x Hx ->%list_elem_of_singleton. done.
    - intros x. rewrite !elem_of_union. intros [?|?]; [by left|].
      right. by apply (di_visited _ _ Hinv).
    - intros x [Hx|?]%elem_of_union; [|by apply (di_nodes _ _ Hinv)].
      by apply elem_of_singleton in Hx as ->.
    - intros w Hw. rewrite last_snoc in Hw. injection Hw as <-.
      destruct (last P) as [w|] eqn:Hlast.
      + destruct (di_chain _ _ Hinv w Hlast) as [first Hp]. exists first.
        apply is_path_snoc with w; [done|]. by apply Hedge.
      + apply last_None in Hlast. simpl in Hlast. subst P. exists u. constructor.
    - apply Hinv.
    - intros HC. destruct (di_cert _ _ Hinv HC) as (fin & Htopo & Hnd & Hin & Hfin).
      exists fin. split; [done|]. split; [done|]. simpl in *. split.
      + intros x Hx. destruct (Hin x Hx) as [HxV HxR].
        rewrite !elem_of_union, !elem_of_singleton. split; [by right|].
        intros [->|?]; done.
      + intros x. rewrite !elem_of_union.
        intros [?|Hx]; [by left; left|]. destruct (Hfin x Hx); [left; by right|by right]. }
  destruct Hg as (Hg1 & Hg2 & Hg3 & Hg4). rewrite Hg3.
  destruct (for_each_ok
    (λ pre (s : Graph * dfs_locals),
       same_graph g0 s.1 ∧ dfs_inv g0 s.2 ∧ dfs_post l1 s.2 ∧
       ∀ y, y ∈ pre → y ∈ visited s.2 ∧ (cycles s.2 = [] → y ∉ rec_stack s.2))
    (dfs_visit (dfs fuel)) (fwd g0 u) (touch_fwd u g, l1))
    as ([g2 l2] & Hrun & Hg2' & Hinv2 & Hpost2 & Hdone).
  { simpl. split; [|split; [done|split; [apply dfs_post_refl|]]].
    - eapply same_graph_trans; [|apply same_graph_touch_fwd]. by repeat split.
    - intros y Hy. by apply elem_of_nil in Hy. }
  { intros pre y post [g' l'] Hsplit (Hg' & Hinv' & Hpost' & Hdone). simpl in *.
    destruct Hpost' as (Hpath' & Hstack' & Hvis' & Hcyc').
    assert (y ∈ fwd g0 u) as Hy by (rewrite Hsplit, elem_of_app, elem_of_cons; tauto).
    assert (has_edge g0 u y) as Huy by (by apply (wf_fwd g0 Hwf)).
    assert (last (path l') = Some u) as Hlast by (rewrite Hpath'; simpl; apply last_snoc).
    destruct (decide (y ∈ visited l')) as [Hyv|Hyv].
    - destruct (decide (y ∈ rec_stack l')) as [Hyr|Hyr].
      + destruct (list_index_Some y (path l')) as (i & Hi & Hlook).
        { by apply (di_stack _ _ Hinv'). }
        rewrite (dfs_visit_back _ _ _ _ i) by done.
        eexists (_, _). split; [done|]. simpl. split; [done|]. split; [|split].
        * split; simpl; try apply Hinv'.
          -- apply Forall_app. split; [apply Hinv'|]. apply Forall_singleton.
             destruct (di_chain _ _ Hinv' u Hlast) as [first Hp].
             exists y. split.
             ++ apply is_path_snoc with u; [|done]. by eapply is_path_drop.
             ++ rewrite length_app. simpl.
                assert (1 ≤ length (drop i (path l'))); [|lia].
                eapply is_path_nonempty, is_path_drop; eauto.
          -- intros HC. by destruct (cycles l').
        * repeat split; simpl; try done. intros HC. by destruct (cycles l').
        * intros y' Hy'. split.
          -- apply elem_of_app in Hy' as [Hy'|Hy']; [by apply Hdone|].
             by apply list_elem_of_singleton in Hy' as ->.
          -- intros HC. by destruct (cycles l').
      + rewrite dfs_visit_done by done. eexists (_, _). split; [done|]. simpl.
        split; [done|]. split; [done|]. split; [done|].
        intros y' [Hy'|Hy']%elem_of_app; [by apply Hdone|].
        by apply list_elem_of_singleton in Hy' as ->.
    - rewrite dfs_visit_new by done.
      destruct (IH y g' l') as (g'' & l'' & Hrun & Hg'' & Hinv'' & Hpost'' & Hy'');
        try done.
      { apply has_edge_nodes in Huy as [_ ?]; done. }
      { intros w Hw. rewrite Hlast in Hw. by injection Hw as <-. }
      { rewrite Hstack'. simpl. rewrite size_union by set_solver.
        rewrite size_singleton. lia. }
      eexists (_, _). split; [done|]. simpl. split; [done|]. split; [done|].
      split; [by eapply dfs_post_trans|].
      destruct Hpost'' as (Hpath'' & Hstack'' & Hvis'' & Hcyc'').
      intros y' [Hy'|Hy']%elem_of_app.
      + destruct (Hdone y' Hy') as [? ?]. split; [set_solver|].
        rewrite Hstack''. tauto.
      + apply list_elem_of_singleton in Hy' as ->.
        split; [done|]. intros _. rewrite Hstack''.
        intros ?. by apply Hyv, (di_visited _ _ Hinv'). }
  simpl in *. destruct Hpost2 as (Hpath2 & Hstack2 & Hvis2 & Hcyc2). simpl in *.
  rewrite (bind_ok _ _ _ _ _ Hrun).
  rewrite (bind_ok _ _ _ tt _ (path_pop_eq g2 l2 ltac:(rewrite Hpath2; by destruct P))).
  rewrite rec_stack_remove_eq by (simpl; rewrite Hstack2; set_solver).
  simpl. rewrite Hpath2, Hstack2, removelast_last.
  replace (({[u]} ∪ R) ∖ {[u]}) with R by set_solver.
  eexists _, _. split; [done|]. split; [done|]. split; [|split].
  - split; simpl; try apply Hinv.
    + intros x Hx. apply Hvis2. apply elem_of_union_r. by apply (di_visited _ _ Hinv).
    + apply Hinv2.
    + apply Hinv2.
    + intros HC. destruct (di_cert _ _ Hinv2 HC) as (fin & Htopo & Hnd & Hin & Hfin).
      rewrite Hstack2 in Hfin. exists (u :: fin). split; [|split; [|split]].
      * constructor; [done|]. intros y Hy.
        destruct (Hdone y Hy) as [Hyv Hyr]. specialize (Hyr HC). rewrite Hstack2 in Hyr.
        destruct (Hfin y Hyv); [done|done].
      * apply NoDup_cons. split; [|done]. intros Hx. destruct (Hin u Hx) as [_ Hn].
        apply Hn. rewrite Hstack2. set_solver.
      * intros x [->|Hx]%elem_of_cons.
        -- split; [|done]. apply Hvis2. set_solver.
        -- destruct (Hin x Hx) as [? Hn]. split; [done|]. rewrite Hstack2 in Hn. set_solver.
      * intros x Hx. destruct (Hfin x Hx) as [[Hxu|?]%elem_of_union|?].
        -- apply elem_of_singleton in Hxu as ->. right. left.
        -- by left.
        -- right. by right.
  - repeat split; simpl; [set_solver|done].
  - simpl. apply Hvis2. set_solver.
Qed.

Lemma dfs_root_spec g0 fuel x g l :
  wf g0 → length (node_ids g0) < fuel → x ∈ node_ids g0 →
  same_graph g0 g → dfs_inv g0 l → path l = [] → rec_stack l = ∅ →
  ∃ g' l', dfs_root fuel x (g, l) = (Ok tt, (g', l')) ∧
    same_graph g0 g' ∧ dfs_inv g0 l' ∧ dfs_post l l' ∧ x ∈ visited l'.
Proof.
  intros Hwf Hfuel Hx Hg Hinv Hpath Hstack.
  unfold dfs_root, mbind, M_bind, get_locals. simpl. case_decide as Hv.
  - apply dfs_spec; try done.
    + intros w. by rewrite Hpath.
    + rewrite Hstack, size_empty. lia.
  - exists g, l. split; [done|]. split; [done|]. split; [done|].
    split; [apply dfs_post_refl|]. first [done|by apply dec_stable].
Qed.

Lemma dfs_inv_init g : dfs_inv g (mkDfs [] ∅ ∅ []).
Proof.
  split; simpl.
  - intros x. split; [by intros ?%not_elem_of_empty|by intros ?%elem_of_nil].
  - constructor.
  - by intros x ?%not_elem_of_empty.
  - by intros x ?%not_elem_of_empty.
  - done.
  - constructor.
  - intros _. exists []. split; [constructor|]. split; [constructor|].
    split; by intros x ?%not_elem_of_empty || by intros x ?%elem_of_nil.
Qed.

Lemma find_cycles_spec (g : Graph) (fuel : nat) :
  wf g → length (node_ids g) < fuel →
  ∃ cs g', find_cycles fuel g = (Ok cs, g') ∧ same_graph g g' ∧
    Forall (closed_walk g) cs ∧
    (cs = [] → ∃ fin, topo g fin ∧ NoDup fin ∧ ∀ x, x ∈ node_ids g → x ∈ fin).
Proof.
  intros Hwf Hfuel.
  destruct (for_each_ok
    (λ pre (s : Graph * dfs_locals),
       same_graph g s.1 ∧ dfs_inv g s.2 ∧ path s.2 = [] ∧ rec_stack s.2 = ∅ ∧
       ∀ y, y ∈ pre → y ∈ visited s.2)
    (dfs_root fuel) (node_ids g) (g, mkDfs [] ∅ ∅ []))
    as ([g' l'] & Hrun & Hg' & Hinv' & Hpath' & Hstack' & Hall).
  { simpl. split; [apply same_graph_refl|]. split; [|by split; [|split; [|intros ? ?%elem_of_nil]]].
    apply dfs_inv_init. }
  { intros pre x post [g1 l1] Hsplit (Hg1 & Hinv1 & Hpath1 & Hstack1 & Hpre). simpl in *.
    destruct (dfs_root_spec g fuel x g1 l1) as (g2 & l2 & Hrun & Hg2 & Hinv2 & Hpost & Hx);
      try done.
    { rewrite Hsplit, elem_of_app, elem_of_cons. tauto. }
    destruct Hpost as (Hp & Hs & Hv & _).
    eexists (_, _). split; [done|]. simpl. split; [done|]. split; [done|].
    split; [congruence|]. split; [congruence|].
    intros y [Hy|Hy]%elem_of_app; [by apply Hv, Hpre|].
    by apply list_elem_of_singleton in Hy as ->. }
  simpl in *. unfold find_cycles, with_locals, mbind, M_bind, get_self, get_locals. simpl.
  unfold node_ids in Hrun. rewrite Hrun. simpl.
  exists (cycles l'), g'. split; [done|]. split; [done|]. split; [apply Hinv'|].
  intros HC. destruct (di_cert _ _ Hinv' HC) as (fin & Htopo & Hnd & _ & Hfin).
  exists fin. split; [done|]. split; [done|]. intros x Hx.
  destruct (Hfin x (Hall x Hx)) as [Hr|?]; [|done]. rewrite Hstack' in Hr.
  by apply not_elem_of_empty in Hr.
Qed.

Lemma find_cycles_acyclic (g : Graph) (fuel : nat) cs g' :
  wf g → length (node_ids g) < fuel → find_cycles fuel g = (Ok cs, g') →
  cs = [] ↔ acyclic g.
Proof.
  intros Hwf Hfuel Hrun.
  destruct (find_cycles_spec g fuel Hwf Hfuel) as (cs' & g'' & Hrun' & _ & Hsound & Hcert).
  rewrite Hrun in Hrun'. injection Hrun' as <- <-. split.
  - intros HC. destruct (Hcert HC) as (fin & Htopo & _ & Hall). by eapply topo_acyclic.
  - intros Hac. destruct cs as [|c cs]; [done|].
    apply Forall_cons in Hsound as [Hc _]. by apply closed_walk_not_acyclic in Hc.
Qed.

(** ** [topological_sort] *)

Lemma filter_done_nil (l : list string) :
  List.filter (λ p, bool_decide (p ∉ ([] : list string))) l = l.
Proof.
  induction l as [|p l IH]; [done|]. cbn [List.filter].
  case_bool_decide as Hp; [by rewrite IH|]. by apply elem_of_nil in Hp.
Qed.

Lemma filter_done_snoc_notin (l done : list string) n :
  n ∉ l →
  List.filter (λ p, bool_decide (p ∉ done ++ [n])) l =
    List.filter (λ p, bool_decide (p ∉ done)) l.
Proof.
  induction l as [|p l IH]; [done|].
  intros [Hne Hn]%not_elem_of_cons. cbn [List.filter]. rewrite (IH Hn).
  assert (bool_decide (p ∉ done ++ [n]) = bool_decide (p ∉ done)) as ->; [|done].
  apply bool_decide_ext. rewrite elem_of_app, list_elem_of_singleton. naive_solver.
Qed.

Lemma filter_done_snoc_in (l done : list string) n :
  n ∉ done → n ∈ l → NoDup l →
  length (List.filter (λ p, bool_decide (p ∉ done)) l) =
    S (length (List.filter (λ p, bool_decide (p ∉ done ++ [n])) l)).
Proof.
  intros Hn. induction l as [|p l IH]; [by intros ?%elem_of_nil|].
  intros Hin [Hp Hnd]%NoDup_cons. cbn [List.filter].
  destruct (decide (p = n)) as [->|Hne].
  - rewrite bool_decide_eq_true_2 by done.
    rewrite bool_decide_eq_false_2; cycle 1.
    { intros H. apply H. rewrite elem_of_app, list_elem_of_singleton. by right. }
    simpl. f_equal. by rewrite filter_done_snoc_notin.
  - apply elem_of_cons in Hin as [->|Hin]; [done|].
    assert (bool_decide (p ∉ done ++ [n]) = bool_decide (p ∉ done)) as ->.
    { apply bool_decide_ext. rewrite elem_of_app, list_elem_of_singleton. naive_solver. }
    destruct (bool_decide (p ∉ done)); simpl; rewrite (IH Hin Hnd); done.
Qed.

Lemma pending_nil g v : pending g [] v = length (rev g v).
Proof. unfold pending. by rewrite filter_done_nil. Qed.

Lemma pending_zero g done v : pending g done v = 0 ↔ ∀ p, p ∈ rev g v → p ∈ done.
Proof.
  unfold pending. induction (rev g v) as [|p l IH]; cbn [List.filter].
  - split; [|done]. by intros _ p ?%elem_of_nil.
  - case_bool_decide as Hp; simpl.
    + split; [done|]. intros H. exfalso. apply Hp, H. left.
    + rewrite IH. split.
      * intros H q [->|?]%elem_of_cons; [|by apply H]. first [done|by apply dec_stable].
      * intros H q Hq. apply H. by right.
Qed.

Lemma pending_snoc_notin g done n v :
  n ∉ rev g v → pending g (done ++ [n]) v = pending g done v.
Proof. intros Hn. unfold pending. by rewrite filter_done_snoc_notin. Qed.

Lemma pending_snoc_in g done n v :
  wf g → n ∉ done → n ∈ rev g v → pending g done v = S (pending g (done ++ [n]) v).
Proof.
  intros Hwf Hn Hin. unfold pending. apply filter_done_snoc_in; [done..|]. apply Hwf.
Qed.

(** An insertion-ordered dictionary with distinct keys. *)
Lemma dict_get_elem_of {V} k (v : V) d : NoDup d.*1 → dict_get k d = Some v ↔ (k, v) ∈ d.
Proof.
  induction d as [|[k' v'] d IH]; csimpl.
  - intros _. split; [done|by intros ?%elem_of_nil].
  - intros [Hk Hnd]%NoDup_cons. case_bool_decide as Hkk; subst.
    + split; [intros [= ->]; left|].
      intros [[= ->]|Hin]%elem_of_cons; [done|].
      exfalso. apply Hk. apply list_elem_of_fmap. by exists (k, v).
    + rewrite (IH Hnd). split; [by right|].
      intros [[= -> ->]|Hin]%elem_of_cons; done.
Qed.

Lemma NoDup_filter_keys {V} (P : string * V → bool) d :
  NoDup d.*1 → NoDup (List.filter P d).*1.
Proof.
  induction d as [|[k v] d IH]; csimpl; [done|].
  intros [Hk Hnd]%NoDup_cons. destruct (P (k, v)); csimpl; [|by apply IH].
  apply NoDup_cons. split; [|by apply IH].
  intros ([k' v'] & -> & Hin)%list_elem_of_fmap. apply Hk.
  apply list_elem_of_In, filter_In in Hin as [Hin _]. apply list_elem_of_fmap.
  exists (k', v'). split; [done|]. by apply list_elem_of_In.
Qed.

Lemma kahn_visit_eq x g D Q Res d :
  dict_get x D = Some d →
  kahn_visit x (g, mkKahn D Q Res) =
    (Ok tt, (g, mkKahn (dict_set x (d - 1)%Z D)
                  (if bool_decide (d - 1 = 0)%Z then Q ++ [x] else Q) Res)).
Proof.
  intros Hd. unfold kahn_visit, in_degree_decr, in_degree_getitem.
  unfold mbind, M_bind, get_locals, put_locals, mret, M_ret, raise. simpl.
  rewrite Hd. simpl. rewrite dict_get_set_eq. simpl. by case_bool_decide.
Qed.

Lemma kahn_in_degree_eq x g D Q Res :
  kahn_in_degree x (g, mkKahn D Q Res) =
    (Ok tt, (touch_rev x g, mkKahn (dict_set x (Z.of_nat (length (rev g x))) D) Q Res)).
Proof.
  unfold kahn_in_degree. rewrite (bind_ok _ _ _ _ _ (on_self_rev _ _ _)). done.
Qed.

Lemma kahn_inv_length g l : wf g → kahn_inv g l → length (result l ++ queue l) ≤ length (node_ids g).
Proof.
  intros Hwf Hinv. apply submseteq_length, NoDup_submseteq; [apply Hinv|].
  intros v Hv. by apply (ki_ready _ _ Hinv) in Hv as [? _].
Qed.

Lemma kahn_expand g0 n rest g D Res :
  wf g0 → kahn_inv g0 (mkKahn D (n :: rest) Res) →
  ∃ l', for_each (fwd g0 n) kahn_visit (g, mkKahn D rest (Res ++ [n])) = (Ok tt, (g, l')) ∧
    kahn_inv g0 l' ∧ result l' = Res ++ [n].
Proof.
  intros Hwf Hinv.
  pose proof (ki_nodup _ _ Hinv) as Hnd. simpl in Hnd.
  assert (n ∉ Res) as HnRes.
  { apply NoDup_app in Hnd as (_ & Hdis & _). intros Hn. apply (Hdis n Hn). left. }
  assert (∀ v, v ∈ fwd g0 n ↔ n ∈ rev g0 v) as Hdual.
  { intros v. by rewrite (wf_fwd g0 Hwf), (wf_rev g0 Hwf). }
  assert (∀ v, v ∈ fwd g0 n → v ∈ node_ids g0) as Hnb.
  { intros v Hv. apply (wf_fwd g0 Hwf) in Hv. by apply has_edge_nodes in Hv as [_ ?]. }
  destruct (for_each_ok
    (λ pre (s : Graph * kahn_locals),
       s.1 = g ∧ result s.2 = Res ++ [n] ∧ (in_degree s.2).*1 = node_ids g0 ∧
       (∀ v, v ∈ node_ids g0 →
          dict_get v (in_degree s.2) =
            Some (Z.of_nat (pending g0 Res v) - (if decide (v ∈ pre) then 1 else 0))%Z) ∧
       queue s.2 = rest ++ List.filter (λ v, bool_decide (pending g0 Res v = 1)) pre)
    kahn_visit (fwd g0 n) (g, mkKahn D rest (Res ++ [n])))
    as ([g' l'] & Hrun & Hg' & Hres & Hkeys & Hcount & Hqueue).
  { cbn [fst snd result in_degree queue].
    split; [done|]. split; [done|]. split; [apply Hinv|].
    split; [|cbn [List.filter]; by rewrite app_nil_r].
    intros v Hv. pose proof (ki_count _ _ Hinv v Hv) as Hc. simpl in Hc. rewrite Hc.
    rewrite decide_False by apply not_elem_of_nil. f_equal. lia. }
  { intros pre x post [g1 [D1 Q1 R1]] Hsplit (Hg1 & Hres1 & Hkeys1 & Hcount1 & Hqueue1).
    simpl in *. subst g1 R1 Q1.
    assert (x ∈ fwd g0 n) as Hx by (rewrite Hsplit, elem_of_app, elem_of_cons; tauto).
    assert (x ∉ pre) as Hxpre.
    { pose proof (wf_fwd_set g0 Hwf n) as Hndf. rewrite Hsplit in Hndf.
      apply NoDup_app in Hndf as (_ & Hdis & _). intros Hin. apply (Hdis x Hin). left. }
    pose proof (Hcount1 x (Hnb x Hx)) as Hdx. rewrite decide_False in Hdx by done.
    rewrite (kahn_visit_eq _ _ _ _ _ _ Hdx). eexists (_, _). split; [done|]. simpl.
    split; [done|]. split; [done|]. split; [|split].
    - rewrite dict_set_keys_mem; [done|]. rewrite Hkeys1. by apply Hnb.
    - intros v Hv. destruct (decide (v = x)) as [->|Hne].
      + rewrite dict_get_set_eq.
        rewrite decide_True by (rewrite elem_of_app, list_elem_of_singleton; by right).
        f_equal. lia.
      + rewrite dict_get_set_ne by done. rewrite (Hcount1 v Hv). do 2 f_equal.
        destruct (decide (v ∈ pre)) as [Hvp|Hvp].
        * rewrite decide_True; [done|]. rewrite elem_of_app. by left.
        * rewrite decide_False; [done|].
          rewrite elem_of_app, list_elem_of_singleton. by intros [?|?].
    - rewrite List.filter_app. cbn [List.filter]. rewrite app_assoc.
      repeat case_bool_decide; try lia; [done|by rewrite app_nil_r]. }
  simpl in *. subst g'. exists l'. split; [done|]. split; [|done].
  assert (∀ v, v ∈ fwd g0 n → pending g0 Res v = S (pending g0 (Res ++ [n]) v)) as Hin.
  { intros v Hv. apply pending_snoc_in; [done..|]. by apply Hdual. }
  assert (∀ v, v ∉ fwd g0 n → pending g0 (Res ++ [n]) v = pending g0 Res v) as Hout.
  { intros v Hv. apply pending_snoc_notin. by rewrite <- Hdual. }
  assert (∀ v, v ∈ List.filter (λ v, bool_decide (pending g0 Res v = 1)) (fwd g0 n) ↔
               v ∈ fwd g0 n ∧ pending g0 Res v = 1) as Hnew.
  { intros v. by rewrite list_elem_of_In, filter_In, bool_decide_eq_true, <- list_elem_of_In. }
  assert (∀ v, v ∈ (Res ++ [n]) ++ rest ↔ v ∈ Res ++ n :: rest) as Hold.
  { intros v. rewrite <- app_assoc. done. }
  split.
  - done.
  - intros v Hv. rewrite Hres, (Hcount v Hv). f_equal.
    destruct (decide (v ∈ fwd g0 n)) as [Hvn|Hvn].
    + rewrite (Hin v Hvn). lia.
    + rewrite (Hout v Hvn). lia.
  - rewrite Hres, Hqueue, app_assoc. apply NoDup_app. split; [|split].
    + by rewrite <- app_assoc.
    + intros v Hv%Hold [Hvn Hp]%Hnew.
      apply (ki_ready _ _ Hinv) in Hv as [_ Hz]. simpl in Hz. lia.
    + apply NoDup_ListNoDup, List.NoDup_filter, NoDup_ListNoDup, Hwf.
  - intros v. rewrite Hres, Hqueue, app_assoc, elem_of_app, Hold, Hnew.
    rewrite (ki_ready _ _ Hinv v). simpl. split.
    + intros [[Hv Hz]|[Hvn Hp]].
      * split; [done|]. destruct (decide (v ∈ fwd g0 n)) as [Hvn|Hvn].
        -- rewrite (Hin v Hvn) in Hz. lia.
        -- by rewrite (Hout v Hvn).
      * split; [by apply Hnb|]. rewrite (Hin v Hvn) in Hp. lia.
    + intros [Hv Hz]. destruct (decide (v ∈ fwd g0 n)) as [Hvn|Hvn].
      * right. split; [done|]. rewrite (Hin v Hvn). lia.
      * left. split; [done|]. by rewrite <- (Hout v Hvn).
Qed.

Lemma kahn_loop_spec g0 :
  wf g0 →
  ∀ fuel g l,
    same_graph g0 g → kahn_inv g0 l →
    length (node_ids g0) < fuel + length (result l) →
    ∃ g' l', kahn_loop fuel (g, l) = (Ok tt, (g', l')) ∧
      same_graph g0 g' ∧ kahn_inv g0 l' ∧ queue l' = [].
Proof.
  intros Hwf. induction fuel as [|fuel IH]; intros g l Hg Hinv Hfuel.
  { pose proof (kahn_inv_length g0 l Hwf Hinv) as Hlen. rewrite length_app in Hlen. lia. }
  destruct l as [D Q Res]. destruct Q as [|n rest].
  { exists g, (mkKahn D [] Res). done. }
  simpl. unfold mbind at 1 2 3, M_bind at 1 2 3, get_locals, put_locals. simpl.
  rewrite on_self_fwd. destruct Hg as (Hg1 & Hg2 & Hg3 & Hg4). rewrite Hg3.
  destruct (kahn_expand g0 n rest (touch_fwd n g) D Res Hwf Hinv) as (l' & Hrun & Hinv' & Hres).
  rewrite (bind_ok _ _ _ _ _ Hrun). apply IH.
  - eapply same_graph_trans; [|apply same_graph_touch_fwd]. by repeat split.
  - done.
  - rewrite Hres, length_app. simpl in *. lia.
Qed.

(** With a topological order of all nodes at hand, nothing is left over
    when the queue runs empty. *)
Lemma topo_suffix g pre fin : topo g (pre ++ fin) → topo g fin.
Proof.
  induction pre as [|x pre IH]; [done|]. intros H. inversion H; subst. by apply IH.
Qed.

Lemma kahn_complete g fin Res :
  wf g → topo g fin → NoDup fin → (∀ x, x ∈ node_ids g → x ∈ fin) →
  (∀ v, v ∈ Res ↔ v ∈ node_ids g ∧ pending g Res v = 0) →
  ∀ v, v ∈ node_ids g → v ∈ Res.
Proof.
  intros Hwf Htopo Hnd Hall Hres.
  assert (∀ pre post, fin = pre ++ post → ∀ v, v ∈ pre → v ∈ node_ids g → v ∈ Res) as Hgen.
  { induction pre as [|x pre IH] using rev_ind; intros post Hfin v Hv Hnode.
    { by apply elem_of_nil in Hv. }
    rewrite <- app_assoc in Hfin. simpl in Hfin.
    apply elem_of_app in Hv as [Hv|Hv]; [by apply (IH (x :: post))|].
    apply list_elem_of_singleton in Hv as ->.
    apply Hres. split; [done|]. apply pending_zero. intros p Hp.
    apply (wf_rev g Hwf) in Hp.
    pose proof (has_edge_nodes g p x Hwf Hp) as [Hpn _].
    pose proof (Hall p Hpn) as Hpf. rewrite Hfin in Hpf.
    apply elem_of_app in Hpf as [Hpf|Hpf]; [by apply (IH (x :: post))|].
    exfalso. rewrite Hfin in Htopo, Hnd.
    apply topo_suffix in Htopo. apply NoDup_app in Hnd as (_ & _ & Hnd).
    apply NoDup_cons in Hnd as [Hx _].
    inversion Htopo as [|? ? Htopo' Hx']; subst.
    apply elem_of_cons in Hpf as [->|Hpf].
    - apply Hx, Hx'. by apply (wf_fwd g Hwf).
    - apply Hx. apply (topo_closed g post Hwf Htopo' p 1 x Hpf).
      econstructor; [done|constructor]. }
  intros v Hv. apply (Hgen fin []); [by rewrite app_nil_r|by apply Hall|done].
Qed.

Lemma kahn_init g0 g :
  wf g0 → same_graph g0 g →
  ∃ g' D, for_each (node_ids g0) kahn_in_degree (g, mkKahn [] [] []) =
            (Ok tt, (g', mkKahn D [] [])) ∧
    same_graph g0 g' ∧ D.*1 = node_ids g0 ∧
    ∀ v, v ∈ node_ids g0 → dict_get v D = Some (Z.of_nat (length (rev g0 v))).
Proof.
  intros Hwf Hg.
  destruct (for_each_ok
    (λ pre (s : Graph * kahn_locals),
       same_graph g0 s.1 ∧ queue s.2 = [] ∧ result s.2 = [] ∧ (in_degree s.2).*1 = pre ∧
       ∀ v, v ∈ pre → dict_get v (in_degree s.2) = Some (Z.of_nat (length (rev g0 v))))
    kahn_in_degree (node_ids g0) (g, mkKahn [] [] []))
    as ([g' [D Q R]] & Hrun & Hg' & HQ & HR & Hkeys & Hvals).
  { cbn [fst snd queue result in_degree].
    split; [done|]. split; [done|]. split; [done|]. split; [done|].
    intros v Hv. by apply elem_of_nil in Hv. }
  { intros pre x post [g1 [D1 Q1 R1]] Hsplit (Hg1 & HQ1 & HR1 & Hkeys1 & Hvals1).
    simpl in *. subst Q1 R1.
    assert (x ∉ pre) as Hxpre.
    { pose proof (wf_ids g0 Hwf) as Hnd. rewrite Hsplit in Hnd.
      apply NoDup_app in Hnd as (_ & Hdis & _). intros Hin. apply (Hdis x Hin). left. }
    rewrite kahn_in_degree_eq. eexists (_, _). split; [done|]. simpl.
    split; [|split; [done|split; [done|split]]].
    - eapply same_graph_trans; [done|apply same_graph_touch_rev].
    - rewrite dict_set_keys_fresh; [by rewrite Hkeys1|by rewrite Hkeys1].
    - destruct Hg1 as (_ & _ & _ & Hrev). rewrite Hrev.
      intros v [Hv|Hv]%elem_of_app.
      + rewrite dict_get_set_ne; [by apply Hvals1|]. by intros ->.
      + apply list_elem_of_singleton in Hv as ->. apply dict_get_set_eq. }
  simpl in *. subst Q R. by exists g', D.
Qed.

Lemma kahn_inv_start g D :
  wf g → D.*1 = node_ids g →
  (∀ v, v ∈ node_ids g → dict_get v D = Some (Z.of_nat (length (rev g v)))) →
  kahn_inv g (mkKahn D (List.filter (λ kv, bool_decide (kv.2 = 0%Z)) D).*1 []).
Proof.
  intros Hwf Hkeys Hvals.
  assert (NoDup D.*1) as Hnd by (rewrite Hkeys; apply Hwf).
  split; simpl.
  - done.
  - intros v Hv. rewrite pending_nil. by apply Hvals.
  - by apply NoDup_filter_keys.
  - intros v. rewrite pending_nil. rewrite list_elem_of_fmap. split.
    + intros ([k d] & -> & Hin). apply list_elem_of_In, filter_In in Hin as [Hin Hd].
      apply bool_decide_eq_true in Hd. simpl in *. subst d.
      apply list_elem_of_In in Hin.
      assert (k ∈ node_ids g) as Hk.
      { rewrite <- Hkeys. apply list_elem_of_fmap. by exists (k, 0%Z). }
      split; [done|]. apply dict_get_elem_of in Hin; [|done].
      rewrite (Hvals k Hk) in Hin. injection Hin. lia.
    + intros [Hv Hz]. exists (v, 0%Z). split; [done|].
      apply list_elem_of_In, filter_In. split; [|by apply bool_decide_eq_true].
      apply list_elem_of_In, dict_get_elem_of; [done|]. rewrite (Hvals v Hv), Hz. done.
Qed.

(** C1.  On a well-formed graph (every graph built by [add_node] and
    [add_edge] is one) and with fuel above the number of nodes, both
    [find_cycles] and [topological_sort] return; [find_cycles] returns the
    empty list exactly when [topological_sort] returns a permutation of the
    node ids, and [topological_sort] returns [None] when [find_cycles] is
    not empty. *)
Theorem topological_sort_spec (g : Graph) (fuel : nat) :
  wf g → length (node_ids g) < fuel →
  ∃ cs g1 r g2,
    find_cycles fuel g = (Ok cs, g1) ∧ topological_sort fuel g = (Ok r, g2) ∧
    same_graph g g2 ∧
    (cs = [] ↔ ∃ l, r = Some l ∧ l ≡ₚ node_ids g) ∧
    (cs ≠ [] → r = None).
Proof.
  intros Hwf Hfuel.
  destruct (find_cycles_spec g fuel Hwf Hfuel) as (cs & g1 & Hrun & Hg1 & Hsound & Hcert).
  exists cs, g1. unfold topological_sort. rewrite (bind_ok _ _ _ _ _ Hrun).
  destruct cs as [|c cs]; cycle 1.
  { rewrite bool_decide_eq_true_2 by done. exists None, g1.
    split; [done|]. split; [done|]. split; [done|]. split; [|done].
    split; [done|]. by intros (l & ? & _). }
  rewrite bool_decide_eq_false_2 by (by intros ?).
  destruct (Hcert eq_refl) as (fin & Htopo & Hnd & Hall).
  destruct (kahn_init g g1 Hwf Hg1) as (g2 & D & Hinit & Hg2 & Hkeys & Hvals).
  pose proof (kahn_inv_start g D Hwf Hkeys Hvals) as Hinv.
  destruct (kahn_loop_spec g Hwf fuel g2 _ Hg2 Hinv) as (g3 & l3 & Hloop & Hg3 & Hinv3 & Hq3).
  { simpl. lia. }
  assert (result l3 ≡ₚ node_ids g) as Hperm.
  { pose proof (ki_nodup _ _ Hinv3) as Hnd3. pose proof (ki_ready _ _ Hinv3) as Hready.
    rewrite Hq3, app_nil_r in Hnd3.
    assert (∀ v, v ∈ result l3 ↔ v ∈ node_ids g ∧ pending g (result l3) v = 0) as Hres.
    { intros v. rewrite <- Hready, Hq3, app_nil_r. done. }
    apply NoDup_Permutation; [done|apply Hwf|].
    intros v. split; [by intros [? _]%Hres|]. by apply (kahn_complete g fin). }
  unfold with_locals, mbind, M_bind, get_self, get_locals, put_locals, mret, M_ret. simpl.
  destruct Hg1 as (Hn1 & _). rewrite Hn1. fold (node_ids g). rewrite Hinit. simpl.
  rewrite Hloop. simpl. destruct Hg3 as (Hn3 & He3 & Hf3 & Hr3). rewrite Hn3.
  rewrite bool_decide_eq_true_2; cycle 1.
  { rewrite (Permutation_length Hperm). unfold node_ids. by rewrite length_fmap. }
  eexists _, _. split; [done|]. split; [done|]. split; [by repeat split|].
  split; [|done]. split; [|done]. intros _. by exists (result l3).
Qed.

Lemma topological_sort_spec_witness :
  wf scenario_api ∧ length (node_ids scenario_api) < 4 ∧
  ∃ cs g1 r g2,
    find_cycles 4 scenario_api = (Ok cs, g1) ∧ topological_sort 4 scenario_api = (Ok r, g2) ∧
    (cs = [] ↔ ∃ l, r = Some l ∧ l ≡ₚ node_ids scenario_api).
Proof.
  assert (length (node_ids scenario_api) < 4) as Hlen by (vm_compute; lia).
  split; [apply reachable_wf, reachable_scenario_api|]. split; [done|].
  destruct (topological_sort_spec scenario_api 4
              (reachable_wf _ reachable_scenario_api) Hlen)
    as (cs & g1 & r & g2 & H1 & H2 & _ & H3 & _).
  exists cs, g1, r, g2. split; [exact H1|]. split; [exact H2|exact H3].
Defined.

(** ** The queries keep the graph *)

Lemma keeps_ret {L A} (a : A) : keeps (mret a : M (Graph * L) A).
Proof. intros s. apply same_graph_refl. Qed.

Lemma keeps_raise {L A} e : keeps (raise e : M (Graph * L) A).
Proof. intros s. apply same_graph_refl. Qed.

Lemma keeps_out_of_fuel {L A} : keeps (out_of_fuel : M (Graph * L) A).
Proof. intros s. apply same_graph_refl. Qed.

Lemma keeps_get_locals {L} : keeps (get_locals : M (Graph * L) L).
Proof. intros s. apply same_graph_refl. Qed.

Lemma keeps_get_self {L} : keeps (get_self : M (Graph * L) Graph).
Proof. intros s. apply same_graph_refl. Qed.

Lemma keeps_put_locals {L} (l : L) : keeps (put_locals l).
Proof. intros s. apply same_graph_refl. Qed.

Lemma keeps_bind {L A B} (m : M (Graph * L) A) (f : A → M (Graph * L) B) :
  keeps m → (∀ a, keeps (f a)) → keeps (m ≫= f).
Proof.
  intros Hm Hf s. unfold mbind, M_bind. specialize (Hm s).
  destruct (m s) as [[a|e|] s']; simpl in *; [|done..].
  eapply same_graph_trans; [done|apply Hf].
Qed.

Lemma keeps_for_each {L A} (l : list A) (body : A → M (Graph * L) unit) :
  (∀ x, keeps (body x)) → keeps (for_each l body).
Proof.
  intros Hbody. induction l as [|x l IH]; simpl.
  - apply keeps_ret.
  - apply keeps_bind; [apply Hbody|]. by intros _.
Qed.

Lemma keeps_self_ret {A} (a : A) : keeps_self (mret a : M Graph A).
Proof. intros s. apply same_graph_refl. Qed.

Lemma keeps_self_bind {A B} (m : M Graph A) (f : A → M Graph B) :
  keeps_self m → (∀ a, keeps_self (f a)) → keeps_self (m ≫= f).
Proof.
  intros Hm Hf s. unfold mbind, M_bind. specialize (Hm s).
  destruct (m s) as [[a|e|] s']; simpl in *; [|done..].
  eapply same_graph_trans; [done|apply Hf].
Qed.

Lemma keeps_on_self {L A} (m : M Graph A) : keeps_self m → keeps (on_self m : M (Graph * L) A).
Proof.
  intros Hm [g l]. unfold on_self. simpl. specialize (Hm g). by destruct (m g).
Qed.

Lemma keeps_with_locals {L A} (l0 : L) (m : M (Graph * L) A) :
  keeps m → keeps_self (with_locals l0 m).
Proof.
  intros Hm g. unfold with_locals. specialize (Hm (g, l0)). by destruct (m (g, l0)).
Qed.

Lemma keeps_adjacency_getitem u : keeps_self (adjacency_getitem u).
Proof. intros g. rewrite adjacency_getitem_eq. apply same_graph_touch_fwd. Qed.

Lemma keeps_reverse_adjacency_getitem u : keeps_self (reverse_adjacency_getitem u).
Proof. intros g. rewrite reverse_adjacency_getitem_eq. apply same_graph_touch_rev. Qed.

Ltac keeps_step :=
  first
    [ assumption
    | apply keeps_ret | apply keeps_raise | apply keeps_out_of_fuel
    | apply keeps_get_locals | apply keeps_get_self | apply keeps_put_locals
    | apply keeps_on_self, keeps_adjacency_getitem
    | apply keeps_on_self, keeps_reverse_adjacency_getitem
    | apply keeps_for_each; intros ?
    | apply keeps_bind; [|intros ?]
    | match goal with
      | H : ∀ x, keeps (_ x) |- keeps (_ _) => apply H
      | |- keeps (if ?b then _ else _) => destruct b
      | |- keeps (match ?x with _ => _ end) => destruct x
      end ].

Lemma keeps_dfs_visit rec y : (∀ x, keeps (rec x)) → keeps (dfs_visit rec y).
Proof.
  intros Hrec. unfold dfs_visit, path_index. repeat keeps_step.
Qed.

Lemma keeps_dfs fuel u : keeps (dfs fuel u).
Proof.
  revert u. induction fuel as [|fuel IH]; intros u; simpl; [apply keeps_out_of_fuel|].
  pose proof (λ y, keeps_dfs_visit (dfs fuel) y IH) as Hvisit.
  unfold path_pop, rec_stack_remove. repeat keeps_step.
Qed.

Lemma keeps_find_cycles fuel : keeps_self (find_cycles fuel).
Proof.
  unfold find_cycles. apply keeps_with_locals.
  pose proof (keeps_dfs fuel) as Hdfs.
  assert (∀ x, keeps (dfs_root fuel x)) as Hroot.
  { intros x. unfold dfs_root. repeat keeps_step. }
  repeat keeps_step.
Qed.

Lemma keeps_validate fuel : keeps_self (validate fuel).
Proof.
  unfold validate. apply keeps_with_locals.
  assert (∀ x, keeps (validate_edge x)) as Hedge.
  { intros x. unfold validate_edge. repeat keeps_step. }
  assert (∀ x, keeps (validate_cycle x)) as Hcycle.
  { intros x. unfold validate_cycle. repeat keeps_step. }
  pose proof (keeps_on_self (L:=list string) _ (keeps_find_cycles fuel)) as Hfc.
  repeat keeps_step.
Qed.

Lemma keeps_kahn_loop fuel : keeps (kahn_loop fuel).
Proof.
  assert (∀ x, keeps (kahn_visit x)) as Hvisit.
  { intros x. unfold kahn_visit, in_degree_decr, in_degree_getitem. repeat keeps_step. }
  induction fuel as [|fuel IH]; simpl; [apply keeps_out_of_fuel|].
  repeat keeps_step.
Qed.

Lemma keeps_topological_sort fuel : keeps_self (topological_sort fuel).
Proof.
  unfold topological_sort. apply keeps_self_bind; [apply keeps_find_cycles|].
  intros cs. case_bool_decide; [apply keeps_self_ret|].
  apply keeps_with_locals.
  assert (∀ x, keeps (kahn_in_degree x)) as Hdeg.
  { intros x. unfold kahn_in_degree. repeat keeps_step. }
  pose proof (keeps_kahn_loop fuel) as Hloop.
  repeat keeps_step.
Qed.

Lemma keeps_impact_loop fuel M : keeps (impact_loop fuel M).
Proof.
  assert (∀ d x, keeps (impact_visit d x)) as Hvisit.
  { intros d x. unfold impact_visit. repeat keeps_step. }
  induction fuel as [|fuel IH]; simpl; [apply keeps_out_of_fuel|].
  repeat first [apply keeps_for_each; intros ?; apply Hvisit | keeps_step].
Qed.

Lemma keeps_get_impact_radius fuel nid M : keeps_self (get_impact_radius fuel nid M).
Proof.
  unfold get_impact_radius. apply keeps_self_bind; [intros g; apply same_graph_refl|].
  intros self. destruct (negb _); [apply keeps_self_ret|].
  apply keeps_with_locals. pose proof (keeps_impact_loop fuel M) as Hloop.
  repeat keeps_step.
Qed.

Lemma keeps_path_loop fuel end_ : keeps (path_loop fuel end_).
Proof.
  assert (∀ p x, keeps (path_visit p x)) as Hvisit.
  { intros p x. unfold path_visit. repeat keeps_step. }
  induction fuel as [|fuel IH]; simpl; [apply keeps_out_of_fuel|].
  repeat first [apply keeps_for_each; intros ?; apply Hvisit | keeps_step].
Qed.

Lemma keeps_get_critical_path fuel start end_ : keeps_self (get_critical_path fuel start end_).
Proof.
  unfold get_critical_path. apply keeps_self_bind; [intros g; apply same_graph_refl|].
  intros self. destruct (_ || _); [apply keeps_self_ret|].
  apply keeps_with_locals, keeps_path_loop.
Qed.

(** C10.  No query changes the nodes, the edges, or the set stored for any
    id in either index, whatever its arguments, the fuel and the outcome:
    [get_node], [get_dependencies] and [get_dependents] leave the state as
    it is, and the others leave a state equal to it up to keys of the
    indexes bound to the empty set. *)
Theorem queries_keep_graph (g : Graph) (fuel : nat) (a b : string) (M : option Z) :
  (get_node a g).2 = g ∧ (get_dependencies a g).2 = g ∧ (get_dependents a g).2 = g ∧
  (∀ g', g' ∈ [(validate fuel g).2; (find_cycles fuel g).2; (topological_sort fuel g).2;
               (get_impact_radius fuel a M g).2; (get_critical_path fuel a b g).2] →
     nodes g' = nodes g ∧ edges g' = edges g ∧
     (∀ s t, t ∈ fwd g' s ↔ t ∈ fwd g s) ∧ (∀ s t, s ∈ rev g' t ↔ s ∈ rev g t)).
Proof.
  split; [done|]. split; [done|]. split; [done|].
  assert (∀ g', same_graph g g' →
    nodes g' = nodes g ∧ edges g' = edges g ∧
    (∀ s t, t ∈ fwd g' s ↔ t ∈ fwd g s) ∧ (∀ s t, s ∈ rev g' t ↔ s ∈ rev g t)) as Hsame.
  { intros g' (Hn & He & Hf & Hr). split; [done|]. split; [done|].
    split; intros s t; [by rewrite Hf|by rewrite Hr]. }
  intros g' Hg'. apply Hsame.
  apply elem_of_cons in Hg' as [->|Hg']; [apply keeps_validate|].
  apply elem_of_cons in Hg' as [->|Hg']; [apply keeps_find_cycles|].
  apply elem_of_cons in Hg' as [->|Hg']; [apply keeps_topological_sort|].
  apply elem_of_cons in Hg' as [->|Hg']; [apply keeps_get_impact_radius|].
  apply elem_of_cons in Hg' as [->|Hg']; [apply keeps_get_critical_path|].
  by apply elem_of_nil in Hg'.
Qed.

(** The state itself does change: a read of a missing key of an index
    binds it to the empty set. *)
Lemma queries_touch_index :
  _adjacency scenario_api !! "db" = None ∧
  _adjacency (find_cycles 4 scenario_api).2 !! "db" = Some [].
Proof. split; vm_compute; reflexivity. Qed.

(** ** [validate] *)

Lemma validate_edge_for_each g es errors :
  for_each es validate_edge (g, errors) =
    (Ok tt, (g, errors ++ concat (edge_errors g <$> es))).
Proof.
  revert errors. induction es as [|e es IH]; intros errors.
  - simpl. by rewrite app_nil_r.
  - assert (validate_edge e (g, errors) = (Ok tt, (g, errors ++ edge_errors g e))) as Hstep
      by done.
    rewrite (for_each_cons_ok _ _ _ _ _ Hstep), IH. csimpl. by rewrite app_assoc.
Qed.

Lemma validate_cycle_for_each (g : Graph) cs errors :
  for_each cs validate_cycle (g, errors) = (Ok tt, (g, errors ++ (cycle_error <$> cs))).
Proof.
  revert errors. induction cs as [|c cs IH]; intros errors.
  - simpl. by rewrite app_nil_r.
  - assert (validate_cycle c (g, errors) = (Ok tt, (g, errors ++ [cycle_error c]))) as Hstep
      by done.
    rewrite (for_each_cons_ok _ _ _ _ _ Hstep), IH. csimpl. by rewrite <- app_assoc.
Qed.

Lemma validate_eq g fuel cs g1 :
  find_cycles fuel g = (Ok cs, g1) →
  validate fuel g = (Ok (concat (edge_errors g <$> edges g) ++ (cycle_error <$> cs)), g1).
Proof.
  intros Hrun. unfold validate, with_locals.
  unfold mbind at 1 2, M_bind at 1 2, get_self. cbn [fst snd].
  rewrite validate_edge_for_each. cbn [app].
  unfold mbind at 1, M_bind at 1, on_self. cbn [fst snd]. rewrite Hrun.
  unfold mbind, M_bind, get_locals. case_bool_decide as Hcs.
  - by rewrite validate_cycle_for_each.
  - assert (cs = []) as -> by (by destruct cs). simpl. by rewrite app_nil_r.
Qed.

Lemma edge_errors_nil g e :
  edge_errors g e = [] ↔ source e ∈ node_ids g ∧ target e ∈ node_ids g.
Proof.
  unfold edge_errors, dict_mem, node_ids.
  repeat case_bool_decide; simpl; split; try done; tauto.
Qed.

Lemma concat_edge_errors_nil g es :
  concat (edge_errors g <$> es) = [] ↔
  ∀ e, e ∈ es → source e ∈ node_ids g ∧ target e ∈ node_ids g.
Proof.
  induction es as [|e es IH]; csimpl.
  - split; [|done]. by intros _ e ?%elem_of_nil.
  - split.
    + intros [He Hes]%app_eq_nil e' [->|Hin]%elem_of_cons.
      * by apply edge_errors_nil.
      * by apply IH.
    + intros H. rewrite (proj2 (edge_errors_nil g e)) by (apply H; left).
      apply IH. intros e' He'. apply H. by right.
Qed.

(** ** [find_cycles] returns on every state *)

Lemma fwd_univ g u v : v ∈ fwd g u → v ∈ univ g.
Proof.
  unfold fwd, dd_get, univ. destruct (_adjacency g !! u) as [l|] eqn:E; simpl.
  - intros Hv. apply elem_of_union_r, elem_of_list_to_set, list_elem_of_In, in_concat.
    exists l. split; [|by apply list_elem_of_In].
    apply list_elem_of_In, list_elem_of_fmap. exists (u, l). split; [done|].
    by apply elem_of_map_to_list.
  - by intros ?%elem_of_nil.
Qed.

Lemma univ_wf g : wf g → size (univ g) = length (node_ids g).
Proof.
  intros Hwf. rewrite <- (size_list_to_set (C:=gset string) (node_ids g)) by apply Hwf.
  f_equal. apply set_eq. intros v. unfold univ. rewrite elem_of_union. split; [|by left].
  intros [?|Hv]; [done|]. apply elem_of_list_to_set.
  apply elem_of_list_to_set, list_elem_of_In, in_concat in Hv as (l & Hl & Hv).
  apply list_elem_of_In, list_elem_of_fmap in Hl as ([u l'] & -> & Hul).
  apply elem_of_map_to_list in Hul. simpl in *.
  assert (v ∈ fwd g u) as Hf.
  { unfold fwd, dd_get. rewrite Hul. simpl. by apply list_elem_of_In. }
  apply (wf_fwd g Hwf) in Hf. by apply has_edge_nodes in Hf as [_ ?].
Qed.

Lemma dfs_returns g0 fuel :
  ∀ u g l,
    same_graph g0 g → dfs_stack_inv (univ g0) l → u ∉ visited l → u ∈ univ g0 →
    size (univ g0) < fuel + size (rec_stack l) →
    ∃ g' l', dfs fuel u (g, l) = (Ok tt, (g', l')) ∧
      same_graph g0 g' ∧ dfs_stack_inv (univ g0) l' ∧
      path l' = path l ∧ rec_stack l' = rec_stack l ∧ {[u]} ∪ visited l ⊆ visited l'.
Proof.
  induction fuel as [|fuel IH]; intros u g l Hg Hinv Hu HuU Hfuel.
  { pose proof (subseteq_size (rec_stack l) (univ g0)) as Hsize.
    assert (rec_stack l ⊆ univ g0) as Hsub.
    { etrans; [apply (ds_visited _ _ Hinv)|apply (ds_univ _ _ Hinv)]. }
    specialize (Hsize Hsub). lia. }
  rewrite dfs_S. destruct l as [C V R P]. destruct Hinv as [Hst Hvis Huniv]. simpl in *.
  assert (u ∉ R) as HuR by set_solver.
  set (l1 := mkDfs C ({[u]} ∪ V) ({[u]} ∪ R) (P ++ [u])).
  destruct Hg as (Hg1 & Hg2 & Hg3 & Hg4). rewrite Hg3.
  destruct (for_each_ok
    (λ (_ : list string) (s : Graph * dfs_locals),
       same_graph g0 s.1 ∧ dfs_stack_inv (univ g0) s.2 ∧
       path s.2 = path l1 ∧ rec_stack s.2 = rec_stack l1 ∧ visited l1 ⊆ visited s.2)
    (dfs_visit (dfs fuel)) (fwd g0 u) (touch_fwd u g, l1))
    as ([g2 l2] & Hrun & Hg2' & Hinv2 & Hpath2 & Hstack2 & Hvis2).
  { cbn [fst snd]. split; [|split; [|done]].
    - eapply same_graph_trans; [|apply same_graph_touch_fwd]. by repeat split.
    - split; simpl.
      + intros x. rewrite elem_of_union, elem_of_singleton, elem_of_app,
          list_elem_of_singleton, Hst. tauto.
      + set_solver.
      + set_solver. }
  { intros pre y post [g' l'] Hsplit (Hg' & Hinv' & Hpath' & Hstack' & Hvis').
    cbn [fst snd] in *.
    assert (y ∈ univ g0) as HyU.
    { apply (fwd_univ g0 u). rewrite Hsplit, elem_of_app, elem_of_cons. tauto. }
    destruct (decide (y ∈ visited l')) as [Hyv|Hyv].
    - destruct (decide (y ∈ rec_stack l')) as [Hyr|Hyr].
      + destruct (list_index_Some y (path l')) as (i & Hi & _).
        { by apply (ds_stack _ _ Hinv'). }
        rewrite (dfs_visit_back _ _ _ _ i) by done.
        eexists (_, _). split; [done|]. cbn [fst snd path rec_stack visited].
        split; [done|]. split; [|done]. by destruct Hinv'.
      + rewrite dfs_visit_done by done. eexists (_, _). split; [done|]. done.
    - rewrite dfs_visit_new by done.
      destruct (IH y g' l') as (g'' & l'' & Hrun & Hg'' & Hinv'' & Hp'' & Hs'' & Hv'');
        try done.
      { rewrite Hstack'. simpl. rewrite size_union by set_solver.
        rewrite size_singleton. lia. }
      eexists (_, _). split; [done|]. cbn [fst snd].
      split; [done|]. split; [done|]. split; [congruence|]. split; [congruence|].
      set_solver. }
  cbn [fst snd] in *. simpl in Hpath2, Hstack2, Hvis2.
  rewrite (bind_ok _ _ _ _ _ Hrun).
  rewrite (bind_ok _ _ _ tt _ (path_pop_eq g2 l2 ltac:(rewrite Hpath2; by destruct P))).
  rewrite rec_stack_remove_eq by (simpl; rewrite Hstack2; set_solver).
  simpl. rewrite Hpath2, Hstack2, removelast_last.
  replace (({[u]} ∪ R) ∖ {[u]}) with R by set_solver.
  eexists _, _. split; [done|]. split; [done|]. split; [|done].
  split; simpl; [done| |apply Hinv2].
  etrans; [apply Hvis|]. etrans; [|apply Hvis2]. set_solver.
Qed.

Lemma find_cycles_returns (g : Graph) (fuel : nat) :
  size (univ g) < fuel → ∃ cs g', find_cycles fuel g = (Ok cs, g').
Proof.
  intros Hfuel.
  destruct (for_each_ok
    (λ (_ : list string) (s : Graph * dfs_locals),
       same_graph g s.1 ∧ dfs_stack_inv (univ g) s.2 ∧ path s.2 = [] ∧ rec_stack s.2 = ∅)
    (dfs_root fuel) (node_ids g) (g, mkDfs [] ∅ ∅ []))
    as ([g' l'] & Hrun & _).
  { cbn [fst snd]. split; [apply same_graph_refl|]. split; [|done].
    split; simpl; [|done|set_solver].
    intros x. split; [by intros ?%not_elem_of_empty|by intros ?%elem_of_nil]. }
  { intros pre x post [g1 l1] Hsplit (Hg1 & Hinv1 & Hpath1 & Hstack1). cbn [fst snd] in *.
    unfold dfs_root, mbind, M_bind, get_locals. cbn [fst snd]. case_decide as Hv.
    - destruct (dfs_returns g fuel x g1 l1) as (g2 & l2 & Hrun & Hg2 & Hinv2 & Hp & Hs & _);
        try done.
      { apply elem_of_union_l, elem_of_list_to_set.
        rewrite Hsplit, elem_of_app, elem_of_cons. tauto. }
      { rewrite Hstack1, size_empty. lia. }
      eexists (_, _). split; [done|]. cbn [fst snd]. split; [done|]. split; [done|].
      split; congruence.
    - eexists (_, _). split; [done|]. done. }
  unfold find_cycles, with_locals, mbind, M_bind, get_self, get_locals. cbn [fst snd].
  unfold node_ids in Hrun. rewrite Hrun. by eexists _, _.
Qed.

(** C8, as the code has it.  With fuel above the number of ids in the
    graph, on any state, cycle detection and [validate] return, and
    [validate] returns, for each edge in turn, one entry for its source if
    that is not a node and one for its target if that is not a node, and
    then one entry per detected cycle, joined by " -> ".  The list is not
    empty when some edge has an unknown endpoint; on a well-formed graph it
    is empty exactly when no edge has an unknown endpoint and the graph has
    no closed walk.  For the nodes a, b, c with edges a→b, b→c, c→a,
    [find_cycles] returns the cycle a, b, c, a, [validate] reports it and
    [topological_sort] returns [None]. *)
Theorem validate_spec (g : Graph) (fuel : nat) :
  size (univ g) < fuel →
  (∃ cs g1,
     find_cycles fuel g = (Ok cs, g1) ∧
     validate fuel g =
       (Ok (concat (edge_errors g <$> edges g) ++ (cycle_error <$> cs)), g1) ∧
     ((∃ e, e ∈ edges g ∧ (source e ∉ node_ids g ∨ target e ∉ node_ids g)) →
      concat (edge_errors g <$> edges g) ++ (cycle_error <$> cs) ≠ []) ∧
     (wf g →
      (concat (edge_errors g <$> edges g) ++ (cycle_error <$> cs) = [] ↔
       (∀ e, e ∈ edges g → source e ∈ node_ids g ∧ target e ∈ node_ids g) ∧ acyclic g))) ∧
  (∀ e, edge_errors g e =
     (if bool_decide (source e ∈ node_ids g) then []
      else ["Edge references non-existent source node: " +:+ source e]) ++
     (if bool_decide (target e ∈ node_ids g) then []
      else ["Edge references non-existent target node: " +:+ target e])) ∧
  (∀ c, cycle_error c = "Cycle detected: " +:+ join " -> " c) ∧
  (find_cycles 4 scenario_cycle).1 = Ok [["a"; "b"; "c"; "a"]] ∧
  (validate 4 scenario_cycle).1 = Ok ["Cycle detected: a -> b -> c -> a"] ∧
  (topological_sort 4 scenario_cycle).1 = Ok None.
Proof.
  intros Hfuel. split; [|split; [|split; [done|]]]; cycle 1.
  { intros e. unfold edge_errors, dict_mem, node_ids. by repeat case_bool_decide. }
  { split; [|split]; vm_compute; reflexivity. }
  destruct (find_cycles_returns g fuel Hfuel) as (cs & g1 & Hrun).
  exists cs, g1. split; [done|]. split; [by apply validate_eq|]. split.
  - intros (e & He & Hmiss) [Hnil _]%app_eq_nil.
    destruct (proj1 (concat_edge_errors_nil g (edges g)) Hnil e He). tauto.
  - intros Hwf. rewrite (univ_wf g Hwf) in Hfuel.
    pose proof (find_cycles_acyclic g fuel cs g1 Hwf Hfuel Hrun) as Hac. split.
    + intros [Hnil Hcs]%app_eq_nil. split; [by apply concat_edge_errors_nil|].
      apply Hac. by destruct cs.
    + intros [Hdang Hacyc]. apply Hac in Hacyc. subst cs.
      by rewrite (proj2 (concat_edge_errors_nil g (edges g)) Hdang).
Qed.

Lemma validate_spec_witness :
  size (univ scenario_cycle) < 4 ∧
  ∃ cs g1,
    find_cycles 4 scenario_cycle = (Ok cs, g1) ∧
    validate 4 scenario_cycle =
      (Ok (concat (edge_errors scenario_cycle <$> edges scenario_cycle) ++
           (cycle_error <$> cs)), g1).
Proof.
  assert (size (univ scenario_cycle) < 4) as Hfuel.
  { rewrite (univ_wf _ (reachable_wf _ reachable_scenario_cycle)). vm_compute. lia. }
  split; [exact Hfuel|].
  destruct (validate_spec scenario_cycle 4 Hfuel) as [(cs & g1 & H1 & H2 & _) _].
  exists cs, g1. split; [exact H1|exact H2].
Defined.

(** C8 as the spec words it fails: an edge with both endpoints unknown gets
    two entries, so the entries are not one per edge with an unknown
    endpoint plus one per cycle. *)
Lemma validate_counterexample :
  ∃ errs cs,
    (validate 3 dangling_edge).1 = Ok errs ∧ (find_cycles 3 dangling_edge).1 = Ok cs ∧
    length errs ≠
      length (List.filter (λ e, negb (dict_mem (source e) (nodes dangling_edge)) ||
                                negb (dict_mem (target e) (nodes dangling_edge)))
                (edges dangling_edge)) + length cs.
Proof.
  exists ["Edge references non-existent source node: x";
          "Edge references non-existent target node: y"], [].
  split; [vm_compute; reflexivity|]. split; [vm_compute; reflexivity|].
  vm_compute. lia.
Qed.

(** * Further properties of the graph operations *)

(** ** Insertion and lookup *)

Lemma get_node_None g k : (get_node k g).1 = Ok None ↔ k ∉ node_ids g.
Proof.
  unfold get_node, node_ids. simpl. rewrite <- dict_get_Some_mem. split.
  - intros [= H]. rewrite H. by intros [? ?].
  - intros H. f_equal. destruct (dict_get k (nodes g)); [|done]. exfalso. apply H. eauto.
Qed.

Lemma dict_get_app_fresh {V} k k' (v : V) d :
  dict_get k (d ++ [(k', v)]) =
    match dict_get k d with
    | Some x => Some x
    | None => if bool_decide (k' = k) then Some v else None
    end.
Proof.
  induction d as [|[k0 v0] d IH]; simpl.
  - by destruct (bool_decide (k' = k)).
  - destruct (bool_decide (k0 = k)); [done|apply IH].
Qed.

(** X1.  [add_node] of a node whose id is new returns normally; the node is
    appended to the node dictionary, [get_node] then finds it under its id
    and finds every other id as before, and edges and indexes are as they
    were. *)
Theorem add_node_get_node (g : Graph) (node : Node) :
  id node ∉ node_ids g →
  ∃ g', add_node node g = (Ok tt, g') ∧
    node_ids g' = node_ids g ++ [id node] ∧
    (get_node (id node) g').1 = Ok (Some node) ∧
    (∀ k, k ≠ id node → (get_node k g').1 = (get_node k g).1) ∧
    edges g' = edges g ∧ _adjacency g' = _adjacency g ∧
    _reverse_adjacency g' = _reverse_adjacency g ∧ _dirty g' = true.
Proof.
  intros Hfresh. rewrite add_node_fresh by done. eexists. split; [done|].
  unfold get_node, node_ids. simpl. split; [by rewrite fmap_app|].
  split; [|split; [|done]].
  - rewrite dict_get_app_fresh.
    destruct (dict_get (id node) (nodes g)) eqn:E.
    + exfalso. apply Hfresh. apply dict_get_Some_mem. eauto.
    + by rewrite bool_decide_eq_true_2.
  - intros k Hk. rewrite dict_get_app_fresh.
    destruct (dict_get k (nodes g)); [done|]. by rewrite bool_decide_eq_false_2.
Qed.

Lemma add_node_get_node_witness :
  ("queue" ∉ node_ids scenario_api) ∧
  ∃ g', add_node (mkNode "queue" (TEnum QUEUE) ∅) scenario_api = (Ok tt, g') ∧
    (get_node "queue" g').1 = Ok (Some (mkNode "queue" (TEnum QUEUE) ∅)).
Proof.
  assert ("queue" ∉ node_ids scenario_api) as Hfresh by (eapply bool_decide_unpack; vm_compute; exact I).
  split; [exact Hfresh|].
  destruct (add_node_get_node scenario_api (mkNode "queue" (TEnum QUEUE) ∅) Hfresh)
    as (g' & H1 & _ & H2 & _).
  exists g'. split; [exact H1|exact H2].
Defined.

(** X2.  [add_edge] of an edge between two nodes that are not yet linked
    returns normally: the edge joins [edges], its target joins the
    dependencies of its source and its source the dependents of its target,
    and nothing else changes in either index or in the nodes. *)
Theorem add_edge_links (g : Graph) (edge : Edge) :
  source edge ∈ node_ids g → target edge ∈ node_ids g →
  ¬ has_edge g (source edge) (target edge) →
  ∃ g', add_edge edge g = (Ok tt, g') ∧
    nodes g' = nodes g ∧ edges g' = edges g ++ [edge] ∧
    edge_count g' = S (edge_count g) ∧ _dirty g' = true ∧
    (∀ s ds ds', (get_dependencies s g).1 = Ok ds → (get_dependencies s g').1 = Ok ds' →
       ∀ t, t ∈ ds' ↔ t ∈ ds ∨ (s = source edge ∧ t = target edge)) ∧
    (∀ t ds ds', (get_dependents t g).1 = Ok ds → (get_dependents t g').1 = Ok ds' →
       ∀ s, s ∈ ds' ↔ s ∈ ds ∨ (s = source edge ∧ t = target edge)).
Proof.
  intros Hs Ht Hnew.
  assert (edge_in edge (edges g) = false) as Hin.
  { destruct (edge_in edge (edges g)) eqn:E; [|done]. exfalso. apply Hnew.
    apply edge_in_true in E as (e' & ? & ? & ?). by exists e'. }
  assert (_dirty (add_edge edge g).2 = true) as Hdirty.
  { unfold add_edge.
    rewrite (proj2 (dict_mem_true _ _) Hs), (proj2 (dict_mem_true _ _) Ht), Hin. simpl.
    by destruct (dd_getitem _ _), (dd_getitem _ _). }
  destruct (add_edge_new edge g Hs Ht Hin) as (g' & Hrun & Hn & He & Hf & Hr).
  rewrite Hrun in Hdirty. exists g'. split; [done|]. split; [done|]. split; [done|].
  split; [unfold edge_count; rewrite He, length_app; simpl; lia|]. split; [done|]. split.
  - intros s ds ds' [= <-] [= <-] t.
    change (t ∈ fwd g' s ↔ t ∈ fwd g s ∨ s = source edge ∧ t = target edge).
    rewrite (Hf s). case_decide; subst; [rewrite elem_of_set_add|]; naive_solver.
  - intros t ds ds' [= <-] [= <-] s.
    change (s ∈ rev g' t ↔ s ∈ rev g t ∨ s = source edge ∧ t = target edge).
    rewrite (Hr t). case_decide; subst; [rewrite elem_of_set_add|]; naive_solver.
Qed.

Lemma add_edge_links_witness :
  ("db" ∈ node_ids scenario_api) ∧ ("cache" ∈ node_ids scenario_api) ∧
  ¬ has_edge scenario_api "db" "cache" ∧
  ∃ g', add_edge (mkEdge "db" "cache" ∅) scenario_api = (Ok tt, g') ∧
    edge_count g' = S (edge_count scenario_api).
Proof.
  assert ("db" ∈ node_ids scenario_api) as Hs by (eapply bool_decide_unpack; vm_compute; exact I).
  assert ("cache" ∈ node_ids scenario_api) as Ht by (eapply bool_decide_unpack; vm_compute; exact I).
  assert (¬ has_edge scenario_api "db" "cache") as Hnew.
  { intros (e & He & H1 & H2). vm_compute in He.
    repeat (apply elem_of_cons in He as [->|He]; [done|]). by apply elem_of_nil in He. }
  split; [exact Hs|]. split; [exact Ht|]. split; [exact Hnew|].
  destruct (add_edge_links scenario_api (mkEdge "db" "cache" ∅) Hs Ht Hnew)
    as (g' & H1 & _ & _ & H2 & _).
  exists g'. split; [exact H1|exact H2].
Defined.

Lemma Node_post_init_Ok n0 n :
  Node_post_init n0 = Ok n → id n = id n0 ∧ id n ≠ "" ∧ ∃ t, type n = TEnum t.
Proof.
  unfold Node_post_init. case_bool_decide as Hid; [done|].
  destruct (type n0) as [s|t] eqn:Ht.
  - destruct (NodeType_of_value (lower s)); [|case_bool_decide];
      intros Hn; injection Hn as Hn; subst n; simpl; eauto.
  - intros Hn; injection Hn as Hn; subst n. rewrite Ht. eauto.
Qed.

(** X3.  In a graph built by [add_node] and [add_edge], [get_node] returns
    [None] exactly for the ids that are not nodes, and a node it returns
    has the id asked for, which is not empty, and a kind that is a member of
    the enumeration. *)
Theorem get_node_reachable (g : Graph) (k : string) :
  reachable g →
  ((get_node k g).1 = Ok None ↔ k ∉ node_ids g) ∧
  ∀ n, (get_node k g).1 = Ok (Some n) → id n = k ∧ k ≠ "" ∧ ∃ t, type n = TEnum t.
Proof.
  intros Hreach. split; [apply get_node_None|].
  induction Hreach as [|n0 n' g Hg IH Hinit|e0 e g Hg IH Hinit]; intros n.
  - done.
  - destruct (decide (id n' ∈ node_ids g)) as [Hin|Hin].
    + rewrite add_node_dup by done. apply IH.
    + rewrite add_node_fresh by done. unfold get_node. simpl.
      rewrite dict_get_app_fresh. destruct (dict_get k (nodes g)) eqn:E.
      * intros [= <-]. apply IH. unfold get_node. simpl. by rewrite E.
      * case_bool_decide as Hk; [|done]. intros [= <-].
        destruct (Node_post_init_Ok _ _ Hinit) as (_ & ? & ?). subst k. done.
  - assert (nodes (add_edge e g).2 = nodes g) as Hn.
    { unfold add_edge. do 2 (destruct (negb _); [done|]).
      destruct (negb _); [|done].
      destruct (dd_getitem (_adjacency g) _), (dd_getitem (_reverse_adjacency g) _). done. }
    unfold get_node in *. simpl in *. rewrite Hn. apply IH.
Qed.

Lemma get_node_reachable_witness :
  reachable scenario_api ∧
  ∀ n, (get_node "db" scenario_api).1 = Ok (Some n) → id n = "db".
Proof.
  split; [apply reachable_scenario_api|].
  intros n Hn.
  exact (proj1 (proj2 (get_node_reachable scenario_api "db" reachable_scenario_api) n Hn)).
Defined.
(** ** The order of [topological_sort] *)

Lemma kahn_loop_ordered g0 :
  wf g0 →
  ∀ fuel g l,
    same_graph g0 g → kahn_inv g0 l →
    (∀ r1 v r2, result l = r1 ++ v :: r2 → ∀ p, p ∈ rev g0 v → p ∈ r1) →
    length (node_ids g0) < fuel + length (result l) →
    ∃ g' l', kahn_loop fuel (g, l) = (Ok tt, (g', l')) ∧
      same_graph g0 g' ∧ kahn_inv g0 l' ∧ queue l' = [] ∧
      ∀ r1 v r2, result l' = r1 ++ v :: r2 → ∀ p, p ∈ rev g0 v → p ∈ r1.
Proof.
  intros Hwf. induction fuel as [|fuel IH]; intros g l Hg Hinv Hord Hfuel.
  { pose proof (kahn_inv_length g0 l Hwf Hinv) as Hlen. rewrite length_app in Hlen. lia. }
  destruct l as [D Q Res]. destruct Q as [|n rest].
  { exists g, (mkKahn D [] Res). done. }
  simpl. unfold mbind at 1 2 3, M_bind at 1 2 3, get_locals, put_locals. simpl.
  rewrite on_self_fwd. destruct Hg as (Hg1 & Hg2 & Hg3 & Hg4). rewrite Hg3.
  destruct (kahn_expand g0 n rest (touch_fwd n g) D Res Hwf Hinv) as (l' & Hrun & Hinv' & Hres).
  rewrite (bind_ok _ _ _ _ _ Hrun). apply IH.
  - eapply same_graph_trans; [|apply same_graph_touch_fwd]. by repeat split.
  - done.
  - rewrite Hres. intros r1 v r2 Heq p Hp. simpl in Hord.
    destruct r2 as [|x r2 _] using rev_ind.
    + apply (app_inj_tail Res r1 n v) in Heq as [HR Hn]. subst r1 v.
      assert (n ∈ Res ++ n :: rest) as Hn by (apply elem_of_app; right; left).
      apply (ki_ready _ _ Hinv) in Hn as [_ Hz]. simpl in Hz.
      by apply (proj1 (pending_zero g0 Res n) Hz).
    + change (r1 ++ v :: r2 ++ [x]) with (r1 ++ (v :: r2) ++ [x]) in Heq.
      rewrite app_assoc in Heq. apply app_inj_tail in Heq as [Heq _].
      by apply (Hord r1 v r2).
  - rewrite Hres, length_app. simpl in *. lia.
Qed.

Lemma topological_sort_char (g : Graph) (fuel : nat) :
  wf g → length (node_ids g) < fuel →
  ∃ cs g1 r g2,
    find_cycles fuel g = (Ok cs, g1) ∧ topological_sort fuel g = (Ok r, g2) ∧
    (cs ≠ [] → r = None) ∧
    (cs = [] → ∃ l, r = Some l ∧ l ≡ₚ node_ids g ∧
       ∀ r1 v r2, l = r1 ++ v :: r2 → ∀ p, p ∈ rev g v → p ∈ r1).
Proof.
  intros Hwf Hfuel.
  destruct (find_cycles_spec g fuel Hwf Hfuel) as (cs & g1 & Hrun & Hg1 & Hsound & Hcert).
  exists cs, g1. unfold topological_sort. rewrite (bind_ok _ _ _ _ _ Hrun).
  destruct cs as [|c cs]; cycle 1.
  { rewrite bool_decide_eq_true_2 by done. by exists None, g1. }
  rewrite bool_decide_eq_false_2 by (by intros ?).
  destruct (Hcert eq_refl) as (fin & Htopo & Hnd & Hall).
  destruct (kahn_init g g1 Hwf Hg1) as (g2 & D & Hinit & Hg2 & Hkeys & Hvals).
  pose proof (kahn_inv_start g D Hwf Hkeys Hvals) as Hinv.
  destruct (kahn_loop_ordered g Hwf fuel g2 _ Hg2 Hinv)
    as (g3 & l3 & Hloop & Hg3 & Hinv3 & Hq3 & Hord).
  { simpl. intros r1 v r2 Heq. by destruct r1. }
  { simpl. lia. }
  assert (∀ v, v ∈ result l3 ↔ v ∈ node_ids g ∧ pending g (result l3) v = 0) as Hres.
  { intros v. rewrite <- (ki_ready _ _ Hinv3), Hq3, app_nil_r. done. }
  assert (result l3 ≡ₚ node_ids g) as Hperm.
  { pose proof (ki_nodup _ _ Hinv3) as Hnd3. rewrite Hq3, app_nil_r in Hnd3.
    apply NoDup_Permutation; [done|apply Hwf|].
    intros v. split; [by intros [? _]%Hres|]. by apply (kahn_complete g fin). }
  unfold with_locals, mbind, M_bind, get_self, get_locals, put_locals, mret, M_ret. simpl.
  destruct Hg1 as (Hn1 & _). rewrite Hn1. fold (node_ids g). rewrite Hinit. simpl.
  rewrite Hloop. simpl. destruct Hg3 as (Hn3 & _). rewrite Hn3.
  rewrite bool_decide_eq_true_2; cycle 1.
  { rewrite (Permutation_length Hperm). unfold node_ids. by rewrite length_fmap. }
  eexists _, _. split; [done|]. split; [done|]. split; [done|].
  intros _. by exists (result l3).
Qed.

(** X4.  On a well-formed graph and with fuel above the number of nodes, a
    list returned by [topological_sort] holds the source of every edge
    before its target: dependents come before what they depend on. *)
Theorem topological_sort_order (g : Graph) (fuel : nat) :
  wf g → length (node_ids g) < fuel →
  ∃ r g', topological_sort fuel g = (Ok r, g') ∧
    ∀ l, r = Some l →
      ∀ s t, has_edge g s t → ∃ l1 l2 l3, l = l1 ++ s :: l2 ++ t :: l3.
Proof.
  intros Hwf Hfuel.
  destruct (topological_sort_char g fuel Hwf Hfuel)
    as (cs & g1 & r & g2 & _ & Hrun & Hcyc & Hord).
  exists r, g2. split; [done|]. intros l -> s t Hst.
  destruct cs as [|c cs]; [|by specialize (Hcyc ltac:(done))].
  destruct (Hord eq_refl) as (l' & [= <-] & Hperm & Hpre).
  pose proof (has_edge_nodes g s t Hwf Hst) as [_ Ht].
  rewrite <- Hperm in Ht.
  apply list_elem_of_split in Ht as (r1 & l3 & Heq).
  assert (s ∈ r1) as Hs by (apply (Hpre r1 t l3 Heq), (wf_rev g Hwf), Hst).
  apply list_elem_of_split in Hs as (l1 & l2 & ->).
  exists l1, l2, l3. by rewrite Heq, <- app_assoc.
Qed.

Lemma topological_sort_order_witness :
  wf scenario_api ∧ length (node_ids scenario_api) < 4 ∧
  ∃ r g', topological_sort 4 scenario_api = (Ok r, g') ∧
    ∀ l, r = Some l →
      ∀ s t, has_edge scenario_api s t → ∃ l1 l2 l3, l = l1 ++ s :: l2 ++ t :: l3.
Proof.
  assert (length (node_ids scenario_api) < 4) as Hlen by (vm_compute; lia).
  split; [apply reachable_wf, reachable_scenario_api|]. split; [done|].
  exact (topological_sort_order scenario_api 4
           (reachable_wf _ reachable_scenario_api) Hlen).
Defined.
(** ** What [find_cycles] reports *)

Lemma is_path_head g u w p : is_path g u w p → head p = Some u.
Proof. by destruct 1. Qed.

Lemma is_path_nodes g u w p :
  wf g → is_path g u w p → 2 ≤ length p → ∀ x, x ∈ p → x ∈ node_ids g.
Proof.
  intros Hwf. induction 1 as [u|u v w p Huv Hp IH]; simpl; intros Hlen x Hx; [lia|].
  pose proof (has_edge_nodes g u v Hwf Huv) as [Hu Hv].
  apply elem_of_cons in Hx as [->|Hx]; [done|].
  destruct Hp as [v|v y w p Hvy Hp]; [by apply list_elem_of_singleton in Hx as ->|].
  apply IH; [simpl; pose proof (is_path_nonempty _ _ _ _ Hp); lia|done].
Qed.

(** X5.  On a well-formed graph and with fuel above the number of nodes,
    [find_cycles] returns; every list it reports begins and ends with the
    same node, has at least three entries, all of them nodes, and each entry
    has an edge to the next; and it reports nothing exactly when the graph
    has no closed walk. *)
Theorem find_cycles_sound (g : Graph) (fuel : nat) :
  wf g → length (node_ids g) < fuel →
  ∃ cs g', find_cycles fuel g = (Ok cs, g') ∧
    (cs = [] ↔ acyclic g) ∧
    ∀ c, c ∈ cs →
      ∃ n, head c = Some n ∧ last c = Some n ∧ is_path g n n c ∧ 3 ≤ length c ∧
           ∀ x, x ∈ c → x ∈ node_ids g.
Proof.
  intros Hwf Hfuel.
  destruct (find_cycles_spec g fuel Hwf Hfuel) as (cs & g' & Hrun & _ & Hsound & _).
  exists cs, g'. split; [done|]. split; [by eapply find_cycles_acyclic|].
  intros c Hc. rewrite Forall_forall in Hsound.
  destruct (Hsound c Hc) as (n & Hp & Hlen). exists n.
  split; [by eapply is_path_head|]. split; [by eapply is_path_last|]. split; [done|].
  split; [|by eapply is_path_nodes].
  destruct c as [|x [|y [|z c]]]; simpl in *; try lia.
  exfalso. inversion Hp as [|? ? ? ? Hnv Hp']; subst.
  inversion Hp' as [|? ? ? ? ? Hp'']; subst; [|inversion Hp''].
  destruct Hnv as (e & He & Hs & Ht). destruct (wf_I3 g Hwf e He). congruence.
Qed.

Lemma find_cycles_sound_witness :
  wf scenario_cycle ∧ length (node_ids scenario_cycle) < 4 ∧
  ∃ cs g', find_cycles 4 scenario_cycle = (Ok cs, g') ∧ (cs = [] ↔ acyclic scenario_cycle).
Proof.
  assert (length (node_ids scenario_cycle) < 4) as Hlen by (vm_compute; lia).
  split; [apply reachable_wf, reachable_scenario_cycle|]. split; [done|].
  destruct (find_cycles_sound scenario_cycle 4
              (reachable_wf _ reachable_scenario_cycle) Hlen) as (cs & g' & H1 & H2 & _).
  exists cs, g'. split; [exact H1|exact H2].
Defined.

(** ** The breadth-first queries and the direct neighbours *)

(** X6.  With depth bound 1, [get_impact_radius] returns the direct
    dependents: the set of [get_dependents], and the nodes whose
    [get_dependencies] hold the node. *)
Theorem impact_radius_one (g : Graph) (nid : string) (fuel : nat) :
  wf g → length (node_ids g) < fuel →
  ∃ r g', get_impact_radius fuel nid (Some 1%Z) g = (Ok r, g') ∧
    (∀ ds, (get_dependents nid g).1 = Ok ds → ∀ u, u ∈ r ↔ u ∈ ds) ∧
    (∀ u ds, (get_dependencies u g).1 = Ok ds → u ∈ r ↔ nid ∈ ds).
Proof.
  intros Hwf Hfuel.
  destruct (impact_radius_char g nid (Some 1%Z) fuel Hwf Hfuel) as (r & g' & Hrun & _ & Hr).
  exists r, g'. split; [done|].
  assert (∀ u, u ∈ r ↔ has_edge g u nid) as Hedge.
  { intros u. rewrite Hr. split.
    - intros (Hne & k & Hw & Hk).
      destruct Hw as [|k u v w Huv Hw]; [done|].
      destruct Hw as [|k v x w Hvx Hw]; [done|lia].
    - intros He. split.
      + destruct He as (e & He & <- & <-). by apply (wf_I3 g Hwf).
      + exists 1. split; [|lia]. econstructor; [done|constructor]. }
  split.
  - intros ds [= <-] u. rewrite Hedge. symmetry. apply (wf_rev g Hwf).
  - intros u ds [= <-]. rewrite Hedge. symmetry. apply (wf_fwd g Hwf).
Qed.

Lemma impact_radius_one_witness :
  wf scenario_api ∧ length (node_ids scenario_api) < 4 ∧
  ∃ r g', get_impact_radius 4 "db" (Some 1%Z) scenario_api = (Ok r, g') ∧
    ∀ ds, (get_dependents "db" scenario_api).1 = Ok ds → ∀ u, u ∈ r ↔ u ∈ ds.
Proof.
  assert (length (node_ids scenario_api) < 4) as Hlen by (vm_compute; lia).
  split; [apply reachable_wf, reachable_scenario_api|]. split; [done|].
  destruct (impact_radius_one scenario_api "db" 4
              (reachable_wf _ reachable_scenario_api) Hlen) as (r & g' & H1 & H2 & _).
  exists r, g'. split; [exact H1|exact H2].
Defined.

Lemma walk_is_path g k u w : walk g k u w → ∃ p, is_path g u w p ∧ length p = S k.
Proof.
  induction 1 as [u|k u v w Huv Hw (p & Hp & Hlen)].
  - exists [u]. split; [constructor|done].
  - exists (u :: p). split; [by econstructor|]. simpl. by rewrite Hlen.
Qed.

Lemma walk_app g k1 k2 u v w : walk g k1 u v → walk g k2 v w → walk g (k1 + k2) u w.
Proof.
  induction 1 as [u|k u x v Hux Hxv IH]; intros Hvw; [done|].
  simpl. econstructor; [done|]. by apply IH.
Qed.

Lemma critical_path_char (g : Graph) (start end_ : string) (fuel : nat) :
  wf g → length (node_ids g) < fuel →
  ∃ r g', get_critical_path fuel start end_ g = (Ok r, g') ∧ same_graph g g' ∧
    match r with
    | Some p => is_path g start end_ p ∧ NoDup p ∧
                ∀ p', is_path g start end_ p' → length p ≤ length p'
    | None => start ∉ node_ids g ∨ end_ ∉ node_ids g ∨ ∀ p', ¬ is_path g start end_ p'
    end.
Proof.
  intros Hwf Hfuel. unfold get_critical_path, mbind, M_bind, this; simpl.
  destruct (dict_mem start (nodes g)) eqn:Hs; simpl; cycle 1.
  { apply dict_mem_false in Hs. exists None, g. split; [done|].
    split; [apply same_graph_refl|]. by left. }
  destruct (dict_mem end_ (nodes g)) eqn:He; simpl; cycle 1.
  { apply dict_mem_false in He. exists None, g. split; [done|].
    split; [apply same_graph_refl|]. by right; left. }
  apply dict_mem_true in Hs, He.
  destruct (path_loop_spec g start end_ Hwf Hs fuel g [(start, [start])] {[start]})
    as (r & g' & l' & Hrun & Hg' & Hr).
  { apply same_graph_refl. }
  { apply Forall_singleton. simpl. split; [constructor|]. split; [apply NoDup_singleton|].
    intros y Hy. apply list_elem_of_singleton in Hy as ->. by apply elem_of_singleton. }
  { apply bfs_inv_init. }
  { intros x ->%elem_of_singleton Hx. exfalso. apply Hx. csimpl. left. }
  { rewrite size_singleton. simpl. lia. }
  unfold with_locals. rewrite Hrun. simpl. exists r, g'.
  split; [done|]. split; [done|]. destruct r as [p|]; [done|]. by right; right.
Qed.

(** X7.  For two different ids [a] and [b] of a well-formed graph,
    [get_critical_path a b] returns a path exactly when [a] is in the
    impact radius of [b], and the number of hops of that path is the least
    depth bound under which [get_impact_radius b] holds [a]. *)
Theorem critical_path_impact_radius (g : Graph) (a b : string) (fuel : nat) :
  wf g → length (node_ids g) < fuel → a ≠ b →
  ∃ p g1 r g2,
    get_critical_path fuel a b g = (Ok p, g1) ∧
    get_impact_radius fuel b None g = (Ok r, g2) ∧
    (is_Some p ↔ a ∈ r) ∧
    ∀ l m r' g3,
      p = Some l → get_impact_radius fuel b (Some m) g = (Ok r', g3) →
      a ∈ r' ↔ (Z.of_nat (length l - 1) ≤ m)%Z.
Proof.
  intros Hwf Hfuel Hab.
  destruct (critical_path_char g a b fuel Hwf Hfuel) as (p & g1 & Hp & _ & Hpath).
  destruct (impact_radius_char g b None fuel Hwf Hfuel) as (r & g2 & Hr & _ & Hrad).
  exists p, g1, r, g2. split; [done|]. split; [done|]. split.
  - rewrite Hrad. destruct p as [l|].
    + destruct Hpath as (Hl & _). split; [|by eauto].
      intros _. split; [done|]. exists (length l - 1). split; [|done]. by apply is_path_walk.
    + split; [by intros [? ?]|]. intros (_ & k & Hw & _). exfalso.
      destruct k as [|k]; [by inversion Hw|].
      pose proof (walk_nodes g k a b Hwf Hw) as [Ha Hb].
      apply walk_is_path in Hw as (p' & Hp' & _).
      destruct Hpath as [?|[?|Hno]]; [done..|]. by apply (Hno p').
  - intros l m r' g3 -> Hr'. destruct Hpath as (Hl & _ & Hmin).
    destruct (impact_radius_char g b (Some m) fuel Hwf Hfuel) as (r1 & g4 & Hr1 & _ & Hrad1).
    rewrite Hr' in Hr1. injection Hr1 as <- <-. rewrite Hrad1. split.
    + intros (_ & k & Hw & Hk). apply walk_is_path in Hw as (p' & Hp' & Hlen').
      specialize (Hmin p' Hp'). lia.
    + intros Hm. split; [done|]. exists (length l - 1). split; [|done]. by apply is_path_walk.
Qed.

Lemma critical_path_impact_radius_witness :
  wf scenario_api ∧ length (node_ids scenario_api) < 4 ∧ "api" ≠ "db" ∧
  ∃ p g1 r g2,
    get_critical_path 4 "api" "db" scenario_api = (Ok p, g1) ∧
    get_impact_radius 4 "db" None scenario_api = (Ok r, g2) ∧
    (is_Some p ↔ "api" ∈ r).
Proof.
  assert (length (node_ids scenario_api) < 4) as Hlen by (vm_compute; lia).
  assert ("api" ≠ "db") as Hne by discriminate.
  split; [apply reachable_wf, reachable_scenario_api|]. split; [done|]. split; [done|].
  destruct (critical_path_impact_radius scenario_api "api" "db" 4
              (reachable_wf _ reachable_scenario_api) Hlen Hne)
    as (p & g1 & r & g2 & H1 & H2 & H3 & _).
  exists p, g1, r, g2. split; [exact H1|]. split; [exact H2|exact H3].
Defined.

(** X8.  In a well-formed graph in which [find_cycles] reports nothing, no
    two nodes are in each other's impact radius, and the impact radius is
    transitive: a node in the radius of a node in the radius of [w] is in
    the radius of [w]. *)
Theorem impact_radius_order (g : Graph) (fuel : nat) (u v w : string) :
  wf g → length (node_ids g) < fuel →
  (find_cycles fuel g).1 = Ok [] →
  ∃ ru rv rw,
    (get_impact_radius fuel u None g).1 = Ok ru ∧
    (get_impact_radius fuel v None g).1 = Ok rv ∧
    (get_impact_radius fuel w None g).1 = Ok rw ∧
    (u ∈ rv → v ∉ ru) ∧
    (u ∈ rv → v ∈ rw → u ∈ rw).
Proof.
  intros Hwf Hfuel Hcs.
  assert (acyclic g) as Hac.
  { destruct (find_cycles fuel g) as [cs g'] eqn:Hrun. simpl in Hcs. subst cs.
    by apply (find_cycles_acyclic g fuel [] g' Hwf Hfuel Hrun). }
  destruct (impact_radius_char g u None fuel Hwf Hfuel) as (ru & gu & Hu & _ & Hru).
  destruct (impact_radius_char g v None fuel Hwf Hfuel) as (rv & gv & Hv & _ & Hrv).
  destruct (impact_radius_char g w None fuel Hwf Hfuel) as (rw & gw & Hw & _ & Hrw).
  exists ru, rv, rw. rewrite Hu, Hv, Hw. do 3 (split; [done|]).
  split.
  - intros (Hne & k1 & H1 & _)%Hrv (_ & k2 & H2 & _)%Hru.
    destruct k1 as [|k1]; [by inversion H1|].
    apply (Hac (k1 + k2) u). apply (walk_app g (S k1) k2 u v u H1 H2).
  - intros (Hne & k1 & H1 & _)%Hrv (Hne' & k2 & H2 & _)%Hrw.
    destruct k1 as [|k1]; [by inversion H1|]. apply Hrw.
    split; [|exists (S k1 + k2); split; [by eapply walk_app|done]].
    intros ->. apply (Hac (k1 + k2) v). rewrite Nat.add_comm.
    replace (S (k2 + k1)) with (k2 + S k1) by lia. by eapply walk_app.
Qed.

Lemma impact_radius_order_witness :
  wf scenario_api ∧ length (node_ids scenario_api) < 4 ∧
  (find_cycles 4 scenario_api).1 = Ok [] ∧
  ∃ ru rv rw,
    (get_impact_radius 4 "api" None scenario_api).1 = Ok ru ∧
    (get_impact_radius 4 "db" None scenario_api).1 = Ok rv ∧
    (get_impact_radius 4 "cache" None scenario_api).1 = Ok rw ∧
    ("api" ∈ rv → "db" ∉ ru).
Proof.
  assert (length (node_ids scenario_api) < 4) as Hlen by (vm_compute; lia).
  assert ((find_cycles 4 scenario_api).1 = Ok []) as Hcs by (vm_compute; reflexivity).
  split; [apply reachable_wf, reachable_scenario_api|]. split; [done|]. split; [done|].
  destruct (impact_radius_order scenario_api 4 "api" "db" "cache"
              (reachable_wf _ reachable_scenario_api) Hlen Hcs)
    as (ru & rv & rw & H1 & H2 & H3 & H4 & _).
  exists ru, rv, rw. split; [exact H1|]. split; [exact H2|]. split; [exact H3|exact H4].
Defined.
(** * GraphBuilder *)

(** ** One dependency *)

Lemma add_edge_nodes e g : nodes (add_edge e g).2 = nodes g.
Proof.
  unfold add_edge. do 2 (destruct (negb _); [done|]). destruct (negb _); [|done].
  by destruct (dd_getitem (_adjacency g) _), (dd_getitem (_reverse_adjacency g) _).
Qed.

Lemma add_edge_has_edge e g :
  source e ∈ node_ids g → target e ∈ node_ids g →
  ∃ g', add_edge e g = (Ok tt, g') ∧ nodes g' = nodes g ∧
    ∀ u v, has_edge g' u v ↔ has_edge g u v ∨ (u = source e ∧ v = target e).
Proof.
  intros Hs Ht. destruct (edge_in e (edges g)) eqn:Hin.
  - exists g. split; [by apply add_edge_present|]. split; [done|].
    intros u v. split; [by left|]. intros [?|[-> ->]]; [done|].
    apply edge_in_true in Hin as (e' & ? & ? & ?). by exists e'.
  - destruct (add_edge_new e g Hs Ht Hin) as (g' & Hrun & Hn & He & _).
    exists g'. split; [done|]. split; [done|]. intros u v. unfold has_edge. rewrite He.
    split.
    + intros (e' & [He'|He']%elem_of_app & <- & <-); [left; by exists e'|].
      apply list_elem_of_singleton in He' as ->. by right.
    + intros [(e' & He' & <- & <-)|[-> ->]].
      * exists e'. split; [|done]. apply elem_of_app. by left.
      * exists e. split; [|done]. apply elem_of_app. right. by apply list_elem_of_singleton.
Qed.

Lemma add_dependency_ok g s t md :
  linkable g s t →
  ∃ g', GraphBuilder.add_dependency s t md g = (Ok tt, g') ∧ nodes g' = nodes g ∧
    ∀ u v, has_edge g' u v ↔ has_edge g u v ∨ (u = s ∧ v = t).
Proof.
  intros (Hs & Ht & Hst & Hsn & Htn).
  unfold GraphBuilder.add_dependency, of_res, Edge_new, Edge_post_init, mbind, M_bind. simpl.
  rewrite !bool_decide_eq_false_2 by done.
  apply (add_edge_has_edge (mkEdge s t md) g Hsn Htn).
Qed.

Lemma add_dependency_raise g s t md :
  ¬ linkable g s t →
  ∃ msg, GraphBuilder.add_dependency s t md g = (Raise (ValueError msg), g).
Proof.
  intros Hno.
  unfold GraphBuilder.add_dependency, of_res, Edge_new, Edge_post_init, mbind, M_bind. simpl.
  case_bool_decide as Hs; [by eexists|]. case_bool_decide as Ht; [by eexists|].
  case_bool_decide as Hst; [by eexists|]. unfold add_edge. simpl.
  destruct (dict_mem s (nodes g)) eqn:Hsn; simpl; [|by eexists].
  destruct (dict_mem t (nodes g)) eqn:Htn; simpl; [|by eexists].
  exfalso. apply Hno. apply dict_mem_true in Hsn, Htn. done.
Qed.

(** X9.  [GraphBuilder.add_dependency] returns normally exactly when both
    ids are non-empty, different, and nodes of the graph; it then adds the
    one link and nothing else.  In every other case it raises a
    [ValueError] and the graph is left as it was. *)
Theorem builder_add_dependency (g : Graph) (s t : string) (md : gmap string PyVal) :
  ((GraphBuilder.add_dependency s t md g).1 = Ok tt ↔ linkable g s t) ∧
  (linkable g s t →
   ∃ g', GraphBuilder.add_dependency s t md g = (Ok tt, g') ∧ nodes g' = nodes g ∧
     ∀ u v, has_edge g' u v ↔ has_edge g u v ∨ (u = s ∧ v = t)) ∧
  (¬ linkable g s t →
   ∃ msg, GraphBuilder.add_dependency s t md g = (Raise (ValueError msg), g)).
Proof.
  split; [|split; [apply add_dependency_ok|apply add_dependency_raise]].
  destruct (decide (linkable g s t)) as [Hl|Hl].
  - destruct (add_dependency_ok g s t md Hl) as (g' & -> & _). done.
  - destruct (add_dependency_raise g s t md Hl) as (msg & ->). done.
Qed.

(** ** Loops of dependencies *)

Lemma linkable_nodes g g' s t : nodes g' = nodes g → linkable g' s t ↔ linkable g s t.
Proof. unfold linkable, node_ids. by intros ->. Qed.

(** A loop of [add_dependency] over [links] adds the links in order and
    stops at the first that cannot be added. *)
Lemma add_links_spec (links : list (string * string)) (g : Graph) :
  ∃ k r g',
    for_each links (λ p, GraphBuilder.add_dependency p.1 p.2 ∅) g = (r, g') ∧
    nodes g' = nodes g ∧
    (∀ u v, has_edge g' u v ↔ has_edge g u v ∨ (u, v) ∈ take k links) ∧
    Forall (λ p, linkable g p.1 p.2) (take k links) ∧
    ((r = Ok tt ∧ k = length links) ∨
     (∃ msg s t, r = Raise (ValueError msg) ∧ links !! k = Some (s, t) ∧ ¬ linkable g s t)).
Proof.
  revert g. induction links as [|[s t] links IH]; intros g.
  { exists 0, (Ok tt), g. split; [done|]. split; [done|]. split; [|split; [constructor|by left]].
    intros u v. split; [by left|]. intros [?|?%elem_of_nil]; done. }
  destruct (decide (linkable g s t)) as [Hl|Hl].
  - destruct (add_dependency_ok g s t ∅ Hl) as (g1 & Hrun & Hn1 & He1).
    destruct (IH g1) as (k & r & g' & Hrest & Hn & He & Hall & Hend).
    exists (S k), r, g'.
    rewrite (for_each_cons_ok (λ p, GraphBuilder.add_dependency p.1 p.2 ∅) (s, t) links g g1 Hrun).
    split; [done|]. split; [congruence|]. split; [|split].
    + intros u v. rewrite He, He1. simpl. rewrite elem_of_cons.
      split; [intros [[?|[-> ->]]|?]|intros [?|[[= -> ->]|?]]]; tauto.
    + simpl. constructor; [done|].
      eapply Forall_impl; [done|]. intros [a b]. simpl. by apply linkable_nodes.
    + destruct Hend as [[-> ->]|(msg & a & b & -> & Hk & Hno)]; [by left|].
      right. exists msg, a, b. split; [done|]. split; [done|].
      intros ?. apply Hno. by apply (linkable_nodes g g1).
  - destruct (add_dependency_raise g s t ∅ Hl) as (msg & Hrun).
    exists 0, (Raise (ValueError msg)), g. simpl. unfold mbind, M_bind. simpl in Hrun.
    rewrite Hrun. split; [done|]. split; [done|]. split; [|split; [constructor|]].
    + intros u v. split; [by left|]. intros [?|?%elem_of_nil]; done.
    + right. by exists msg, s, t.
Qed.

Lemma for_each_ext {S A} (f g : A → M S unit) l s :
  (∀ x, x ∈ l → ∀ s, f x s = g x s) → for_each l f s = for_each l g s.
Proof.
  revert s. induction l as [|x l IH]; intros s Hfg; [done|].
  simpl. unfold mbind, M_bind. rewrite (Hfg x) by left.
  destruct (g x s) as [[[]| |] s']; [|done..]. apply IH. intros y Hy. apply Hfg. by right.
Qed.

Lemma for_each_fmap {S A B} (h : A → B) (f : B → M S unit) l s :
  for_each (h <$> l) f s = for_each l (λ x, f (h x)) s.
Proof.
  revert s. induction l as [|x l IH]; intros s; [done|].
  csimpl. unfold mbind, M_bind. destruct (f (h x) s) as [[[]| |] s']; [|done..]. apply IH.
Qed.

Lemma add_chain_links node_ids g :
  GraphBuilder.add_chain node_ids g =
  for_each (chain_links node_ids) (λ p, GraphBuilder.add_dependency p.1 p.2 ∅) g.
Proof.
  unfold GraphBuilder.add_chain.
  revert g. induction node_ids as [|a [|b l] IH]; intros g; [done..|].
  replace (length (a :: b :: l) - 1) with (S (length (b :: l) - 1)) by (simpl; lia).
  change (chain_links (a :: b :: l)) with ((a, b) :: chain_links (b :: l)).
  cbn [seq for_each]. unfold mbind, M_bind.
  change (GraphBuilder.add_chain_step (a :: b :: l) 0 g)
    with (GraphBuilder.add_dependency a b ∅ g). cbn [fst snd].
  destruct (GraphBuilder.add_dependency a b ∅ g) as [[[]| |] g1]; [|done..].
  rewrite <- IH. rewrite <- fmap_S_seq, for_each_fmap. apply for_each_ext.
  intros i _ s. done.
Qed.

(** X10.  [add_chain] links each id to the next, in order.  It stops at the
    first pair that [add_dependency] refuses, with that call's
    [ValueError], and the links made before it stay in the graph; it
    returns normally when no pair is refused.  A chain of fewer than two
    ids changes nothing. *)
Theorem add_chain_spec (g : Graph) (node_ids : list string) :
  ∃ k r g',
    GraphBuilder.add_chain node_ids g = (r, g') ∧
    nodes g' = nodes g ∧
    (∀ u v, has_edge g' u v ↔
       has_edge g u v ∨ ∃ i, i < k ∧ node_ids !! i = Some u ∧ node_ids !! (S i) = Some v) ∧
    (∀ i u v, i < k → node_ids !! i = Some u → node_ids !! (S i) = Some v → linkable g u v) ∧
    ((r = Ok tt ∧ k = length node_ids - 1) ∨
     (∃ msg u v, r = Raise (ValueError msg) ∧
        node_ids !! k = Some u ∧ node_ids !! (S k) = Some v ∧ ¬ linkable g u v)) ∧
    (length node_ids < 2 → r = Ok tt ∧ g' = g).
Proof.
  assert (∀ l i u v, chain_links l !! i = Some (u, v) ↔ l !! i = Some u ∧ l !! (S i) = Some v)
    as Hlook.
  { intros l i u v. unfold chain_links. rewrite lookup_zip_with_Some.
    rewrite lookup_tail. split; [by intros (? & ? & [= -> ->] & ? & ?)|].
    intros [? ?]. by exists u, v. }
  assert (length (chain_links node_ids) = length node_ids - 1) as Hlen.
  { unfold chain_links. rewrite length_zip_with. destruct node_ids; cbn [tail length]; lia. }
  rewrite add_chain_links.
  destruct (add_links_spec (chain_links node_ids) g) as (k & r & g' & Hrun & Hn & He & Hall & Hend).
  assert (k ≤ length (chain_links node_ids)) as Hk.
  { destruct Hend as [[_ ->]|(msg & s & t & _ & Hlk & _)]; [done|].
    apply lookup_lt_Some in Hlk. lia. }
  exists k, r, g'. split; [done|]. split; [done|]. split; [|split; [|split]].
  - intros u v. rewrite He. apply or_iff_compat_l. rewrite list_elem_of_lookup. split.
    + intros (i & Hi). pose proof (lookup_lt_Some _ _ _ Hi) as Hlt.
      rewrite length_take in Hlt. rewrite lookup_take_lt in Hi by lia.
      exists i. split; [lia|]. by apply Hlook.
    + intros (i & Hi & Hu & Hv). exists i. rewrite lookup_take_lt by lia. by apply Hlook.
  - intros i u v Hi Hu Hv. rewrite Forall_forall in Hall.
    apply (Hall (u, v)). apply list_elem_of_lookup. exists i.
    rewrite lookup_take_lt by lia. by apply Hlook.
  - destruct Hend as [[-> ->]|(msg & s & t & -> & Hlk & Hno)]; [left; by rewrite Hlen|].
    right. exists msg, s, t. apply Hlook in Hlk as [? ?]. done.
  - intros Hshort. destruct node_ids as [|a [|b l]]; simpl in *; try lia;
      by injection Hrun as <- <-.
Qed.
Lemma add_links_outcome (links : list (string * string)) (g : Graph) :
  ∃ r g',
    for_each links (λ p, GraphBuilder.add_dependency p.1 p.2 ∅) g = (r, g') ∧
    nodes g' = nodes g ∧
    (r = Ok tt ↔ Forall (λ p, linkable g p.1 p.2) links) ∧
    (∀ u v, has_edge g u v → has_edge g' u v) ∧
    (∀ u v, has_edge g' u v → has_edge g u v ∨ (u, v) ∈ links) ∧
    (r = Ok tt → ∀ u v, (u, v) ∈ links → has_edge g' u v).
Proof.
  destruct (add_links_spec links g) as (k & r & g' & Hrun & Hn & He & Hall & Hend).
  exists r, g'. split; [done|]. split; [done|]. split; [|split; [|split]].
  - destruct Hend as [[-> ->]|(msg & s & t & -> & Hk & Hno)].
    + by rewrite firstn_all in Hall.
    + split; [done|]. intros Hlinks. exfalso. apply Hno.
      rewrite Forall_forall in Hlinks. apply (Hlinks (s, t)).
      by eapply list_elem_of_lookup_2.
  - intros u v Huv. apply He. by left.
  - intros u v [?|Huv]%He; [by left|]. right.
    rewrite <- (take_drop k links). apply elem_of_app. by left.
  - intros Hr u v Huv. apply He. right.
    destruct Hend as [[_ ->]|(? & ? & ? & ? & _)]; [|congruence]. by rewrite firstn_all.
Qed.

(** X11.  [add_fanout] links one source to each target and [add_fanin] each
    source to one target.  Either returns normally exactly when
    [add_dependency] accepts every pair, and then the graph has the old
    links and these; when it raises, no link is lost and every new one is
    among those asked for; the nodes are never touched. *)
Theorem add_fanout_fanin (g : Graph) (hub : string) (others : list string) :
  (∃ r g',
     GraphBuilder.add_fanout hub others g = (r, g') ∧ nodes g' = nodes g ∧
     (r = Ok tt ↔ ∀ t, t ∈ others → linkable g hub t) ∧
     (∀ u v, has_edge g u v → has_edge g' u v) ∧
     (∀ u v, has_edge g' u v → has_edge g u v ∨ (u = hub ∧ v ∈ others)) ∧
     (r = Ok tt → ∀ t, t ∈ others → has_edge g' hub t)) ∧
  (∃ r g',
     GraphBuilder.add_fanin hub others g = (r, g') ∧ nodes g' = nodes g ∧
     (r = Ok tt ↔ ∀ s, s ∈ others → linkable g s hub) ∧
     (∀ u v, has_edge g u v → has_edge g' u v) ∧
     (∀ u v, has_edge g' u v → has_edge g u v ∨ (u ∈ others ∧ v = hub)) ∧
     (r = Ok tt → ∀ s, s ∈ others → has_edge g' s hub)).
Proof.
  split.
  - destruct (add_links_outcome ((λ t, (hub, t)) <$> others) g)
      as (r & g' & Hrun & Hn & Hok & Hmono & Hnew & Hall).
    rewrite for_each_fmap in Hrun. exists r, g'. split; [done|]. split; [done|].
    split; [|split; [done|split]].
    + rewrite Hok, Forall_fmap, Forall_forall. done.
    + intros u v [?|Huv]%Hnew; [by left|]. right.
      apply list_elem_of_fmap in Huv as (t & [= -> ->] & Ht). done.
    + intros Hr t Ht. apply (Hall Hr). apply list_elem_of_fmap. by exists t.
  - destruct (add_links_outcome ((λ s, (s, hub)) <$> others) g)
      as (r & g' & Hrun & Hn & Hok & Hmono & Hnew & Hall).
    rewrite for_each_fmap in Hrun. exists r, g'. split; [done|]. split; [done|].
    split; [|split; [done|split]].
    + rewrite Hok, Forall_fmap, Forall_forall. done.
    + intros u v [?|Huv]%Hnew; [by left|]. right.
      apply list_elem_of_fmap in Huv as (s & [= -> ->] & Hs). done.
    + intros Hr s Hs. apply (Hall Hr). apply list_elem_of_fmap. by exists s.
Qed.

(** ** One node *)

Lemma Node_new_ok nid s md :
  nid ≠ "" →
  ∃ n, Node_new nid (TStr s) md = Ok n ∧ id n = nid ∧
    type n = TEnum (default CUSTOM (NodeType_of_value (lower s))).
Proof.
  intros Hid. unfold Node_new, Node_post_init. simpl.
  rewrite bool_decide_eq_false_2 by done.
  destruct (NodeType_of_value (lower s)); [|case_bool_decide]; by eexists.
Qed.

(** X12.  [GraphBuilder.add_node] raises for an empty id and for an id that
    is already a node, and leaves the graph as it was; for any other id it
    returns normally, and [get_node] then finds under the id a node of a
    kind of the enumeration: for [node_type] given as ASCII text, the kind
    it names without regard to case, or custom when no kind has that name;
    edges are not touched. *)
Theorem builder_add_node (g : Graph) (nid ty : string) (md : gmap string PyVal) :
  (nid = "" →
   GraphBuilder.add_node nid ty md g = (Raise (ValueError "Node id cannot be empty"), g)) ∧
  (nid ≠ "" → nid ∈ node_ids g →
   GraphBuilder.add_node nid ty md g =
     (Raise (ValueError ("Node with id '" +:+ nid +:+ "' already exists")), g)) ∧
  (nid ≠ "" → nid ∉ node_ids g →
   ∃ n g', GraphBuilder.add_node nid ty md g = (Ok tt, g') ∧
     node_ids g' = node_ids g ++ [nid] ∧ edges g' = edges g ∧
     (get_node nid g').1 = Ok (Some n) ∧ id n = nid ∧
     (∃ t, type n = TEnum t) ∧
     (isascii ty = true →
      type n = TEnum (default CUSTOM (NodeType_of_value (lower ty))))).
Proof.
  unfold GraphBuilder.add_node, of_res, mbind, M_bind. split; [|split].
  - intros ->. done.
  - intros Hid Hin. destruct (Node_new_ok nid ty md Hid) as (n & -> & Hn & _).
    rewrite <- Hn in *. by apply add_node_dup.
  - intros Hid Hin. destruct (Node_new_ok nid ty md Hid) as (n & -> & Hn & Hty).
    rewrite <- Hn in *. rewrite add_node_fresh by done.
    eexists n, _. split; [done|]. unfold get_node, node_ids. simpl.
    split; [by rewrite fmap_app|]. split; [done|]. split; [|by eauto].
    rewrite dict_get_app_fresh. destruct (dict_get (id n) (nodes g)) eqn:E.
    + exfalso. apply Hin. apply dict_get_Some_mem. eauto.
    + by rewrite bool_decide_eq_true_2.
Qed.

(** ** What the builder builds *)

Lemma for_each_preserves {S A} (P : S → Prop) (body : A → M S unit) l s :
  (∀ x s, P s → P (body x s).2) → P s → P (for_each l body s).2.
Proof.
  intros Hbody. revert s. induction l as [|x l IH]; intros s Hs; [done|].
  simpl. unfold mbind, M_bind. specialize (Hbody x s Hs).
  destruct (body x s) as [[[]| |] s']; [|done..]. by apply IH.
Qed.

Lemma reachable_builder_add_node g nid ty md :
  reachable g → reachable (GraphBuilder.add_node nid ty md g).2.
Proof.
  intros Hg. unfold GraphBuilder.add_node, of_res, mbind, M_bind, Node_new.
  destruct (Node_post_init _) as [n| |] eqn:E; [|done..]. by eapply reach_add_node.
Qed.

Lemma reachable_add_dependency g s t md :
  reachable g → reachable (GraphBuilder.add_dependency s t md g).2.
Proof.
  intros Hg. unfold GraphBuilder.add_dependency, of_res, mbind, M_bind, Edge_new.
  destruct (Edge_post_init _) as [e| |] eqn:E; [|done..]. by eapply reach_add_edge.
Qed.

Lemma reachable_add_dependencies_step g d :
  match d with
  | GraphBuilder.DepEdge e => Edge_post_init e = Ok e
  | GraphBuilder.DepStr _ => True
  end →
  reachable g → reachable (GraphBuilder.add_dependencies_step d g).2.
Proof.
  intros Hd Hg. destruct d as [e|s]; simpl.
  - by eapply reach_add_edge.
  - destruct (str_contains "->" s); [|done].
    unfold of_res, mbind, M_bind. destruct (split1 "->" s) as [[a b]| |]; [|done..].
    by apply reachable_add_dependency.
Qed.

(** X13.  Every method of the builder that changes the graph takes a graph
    built by [add_node] and [add_edge] to such a graph, whatever its
    outcome, and the builder starts from one: what [build] returns
    satisfies the invariants of the data model, after calls that raised as
    well. *)
Theorem builder_reachable (g : Graph) :
  reachable g →
  reachable GraphBuilder.init ∧
  (∀ nid ty md, reachable (GraphBuilder.add_node nid ty md g).2) ∧
  (∀ s t md, reachable (GraphBuilder.add_dependency s t md g).2) ∧
  (∀ ids, reachable (GraphBuilder.add_chain ids g).2) ∧
  (∀ s ts, reachable (GraphBuilder.add_fanout s ts g).2) ∧
  (∀ t ss, reachable (GraphBuilder.add_fanin t ss g).2) ∧
  (∀ ds,
     Forall (λ d, match d with
                  | GraphBuilder.DepEdge e => Edge_post_init e = Ok e
                  | GraphBuilder.DepStr _ => True
                  end) ds →
     reachable (GraphBuilder.add_dependencies ds g).2) ∧
  (GraphBuilder.build g = (Ok g, g) ∧ wf g).
Proof.
  intros Hg. split; [constructor|].
  split; [intros; by apply reachable_builder_add_node|].
  split; [intros; by apply reachable_add_dependency|].
  split; [|split; [|split; [|split]]].
  - intros ids. unfold GraphBuilder.add_chain. apply for_each_preserves; [|done].
    intros i s Hs. unfold GraphBuilder.add_chain_step.
    destruct (ids !! i), (ids !! (i + 1)); try done. by apply reachable_add_dependency.
  - intros s ts. unfold GraphBuilder.add_fanout. apply for_each_preserves; [|done].
    intros ? ? ?. by apply reachable_add_dependency.
  - intros t ss. unfold GraphBuilder.add_fanin. apply for_each_preserves; [|done].
    intros ? ? ?. by apply reachable_add_dependency.
  - intros ds Hds. unfold GraphBuilder.add_dependencies.
    revert g Hg. induction Hds as [|d ds Hd Hds IH]; intros g Hg; [done|].
    simpl. unfold mbind, M_bind.
    pose proof (reachable_add_dependencies_step g d Hd Hg) as Hstep.
    destruct (GraphBuilder.add_dependencies_step d g) as [[[]| |] g1]; [|done..]. by apply IH.
  - split; [done|by apply reachable_wf].
Qed.

Lemma builder_reachable_witness :
  reachable scenario_api ∧
  reachable (GraphBuilder.add_chain ["db"; "cache"; "api"] scenario_api).2.
Proof.
  split; [apply reachable_scenario_api|].
  exact (proj1 (proj2 (proj2 (proj2 (builder_reachable scenario_api reachable_scenario_api))))
           ["db"; "cache"; "api"]).
Defined.

(** ** [validate] of the builder *)

Lemma wf_same_graph g g' : wf g → same_graph g g' → wf g'.
Proof.
  intros Hwf (Hn & He & Hf & Hr).
  assert (∀ s t, has_edge g' s t ↔ has_edge g s t) as Hedge.
  { intros s t. unfold has_edge. by rewrite He. }
  split; unfold node_ids; try rewrite Hn; try rewrite He.
  - apply Hwf.
  - apply Hwf.
  - intros s t. rewrite Hf, Hedge. apply Hwf.
  - intros s t. rewrite Hr, Hedge. apply Hwf.
  - apply Hwf.
  - intros s. rewrite Hf. apply Hwf.
  - intros t. rewrite Hr. apply Hwf.
Qed.

Lemma walk_same_graph g g' k u w : same_graph g g' → walk g' k u w → walk g k u w.
Proof.
  intros (_ & He & _). induction 1 as [|k a b c Hab Hw IH]; [constructor|].
  apply (walk_S g k a b c); [|done].
  destruct Hab as (e & Hin & ? & ?). exists e. by rewrite <- He.
Qed.

Lemma acyclic_same_graph g g' : same_graph g g' → acyclic g → acyclic g'.
Proof. intros Hg Hac k u Hw. apply (Hac k u). by eapply walk_same_graph. Qed.

(** X14.  On a well-formed graph and with fuel above the number of nodes,
    [GraphBuilder.validate] returns normally exactly when the graph has no
    closed walk, and a graph it accepts is one that [topological_sort]
    orders; otherwise it raises one [ValueError] whose message lists, under
    its heading, the cycles of [find_cycles], one per line. *)
Theorem builder_validate (g : Graph) (fuel : nat) :
  wf g → length (node_ids g) < fuel →
  ∃ r g' cs g1,
    GraphBuilder.validate fuel g = (r, g') ∧ same_graph g g' ∧
    find_cycles fuel g = (Ok cs, g1) ∧
    (r = Ok tt ↔ acyclic g) ∧
    (r = Ok tt →
     ∃ l g'', topological_sort fuel g' = (Ok (Some l), g'') ∧ l ≡ₚ node_ids g) ∧
    (r ≠ Ok tt →
     r = Raise (ValueError ("Graph validation failed:" +:+ GraphBuilder.newline +:+
                            join GraphBuilder.newline (cycle_error <$> cs)))).
Proof.
  intros Hwf Hfuel.
  destruct (find_cycles_spec g fuel Hwf Hfuel) as (cs & g1 & Hrun & Hg1 & _ & _).
  pose proof (find_cycles_acyclic g fuel cs g1 Hwf Hfuel Hrun) as Hac.
  pose proof (validate_eq g fuel cs g1 Hrun) as Hval.
  rewrite (proj2 (concat_edge_errors_nil g (edges g)) (wf_I1 g Hwf)) in Hval. simpl in Hval.
  unfold GraphBuilder.validate. rewrite (bind_ok _ _ _ _ _ Hval).
  destruct cs as [|c cs].
  - change (cycle_error <$> []) with (@nil string).
    rewrite bool_decide_eq_false_2 by (by intros ?).
    exists (Ok tt), g1, [], g1. split; [done|]. split; [done|]. split; [done|].
    split; [split; [intros _; by apply Hac|done]|]. split; [|done]. intros _.
    pose proof (wf_same_graph g g1 Hwf Hg1) as Hwf1.
    assert (node_ids g1 = node_ids g) as Hids by (unfold node_ids; by destruct Hg1 as [-> _]).
    destruct (topological_sort_char g1 fuel Hwf1) as (cs' & g2 & r & g3 & Hcs' & Hts & _ & Hl).
    { by rewrite Hids. }
    assert (cs' = []) as ->.
    { eapply find_cycles_acyclic; [done| |done|].
      - by rewrite Hids.
      - apply (acyclic_same_graph g g1 Hg1). by apply Hac. }
    destruct (Hl eq_refl) as (l & -> & Hperm & _).
    exists l, g3. split; [done|]. by rewrite <- Hids.
  - rewrite bool_decide_eq_true_2 by done.
    eexists _, g1, (c :: cs), g1. split; [done|]. split; [done|]. split; [done|].
    split; [split; [done|by intros ?%Hac]|]. split; [done|]. done.
Qed.

Lemma builder_validate_witness :
  wf scenario_cycle ∧ length (node_ids scenario_cycle) < 4 ∧
  ∃ r g', GraphBuilder.validate 4 scenario_cycle = (r, g') ∧ (r = Ok tt ↔ acyclic scenario_cycle).
Proof.
  assert (length (node_ids scenario_cycle) < 4) as Hlen by (vm_compute; lia).
  split; [apply reachable_wf, reachable_scenario_cycle|]. split; [done|].
  destruct (builder_validate scenario_cycle 4
              (reachable_wf _ reachable_scenario_cycle) Hlen)
    as (r & g' & cs & g1 & H1 & _ & _ & H2 & _).
  exists r, g'. split; [exact H1|exact H2].
Defined.
(** * Text and the parser *)

(** ** Finding and splitting *)

Lemma str_app_nil (b : string) : "" +:+ b = b.
Proof. done. Qed.

Lemma str_app_cons x (a b : string) : String x a +:+ b = String x (a +:+ b).
Proof. done. Qed.

Ltac str_simpl :=
  rewrite ?str_app_nil, ?str_app_cons;
  cbn [str_find str_take str_drop String.length Nat.add fmap option_fmap option_map];
  rewrite ?str_app_nil, ?str_app_cons.

Lemma str_app_assoc (a b c : string) : (a +:+ b) +:+ c = a +:+ (b +:+ c).
Proof. induction a as [|x a IH]; str_simpl; [done|]. by f_equal. Qed.

Lemma str_app_nil_r (a : string) : a +:+ "" = a.
Proof. induction a as [|x a IH]; str_simpl; [done|]. by f_equal. Qed.

Lemma str_length_app (a b : string) :
  String.length (a +:+ b) = String.length a + String.length b.
Proof. induction a as [|x a IH]; str_simpl; [done|]. by f_equal. Qed.

Lemma prefix_app sep b : String.prefix sep (sep +:+ b) = true.
Proof.
  induction sep as [|x sep IH]; rewrite ?str_app_nil, ?str_app_cons; simpl; [by destruct b|].
  destruct (Ascii.ascii_dec x x) as [_|n]; [done|by destruct n].
Qed.

Lemma prefix_split sep s :
  String.prefix sep s = true → s = sep +:+ str_drop (String.length sep) s.
Proof.
  revert s. induction sep as [|x sep IH]; intros s; [by destruct s|].
  destruct s as [|c s]; simpl; [done|]. destruct (Ascii.ascii_dec x c) as [->|]; [|done].
  intros H. rewrite str_app_cons. by rewrite <- (IH s H).
Qed.

Lemma str_take_app a b : str_take (String.length a) (a +:+ b) = a.
Proof. induction a as [|x a IH]; str_simpl; [by destruct b|]. by f_equal. Qed.

Lemma str_drop_app a b : str_drop (String.length a) (a +:+ b) = b.
Proof. induction a as [|x a IH]; str_simpl; [by destruct b|]. done. Qed.

Lemma str_find_prefix sep s : String.prefix sep s = true → str_find sep s = Some 0.
Proof. intros H. destruct s; cbn [str_find]; by rewrite H. Qed.

Lemma str_find_split sep s i :
  str_find sep s = Some i →
  s = str_take i s +:+ sep +:+ str_drop (i + String.length sep) s ∧
  String.length (str_take i s) = i.
Proof.
  revert i. induction s as [|c s IH]; intros i; cbn [str_find].
  - destruct (String.prefix sep "") eqn:E; [|done]. intros [= Hi]; subst i.
    apply prefix_split in E. split; [exact E|done].
  - destruct (String.prefix sep (String c s)) eqn:E.
    + intros [= Hi]; subst i. apply prefix_split in E. split; [exact E|done].
    + destruct (str_find sep s) as [j|]; [|done]. intros [= Hi]; subst i.
      destruct (IH j eq_refl) as [Hs Hl]. str_simpl. rewrite Hl. by rewrite <- Hs.
Qed.

Lemma str_find_first sep a b i :
  str_find sep (a +:+ sep +:+ b) = Some i → i ≤ String.length a.
Proof.
  revert i. induction a as [|c a IH]; intros i; str_simpl.
  - rewrite (str_find_prefix sep (sep +:+ b)) by apply prefix_app.
    intros [= Hi]; subst i. lia.
  - destruct (String.prefix sep (String c (a +:+ sep +:+ b))); [intros [= Hi]; subst i; lia|].
    destruct (str_find sep (a +:+ sep +:+ b)) as [j|]; [|done].
    intros [= Hi]; subst i. specialize (IH j eq_refl). lia.
Qed.

(** ** White space *)

Lemma lstrip_blank ws : blank ws = true → lstrip ws = "".
Proof.
  induction ws as [|c ws IH]; simpl; [done|].
  intros [Hc Hws]%andb_true_iff. rewrite Hc. by apply IH.
Qed.

Lemma lstrip_blank_app ws t : blank ws = true → lstrip (ws +:+ t) = lstrip t.
Proof.
  induction ws as [|c ws IH]; [done|]. rewrite str_app_cons. simpl.
  intros [Hc Hws]%andb_true_iff. rewrite Hc. by apply IH.
Qed.

Lemma rstrip_blank ws : blank ws = true → rstrip ws = "".
Proof.
  induction ws as [|c ws IH]; simpl; [done|].
  intros [Hc Hws]%andb_true_iff. by rewrite (IH Hws), Hc.
Qed.

Lemma rstrip_app_blank s ws : blank ws = true → rstrip (s +:+ ws) = rstrip s.
Proof.
  intros Hws. induction s as [|c s IH]; [by apply rstrip_blank|].
  rewrite str_app_cons. simpl. by rewrite IH.
Qed.

Lemma rstrip_length s : String.length (rstrip s) ≤ String.length s.
Proof.
  induction s as [|c s IH]; simpl; [done|].
  destruct (rstrip s); [destruct (isspace c)|]; simpl in *; lia.
Qed.

Lemma lstrip_cases s :
  (lstrip s = s ∧ match s with String c _ => isspace c = false | EmptyString => True end) ∨
  String.length (lstrip s) < String.length s.
Proof.
  induction s as [|c s IH]; simpl; [by left|].
  destruct (isspace c) eqn:Hc; [|by left].
  right. destruct IH as [[-> _]|?]; lia.
Qed.

Lemma stripped_parts s :
  stripped s →
  lstrip s = s ∧ rstrip s = s ∧
  match s with String c _ => isspace c = false | EmptyString => True end.
Proof.
  unfold stripped, strip. intros Hs.
  destruct (lstrip_cases s) as [[Hl Hc]|Hlt].
  - rewrite Hl in Hs. done.
  - pose proof (rstrip_length (lstrip s)) as Hr. rewrite Hs in Hr. lia.
Qed.

Lemma strip_app_blank s ws : stripped s → blank ws = true → strip (s +:+ ws) = s.
Proof.
  intros (Hl & Hr & Hc)%stripped_parts Hws. unfold strip.
  destruct s as [|c s].
  - rewrite str_app_nil, (lstrip_blank ws Hws). done.
  - rewrite str_app_cons. simpl. rewrite Hc. rewrite <- str_app_cons.
    by rewrite rstrip_app_blank.
Qed.

Lemma strip_blank_app ws t : blank ws = true → stripped t → strip (ws +:+ t) = t.
Proof.
  intros Hws Ht. unfold strip. rewrite lstrip_blank_app by done. apply Ht.
Qed.

(** ** The separators of the parser *)

Lemma prefix_nil s : String.prefix "" s = true.
Proof. by destruct s. Qed.

Lemma str_find_None_cons sep c s :
  str_find sep (String c s) = None →
  String.prefix sep (String c s) = false ∧ str_find sep s = None.
Proof.
  cbn [str_find]. destruct (String.prefix sep (String c s)); [done|].
  by destruct (str_find sep s).
Qed.

Lemma prefix_cons_true x sep c s :
  String.prefix (String x sep) (String c s) = true ↔ x = c ∧ String.prefix sep s = true.
Proof.
  simpl. destruct (Ascii.ascii_dec x c) as [->|Hne]; [tauto|].
  split; [done|]. by intros [? _].
Qed.

Lemma arrow_prefix s : String.prefix "->" (String "-" (String ">" s)) = true.
Proof. apply prefix_cons_true. split; [done|]. apply prefix_cons_true. by rewrite prefix_nil. Qed.

Lemma find_step sep c s n :
  String.prefix sep (String c s) = false → str_find sep s = Some n →
  str_find sep (String c s) = Some (S n).
Proof. intros Hp Hs. cbn [str_find]. by rewrite Hp, Hs. Qed.

Lemma find_step_None sep c s :
  String.prefix sep (String c s) = false → str_find sep s = None →
  str_find sep (String c s) = None.
Proof. intros Hp Hs. cbn [str_find]. by rewrite Hp, Hs. Qed.

Lemma find_colon a b :
  str_find ":" a = None → str_find ":" (a +:+ ":" +:+ b) = Some (String.length a).
Proof.
  induction a as [|c a IH]; intros Ha.
  - rewrite str_app_nil. apply str_find_prefix, prefix_app.
  - apply str_find_None_cons in Ha as [Hc Ha]. rewrite str_app_cons.
    apply find_step; [|by apply IH].
    destruct (String.prefix ":" (String c (a +:+ ":" +:+ b))) eqn:E; [|done].
    apply prefix_cons_true in E as [<- _].
    rewrite (proj2 (prefix_cons_true ":" "" ":" a)) in Hc; [done|]. by rewrite prefix_nil.
Qed.

Lemma find_arrow a b :
  str_find "->" a = None → str_find "->" (a +:+ "->" +:+ b) = Some (String.length a).
Proof.
  induction a as [|c a IH]; intros Ha.
  - rewrite str_app_nil. apply str_find_prefix, prefix_app.
  - apply str_find_None_cons in Ha as [Hc Ha]. rewrite str_app_cons.
    apply find_step; [|by apply IH].
    destruct (String.prefix "->" (String c (a +:+ "->" +:+ b))) eqn:E; [|done].
    apply prefix_cons_true in E as [<- E]. destruct a as [|c' a].
    + rewrite str_app_nil in E.
      change ("->" +:+ b) with (String "-" (String ">" b)) in E.
      by apply prefix_cons_true in E as [? _].
    + rewrite str_app_cons in E. apply prefix_cons_true in E as [<- _].
      by rewrite arrow_prefix in Hc.
Qed.

Lemma find_arrow_blank ws : blank ws = true → str_find "->" ws = None.
Proof.
  induction ws as [|c ws IH]; [done|]. cbn [blank]. intros [Hc Hws]%andb_true_iff.
  apply find_step_None; [|by apply IH].
  destruct (String.prefix "->" (String c ws)) eqn:E; [|done].
  apply prefix_cons_true in E as [<- _]. done.
Qed.

Lemma find_colon_blank ws : blank ws = true → str_find ":" ws = None.
Proof.
  induction ws as [|c ws IH]; [done|]. cbn [blank]. intros [Hc Hws]%andb_true_iff.
  apply find_step_None; [|by apply IH].
  destruct (String.prefix ":" (String c ws)) eqn:E; [|done].
  apply prefix_cons_true in E as [<- _]. done.
Qed.

Lemma find_arrow_app_blank s ws :
  str_find "->" s = None → blank ws = true → str_find "->" (s +:+ ws) = None.
Proof.
  intros Hs Hws. induction s as [|c s IH]; [by apply find_arrow_blank|].
  apply str_find_None_cons in Hs as [Hc Hs]. rewrite str_app_cons.
  apply find_step_None; [|by apply IH].
  destruct (String.prefix "->" (String c (s +:+ ws))) eqn:E; [|done].
  apply prefix_cons_true in E as [<- E]. destruct s as [|c' s].
  - rewrite str_app_nil in E. destruct ws as [|x ws]; [done|].
    apply prefix_cons_true in E as [<- _]. simpl in Hws. done.
  - rewrite str_app_cons in E. apply prefix_cons_true in E as [<- _].
    by rewrite arrow_prefix in Hc.
Qed.

Lemma find_colon_app_blank s ws :
  str_find ":" s = None → blank ws = true → str_find ":" (s +:+ ws) = None.
Proof.
  intros Hs Hws. induction s as [|c s IH]; [by apply find_colon_blank|].
  apply str_find_None_cons in Hs as [Hc Hs]. rewrite str_app_cons.
  apply find_step_None; [|by apply IH].
  destruct (String.prefix ":" (String c (s +:+ ws))) eqn:E; [|done].
  apply prefix_cons_true in E as [<- _].
  rewrite (proj2 (prefix_cons_true ":" "" ":" s)) in Hc; [done|]. by rewrite prefix_nil.
Qed.

Lemma str_contains_false sep s : str_contains sep s = false ↔ str_find sep s = None.
Proof. unfold str_contains. by destruct (str_find sep s). Qed.

Lemma split1_arrow s ws1 ws2 t :
  str_contains "->" s = false → blank ws1 = true →
  str_contains "->" (s +:+ ws1 +:+ "->" +:+ ws2 +:+ t) = true ∧
  split1 "->" (s +:+ ws1 +:+ "->" +:+ ws2 +:+ t) = Ok (s +:+ ws1, ws2 +:+ t).
Proof.
  intros Hs%str_contains_false Hws.
  pose proof (find_arrow (s +:+ ws1) (ws2 +:+ t) (find_arrow_app_blank s ws1 Hs Hws)) as Hf.
  rewrite str_app_assoc in Hf. unfold str_contains, split1. rewrite Hf. split; [done|].
  rewrite <- (str_app_assoc s ws1). rewrite str_take_app.
  change (String.length "->") with (String.length ("->" : string)).
  rewrite <- str_length_app, <- str_app_assoc, str_drop_app. done.
Qed.

Lemma split1_colon s ws1 ws2 t :
  str_contains ":" s = false → blank ws1 = true →
  str_contains ":" (s +:+ ws1 +:+ ":" +:+ ws2 +:+ t) = true ∧
  split1 ":" (s +:+ ws1 +:+ ":" +:+ ws2 +:+ t) = Ok (s +:+ ws1, ws2 +:+ t).
Proof.
  intros Hs%str_contains_false Hws.
  pose proof (find_colon (s +:+ ws1) (ws2 +:+ t) (find_colon_app_blank s ws1 Hs Hws)) as Hf.
  rewrite str_app_assoc in Hf. unfold str_contains, split1. rewrite Hf. split; [done|].
  rewrite <- (str_app_assoc s ws1). rewrite str_take_app.
  change (String.length ":") with (String.length (":" : string)).
  rewrite <- str_length_app, <- str_app_assoc, str_drop_app. done.
Qed.

(** ** Dependencies from text *)

Lemma Edge_new_cases s t md :
  Edge_new s t md =
    if bool_decide (s = "") then Raise (ValueError "Edge source cannot be empty")
    else if bool_decide (t = "") then Raise (ValueError "Edge target cannot be empty")
    else if bool_decide (s = t) then
      Raise (ValueError ("Self-loops not allowed: " +:+ s +:+ " -> " +:+ t))
    else Ok (mkEdge s t md).
Proof. done. Qed.

(** X17.  What [_parse_dependency] makes of a string of ASCII text.
    Without an arrow it raises the parser's [ValueError].  With one, let the
    source and the target be the texts before the first arrow and after it,
    stripped: it returns the edge from the source to the target, with empty
    metadata, when they are not empty and differ, and otherwise raises the
    [ValueError] of [Edge] for an empty source, else for an empty target,
    else for a self-loop. *)
Theorem parse_dependency_cases (dep_def : string) :
  isascii dep_def = true →
  (str_contains "->" dep_def = false ∧
   YAMLParser._parse_dependency dep_def =
     Raise (ValueError ("Invalid dependency string format: " +:+ dep_def))) ∨
  (∃ a b,
     dep_def = a +:+ "->" +:+ b ∧
     (∀ a' b', dep_def = a' +:+ "->" +:+ b' → String.length a ≤ String.length a') ∧
     (strip a ≠ "" → strip b ≠ "" → strip a ≠ strip b →
      YAMLParser._parse_dependency dep_def = Ok (mkEdge (strip a) (strip b) ∅)) ∧
     (strip a = "" →
      YAMLParser._parse_dependency dep_def =
        Raise (ValueError "Edge source cannot be empty")) ∧
     (strip a ≠ "" → strip b = "" →
      YAMLParser._parse_dependency dep_def =
        Raise (ValueError "Edge target cannot be empty")) ∧
     (strip a ≠ "" → strip b ≠ "" → strip a = strip b →
      YAMLParser._parse_dependency dep_def =
        Raise (ValueError ("Self-loops not allowed: " +:+ strip a +:+ " -> " +:+ strip b)))).
Proof.
  intros _. unfold YAMLParser._parse_dependency, str_contains, split1.
  destruct (str_find "->" dep_def) as [i|] eqn:E; [right|by left].
  destruct (str_find_split _ _ _ E) as [Hs Hl]. cbn [res_bind].
  change (String.length "->") with 2 in *.
  set (a := str_take i dep_def) in *.
  set (b := str_drop (i + 2) dep_def) in *.
  exists a, b. split; [exact Hs|]. split.
  { intros a' b' Hs'. rewrite Hl. rewrite Hs' in E. by eapply str_find_first. }
  rewrite Edge_new_cases. split; [|split; [|split]].
  - intros Ha Hb Hab. by rewrite !bool_decide_eq_false_2 by done.
  - intros Ha. by rewrite bool_decide_eq_true_2 by done.
  - intros Ha Hb. rewrite bool_decide_eq_false_2 by done.
    by rewrite bool_decide_eq_true_2 by done.
  - intros Ha Hb Hab. rewrite !bool_decide_eq_false_2 by done.
    by rewrite bool_decide_eq_true_2 by done.
Qed.

Lemma parse_dependency_cases_witness :
  isascii "api -> db" = true ∧
  ((str_contains "->" "api -> db" = false ∧
    YAMLParser._parse_dependency "api -> db" =
      Raise (ValueError ("Invalid dependency string format: " +:+ "api -> db"))) ∨
   (∃ a b,
      "api -> db" = a +:+ "->" +:+ b ∧
      (∀ a' b', "api -> db" = a' +:+ "->" +:+ b' → String.length a ≤ String.length a') ∧
      (strip a ≠ "" → strip b ≠ "" → strip a ≠ strip b →
       YAMLParser._parse_dependency "api -> db" = Ok (mkEdge (strip a) (strip b) ∅)))).
Proof.
  split; [reflexivity|].
  destruct (parse_dependency_cases "api -> db" eq_refl)
    as [H|(a & b & H1 & H2 & H3 & _)]; [left; exact H|].
  right. exists a, b. split; [exact H1|]. split; [exact H2|exact H3].
Defined.

(** X18.  An edge written as source, arrow, target, with any white space
    around the arrow, is read back by [_parse_dependency] as [Edge(source,
    target)], provided the ids are ASCII text without white space at their
    ends and the source has no arrow in it; [add_dependencies] of the
    builder reads the same string as [add_dependency(source, target)]. *)
Theorem parse_dependency_round_trip (s t ws1 ws2 : string) (g : Graph) :
  isascii s = true → isascii t = true →
  stripped s → stripped t → str_contains "->" s = false →
  blank ws1 = true → blank ws2 = true →
  YAMLParser._parse_dependency (s +:+ ws1 +:+ "->" +:+ ws2 +:+ t) = Edge_new s t ∅ ∧
  GraphBuilder.add_dependencies [GraphBuilder.DepStr (s +:+ ws1 +:+ "->" +:+ ws2 +:+ t)] g =
    GraphBuilder.add_dependency s t ∅ g ∧
  YAMLParser.parse_dict_dependency (s +:+ ws1 +:+ "->" +:+ ws2 +:+ t) g =
    GraphBuilder.add_dependency s t ∅ g.
Proof.
  intros _ _ Hs Ht Harrow Hws1 Hws2.
  destruct (split1_arrow s ws1 ws2 t Harrow Hws1) as [Hc Hsp].
  assert (strip (s +:+ ws1) = s) as Hss by (by apply strip_app_blank).
  assert (strip (ws2 +:+ t) = t) as Hst by (by apply strip_blank_app).
  split; [|split].
  - unfold YAMLParser._parse_dependency. rewrite Hc, Hsp. simpl. by rewrite Hss, Hst.
  - unfold GraphBuilder.add_dependencies. simpl. rewrite Hc. unfold of_res, mbind, M_bind.
    rewrite Hsp. rewrite Hss, Hst.
    by destruct (GraphBuilder.add_dependency s t ∅ g) as [[[]| |] g'].
  - unfold YAMLParser.parse_dict_dependency, YAMLParser._parse_dependency.
    rewrite Hc, Hsp. simpl. by rewrite Hss, Hst.
Qed.

Lemma parse_dependency_round_trip_witness :
  isascii "api" = true ∧ isascii "db" = true ∧
  stripped "api" ∧ stripped "db" ∧ str_contains "->" "api" = false ∧
  blank " " = true ∧
  YAMLParser._parse_dependency ("api" +:+ " " +:+ "->" +:+ " " +:+ "db") =
    Edge_new "api" "db" ∅.
Proof.
  assert (stripped "api") as H1 by reflexivity.
  assert (stripped "db") as H2 by reflexivity.
  assert (str_contains "->" "api" = false) as H3 by reflexivity.
  assert (blank " " = true) as H4 by reflexivity.
  split; [reflexivity|]. split; [reflexivity|].
  split; [exact H1|]. split; [exact H2|]. split; [exact H3|]. split; [exact H4|].
  exact (proj1 (parse_dependency_round_trip "api" "db" " " " " Graph_init
                  eq_refl eq_refl H1 H2 H3 H4 H4)).
Defined.

(** ** Nodes from text *)

(** X19.  What [_parse_node] makes of a string of ASCII text.  Without a
    colon the whole string, stripped, is the id and the kind is service;
    with one, the id is the text before the first colon and the kind is
    named by the text after it, both stripped, the kind without regard to
    case and custom when no kind has that name.  The only error is the
    [ValueError] of [Node] for an id that is empty once stripped. *)
Theorem parse_node_cases (node_def : string) :
  isascii node_def = true →
  ∃ a b,
    (str_contains ":" node_def = false ∧ a = node_def ∧ b = "service" ∨
     str_contains ":" node_def = true ∧ node_def = a +:+ ":" +:+ b ∧
       ∀ a' b', node_def = a' +:+ ":" +:+ b' → String.length a ≤ String.length a') ∧
    YAMLParser._parse_node node_def = Node_new (strip a) (TStr (strip b)) ∅ ∧
    match YAMLParser._parse_node node_def with
    | Ok n =>
        strip a ≠ "" ∧ id n = strip a ∧
        type n = TEnum (default CUSTOM (NodeType_of_value (lower (strip b))))
    | Raise e => strip a = "" ∧ e = ValueError "Node id cannot be empty"
    | OutOfFuel => False
    end.
Proof.
  intros _.
  assert (∀ a b,
    match Node_new (strip a) (TStr (strip b)) ∅ with
    | Ok n =>
        strip a ≠ "" ∧ id n = strip a ∧
        type n = TEnum (default CUSTOM (NodeType_of_value (lower (strip b))))
    | Raise e => strip a = "" ∧ e = ValueError "Node id cannot be empty"
    | OutOfFuel => False
    end) as Hnew.
  { intros a b. destruct (decide (strip a = "")) as [->|Hne]; [done|].
    by destruct (Node_new_ok (strip a) (strip b) ∅ Hne) as (n & -> & ? & ?). }
  unfold YAMLParser._parse_node, str_contains, split1.
  destruct (str_find ":" node_def) as [i|] eqn:E.
  - destruct (str_find_split _ _ _ E) as [Hs Hl]. simpl.
    eexists _, _. split; [right; split; [done|split; [exact Hs|]]|split; [done|apply Hnew]].
    intros a' b' Hs'. rewrite Hl. rewrite Hs' in E. by eapply str_find_first.
  - simpl. exists node_def, "service". split; [by left|]. split; [done|].
    apply (Hnew node_def "service").
Qed.

Lemma parse_node_cases_witness :
  isascii "db : Database" = true ∧
  ∃ a b,
    (str_contains ":" "db : Database" = false ∧ a = "db : Database" ∧ b = "service" ∨
     str_contains ":" "db : Database" = true ∧ "db : Database" = a +:+ ":" +:+ b ∧
       ∀ a' b', "db : Database" = a' +:+ ":" +:+ b' → String.length a ≤ String.length a') ∧
    YAMLParser._parse_node "db : Database" = Node_new (strip a) (TStr (strip b)) ∅.
Proof.
  split; [reflexivity|].
  destruct (parse_node_cases "db : Database" eq_refl) as (a & b & H1 & H2 & _).
  exists a, b. split; [exact H1|exact H2].
Defined.

(** X20.  A node written as id, colon, kind, with any white space around
    the colon, is read by [_parse_node] as [Node(id, kind)], and an id alone
    as [Node(id, "service")], the node that [add_node(id)] of the builder
    makes, provided the texts are ASCII text without white space at their
    ends and the id has no colon in it. *)
Theorem parse_node_round_trip (nid ty ws1 ws2 : string) (g : Graph) :
  isascii nid = true → isascii ty = true →
  stripped nid → stripped ty → str_contains ":" nid = false →
  blank ws1 = true → blank ws2 = true →
  YAMLParser._parse_node (nid +:+ ws1 +:+ ":" +:+ ws2 +:+ ty) = Node_new nid (TStr ty) ∅ ∧
  YAMLParser._parse_node nid = Node_new nid (TStr "service") ∅ ∧
  YAMLParser.parse_dict_node (nid +:+ ws1 +:+ ":" +:+ ws2 +:+ ty) g =
    GraphBuilder.add_node nid ty ∅ g ∧
  YAMLParser.parse_dict_node nid g = GraphBuilder.add_node nid "service" ∅ g.
Proof.
  intros _ _ Hs Ht Hcolon Hws1 Hws2.
  destruct (split1_colon nid ws1 ws2 ty Hcolon Hws1) as [Hc Hsp].
  assert (strip (nid +:+ ws1) = nid) as Hss by (by apply strip_app_blank).
  assert (strip (ws2 +:+ ty) = ty) as Hst by (by apply strip_blank_app).
  assert (YAMLParser._parse_node (nid +:+ ws1 +:+ ":" +:+ ws2 +:+ ty) = Node_new nid (TStr ty) ∅)
    as H1.
  { unfold YAMLParser._parse_node. rewrite Hc, Hsp. simpl. by rewrite Hss, Hst. }
  assert (YAMLParser._parse_node nid = Node_new nid (TStr "service") ∅) as H2.
  { unfold YAMLParser._parse_node. rewrite Hcolon. simpl. by rewrite Hs. }
  split; [done|]. split; [done|].
  unfold YAMLParser.parse_dict_node, GraphBuilder.add_node. by rewrite H1, H2.
Qed.

Lemma parse_node_round_trip_witness :
  isascii "db01" = true ∧ isascii "Database" = true ∧
  stripped "db01" ∧ stripped "Database" ∧ str_contains ":" "db01" = false ∧
  blank "" = true ∧ blank " " = true ∧
  YAMLParser._parse_node ("db01" +:+ "" +:+ ":" +:+ " " +:+ "Database") =
    Node_new "db01" (TStr "Database") ∅.
Proof.
  assert (stripped "db01") as H1 by reflexivity.
  assert (stripped "Database") as H2 by reflexivity.
  assert (str_contains ":" "db01" = false) as H3 by reflexivity.
  assert (blank "" = true) as H4 by reflexivity.
  assert (blank " " = true) as H5 by reflexivity.
  split; [reflexivity|]. split; [reflexivity|].
  split; [exact H1|]. split; [exact H2|]. split; [exact H3|]. split; [exact H4|].
  split; [exact H5|].
  exact (proj1 (parse_node_round_trip "db01" "Database" "" " " Graph_init
                  eq_refl eq_refl H1 H2 H3 H4 H5)).
Defined.

(** ** A whole definition *)

Lemma for_each_inv {S A} (I : list A → S → Prop) (body : A → M S unit) l s s' :
  I [] s →
  (∀ pre x s s', I pre s → body x s = (Ok tt, s') → I (pre ++ [x]) s') →
  for_each l body s = (Ok tt, s') → I l s'.
Proof.
  intros H0 Hstep.
  assert (∀ post pre s, I pre s → for_each post body s = (Ok tt, s') → I (pre ++ post) s')
    as Hgen.
  { induction post as [|x post IH]; intros pre s0 Hpre Hrun.
    - injection Hrun as <-. by rewrite app_nil_r.
    - simpl in Hrun. unfold mbind, M_bind in Hrun.
      destruct (body x s0) as [[[]| |] s1] eqn:Hx; [|done..].
      replace (pre ++ x :: post) with ((pre ++ [x]) ++ post) by (by rewrite <- app_assoc).
      apply (IH _ s1); [|done]. by eapply Hstep. }
  apply (Hgen l [] s H0).
Qed.

Lemma parse_node_constructed d n :
  YAMLParser._parse_node d = Ok n → ∃ n0, Node_post_init n0 = Ok n.
Proof.
  unfold YAMLParser._parse_node, res_bind, Node_new.
  destruct (if str_contains ":" d then _ else _) as [[a b]| |]; [|done..]. by eexists.
Qed.

Lemma parse_dependency_constructed d e :
  YAMLParser._parse_dependency d = Ok e → ∃ e0, Edge_post_init e0 = Ok e.
Proof.
  unfold YAMLParser._parse_dependency, res_bind, Edge_new.
  destruct (str_contains "->" d); [|done].
  destruct (split1 "->" d) as [[a b]| |]; [|done..]. by eexists.
Qed.

Lemma add_edge_ok_nodes e g g' :
  add_edge e g = (Ok tt, g') → source e ∈ node_ids g ∧ target e ∈ node_ids g.
Proof.
  unfold add_edge.
  destruct (dict_mem (source e) (nodes g)) eqn:Hs; [|done].
  destruct (dict_mem (target e) (nodes g)) eqn:Ht; [|done].
  intros _. by apply dict_mem_true in Hs, Ht.
Qed.

(** X21.  A graph that [parse_dict] returns is one built by [add_node] and
    [add_edge].  Its nodes are those read from the entries under "nodes",
    in their order, each under its id; its links are those read from the
    entries under "dependencies", or under "edges" when there is no
    "dependencies", and every such entry names two of the nodes. *)
Theorem parse_dict_spec (data : gmap string (list string)) (g : Graph) :
  YAMLParser.parse_dict data = Ok g →
  reachable g ∧
  Forall2 (λ d kv, YAMLParser._parse_node d = Ok kv.2 ∧ kv.1 = id kv.2)
    (default [] (data !! "nodes")) (nodes g) ∧
  Forall (λ d, ∃ e, YAMLParser._parse_dependency d = Ok e ∧
                    source e ∈ node_ids g ∧ target e ∈ node_ids g)
    (default (default [] (data !! "edges")) (data !! "dependencies")) ∧
  (∀ u v, has_edge g u v ↔
     ∃ d e, d ∈ default (default [] (data !! "edges")) (data !! "dependencies") ∧
       YAMLParser._parse_dependency d = Ok e ∧ source e = u ∧ target e = v).
Proof.
  unfold YAMLParser.parse_dict.
  set (nodes_data := default [] (data !! "nodes")).
  set (deps := default (default [] (data !! "edges")) (data !! "dependencies")).
  unfold mbind, M_bind.
  destruct (for_each nodes_data YAMLParser.parse_dict_node Graph_init)
    as [[[]| |] g1] eqn:Hnodes; [|done..].
  destruct (for_each deps YAMLParser.parse_dict_dependency g1)
    as [[[]| |] g2] eqn:Hdeps; [|done..].
  intros [= ->].
  assert (reachable g1 ∧ edges g1 = [] ∧
          Forall2 (λ d kv, YAMLParser._parse_node d = Ok kv.2 ∧ kv.1 = id kv.2)
            nodes_data (nodes g1)) as (Hr1 & He1 & Hf1).
  { apply (for_each_inv
      (λ pre s, reachable s ∧ edges s = [] ∧
         Forall2 (λ d kv, YAMLParser._parse_node d = Ok kv.2 ∧ kv.1 = id kv.2) pre (nodes s))
      YAMLParser.parse_dict_node nodes_data Graph_init g1); [| |exact Hnodes].
    { split; [constructor|split; [done|constructor]]. }
    intros pre d s s' (Hr & He & Hf) Hd.
    unfold YAMLParser.parse_dict_node, of_res, mbind, M_bind in Hd.
    destruct (YAMLParser._parse_node d) as [n| |] eqn:Hn; [|done..].
    destruct (parse_node_constructed d n Hn) as (n0 & Hn0).
    destruct (decide (id n ∈ node_ids s)) as [Hin|Hin]; [by rewrite add_node_dup in Hd|].
    split; [replace s' with (add_node n s).2 by (by rewrite Hd); by eapply reach_add_node|].
    rewrite add_node_fresh in Hd by done. injection Hd as <-. simpl.
    split; [done|]. apply Forall2_app; [done|].
    constructor; [split; [exact Hn|reflexivity]|constructor]. }
  assert (reachable g ∧ nodes g = nodes g1 ∧
          Forall (λ d, ∃ e, YAMLParser._parse_dependency d = Ok e ∧
                            source e ∈ node_ids g1 ∧ target e ∈ node_ids g1) deps ∧
          ∀ u v, has_edge g u v ↔
            ∃ d e, d ∈ deps ∧ YAMLParser._parse_dependency d = Ok e ∧
                   source e = u ∧ target e = v) as (Hr2 & Hn2 & Hf2 & He2).
  { apply (for_each_inv
      (λ pre s, reachable s ∧ nodes s = nodes g1 ∧
         Forall (λ d, ∃ e, YAMLParser._parse_dependency d = Ok e ∧
                           source e ∈ node_ids g1 ∧ target e ∈ node_ids g1) pre ∧
         ∀ u v, has_edge s u v ↔
           ∃ d e, d ∈ pre ∧ YAMLParser._parse_dependency d = Ok e ∧
                  source e = u ∧ target e = v)
      YAMLParser.parse_dict_dependency deps g1 g); [| |exact Hdeps].
    { split; [done|split; [done|split; [constructor|]]].
      intros u v. split.
      - intros (e & He & _). rewrite He1 in He. by apply elem_of_nil in He.
      - intros (d & e & Hd & _). by apply elem_of_nil in Hd. }
    intros pre d s s' (Hr & Hn & Hf & Hedge) Hd.
    unfold YAMLParser.parse_dict_dependency, of_res, mbind, M_bind in Hd.
    destruct (YAMLParser._parse_dependency d) as [e| |] eqn:He; [|done..].
    destruct (parse_dependency_constructed d e He) as (e0 & He0).
    destruct (add_edge_ok_nodes e s s' Hd) as [Hs Ht].
    destruct (add_edge_has_edge e s Hs Ht) as (s1 & Hrun & Hn1 & Hedge1).
    rewrite Hd in Hrun. injection Hrun as <-.
    assert (node_ids s = node_ids g1) as Hids by (unfold node_ids; by rewrite Hn).
    split; [replace s' with (add_edge e s).2 by (by rewrite Hd); by eapply reach_add_edge|].
    split; [congruence|]. split.
    { apply Forall_app. split; [done|]. apply Forall_singleton. exists e. by rewrite <- Hids. }
    intros u v. rewrite Hedge1, Hedge. split.
    - intros [(d' & e' & Hin & ?)|[-> ->]].
      + exists d', e'. split; [apply elem_of_app; by left|done].
      + exists d, e. split; [apply elem_of_app; right; by apply list_elem_of_singleton|done].
    - intros (d' & e' & [Hin|Hin]%elem_of_app & Hp & <- & <-).
      + left. by exists d', e'.
      + apply list_elem_of_singleton in Hin as ->. right.
        rewrite He in Hp. by injection Hp as <-. }
  split; [done|]. split; [by rewrite Hn2|].
  split; [|done]. unfold node_ids. by rewrite Hn2.
Qed.

Lemma parse_dict_spec_witness :
  ∃ g,
    YAMLParser.parse_dict
      (<["nodes" := ["api:api"; "db : Database"; "cache"]]>
         (<["dependencies" := ["api -> db"; "api->cache"]]> ∅)) = Ok g ∧
    reachable g.
Proof.
  destruct (YAMLParser.parse_dict
      (<["nodes" := ["api:api"; "db : Database"; "cache"]]>
         (<["dependencies" := ["api -> db"; "api->cache"]]> ∅))) as [g| |] eqn:E;
    [|vm_compute in E; discriminate E..].
  exists g. split; [reflexivity|].
  exact (proj1 (parse_dict_spec _ g E)).
Defined.
(** * The degree entries of [stats] *)

Lemma sum_list_with_ext_in {A} (f f' : A → nat) l :
  (∀ y, y ∈ l → f' y = f y) → sum_list_with f' l = sum_list_with f l.
Proof.
  induction l as [|x l IH]; intros Hf; simpl; [done|].
  rewrite (Hf x) by left. rewrite IH; [done|]. intros y Hy. apply Hf. by right.
Qed.

Lemma sum_list_with_bump {A} (f f' : A → nat) l x :
  NoDup l → x ∈ l → f' x = S (f x) → (∀ y, y ≠ x → f' y = f y) →
  sum_list_with f' l = S (sum_list_with f l).
Proof.
  intros Hnd Hx Hfx Hf. induction Hnd as [|y l Hy Hnd IH]; [by apply elem_of_nil in Hx|].
  simpl. apply elem_of_cons in Hx as [<-|Hx].
  - rewrite Hfx. rewrite (sum_list_with_ext_in f f' l); [lia|].
    intros y Hy'. apply Hf. by intros ->.
  - rewrite (IH Hx). rewrite (Hf y); [lia|]. by intros ->.
Qed.

Lemma length_set_add x s : x ∉ s → length (set_add x s) = S (length s).
Proof.
  intros Hx. unfold set_add. rewrite bool_decide_eq_false_2 by done.
  rewrite length_app. simpl. lia.
Qed.

Lemma fwd_outside g s : wf g → s ∉ node_ids g → fwd g s = [].
Proof.
  intros Hwf Hs. destruct (fwd g s) as [|t l] eqn:E; [done|]. exfalso. apply Hs.
  assert (t ∈ fwd g s) as Ht by (rewrite E; left).
  apply (wf_fwd g Hwf) in Ht. by apply has_edge_nodes in Ht as [? _].
Qed.

Lemma rev_outside g t : wf g → t ∉ node_ids g → rev g t = [].
Proof.
  intros Hwf Ht. destruct (rev g t) as [|s l] eqn:E; [done|]. exfalso. apply Ht.
  assert (s ∈ rev g t) as Hs by (rewrite E; left).
  apply (wf_rev g Hwf) in Hs. by apply has_edge_nodes in Hs as [_ ?].
Qed.

(** The handshake count: over the nodes, the dependents and the
    dependencies each add up to the number of edges. *)
Lemma degree_sum g :
  reachable g →
  sum_list_with (λ n, length (rev g n)) (node_ids g) = length (edges g) ∧
  sum_list_with (λ n, length (fwd g n)) (node_ids g) = length (edges g).
Proof.
  induction 1 as [|n0 n g Hg [IHr IHf] Hinit|e0 e g Hg [IHr IHf] Hinit]; [done| |].
  - pose proof (reachable_wf g Hg) as Hwf.
    destruct (decide (id n ∈ node_ids g)) as [Hin|Hin]; [by rewrite add_node_dup|].
    rewrite add_node_fresh by done. unfold node_ids, fwd, rev in *. simpl.
    rewrite fmap_app, !sum_list_with_app. simpl.
    pose proof (rev_outside g (id n) Hwf Hin) as Hr.
    pose proof (fwd_outside g (id n) Hwf Hin) as Hf.
    unfold fwd, rev in Hr, Hf. rewrite Hr, Hf. simpl. lia.
  - pose proof (reachable_wf g Hg) as Hwf.
    destruct (decide (source e ∈ node_ids g)) as [Hs|Hs]; cycle 1.
    { unfold add_edge. by rewrite (proj2 (dict_mem_false _ _) Hs). }
    destruct (decide (target e ∈ node_ids g)) as [Ht|Ht]; cycle 1.
    { unfold add_edge.
      by rewrite (proj2 (dict_mem_true _ _) Hs), (proj2 (dict_mem_false _ _) Ht). }
    destruct (edge_in e (edges g)) eqn:Hin; [by rewrite add_edge_present|].
    destruct (add_edge_new e g Hs Ht Hin) as (g' & Hrun & Hn & He & Hf & Hr).
    rewrite Hrun. simpl.
    assert (¬ has_edge g (source e) (target e)) as Hnew.
    { intros (e' & He' & H1 & H2).
      assert (edge_in e (edges g) = true) as Hc by (apply edge_in_true; by exists e').
      congruence. }
    assert (node_ids g' = node_ids g) as Hids by (unfold node_ids; by rewrite Hn).
    rewrite Hids, He, length_app. simpl. split.
    + rewrite (sum_list_with_bump (λ n, length (rev g n)) _ (node_ids g) (target e));
        [lia|apply Hwf|done| |].
      * rewrite Hr, decide_True by done. apply length_set_add.
        by rewrite (wf_rev g Hwf).
      * intros y Hy. rewrite Hr, decide_False by done. done.
    + rewrite (sum_list_with_bump (λ n, length (fwd g n)) _ (node_ids g) (source e));
        [lia|apply Hwf|done| |].
      * rewrite Hf, decide_True by done. apply length_set_add.
        by rewrite (wf_fwd g Hwf).
      * intros y Hy. rewrite Hf, decide_False by done. done.
Qed.

Lemma py_sum_of_nat (f : string → nat) l :
  py_sum ((λ n, Z.of_nat (f n)) <$> l) = Z.of_nat (sum_list_with f l).
Proof.
  unfold py_sum.
  assert (∀ a, foldl Z.add a ((λ n, Z.of_nat (f n)) <$> l) = (a + Z.of_nat (sum_list_with f l))%Z)
    as Hgen.
  { induction l as [|x l IH]; intros a; simpl; [lia|]. rewrite IH. lia. }
  rewrite Hgen. lia.
Qed.

Lemma py_max_bound (l : list Z) (b : Z) :
  l ≠ [] → Forall (λ d, (0 ≤ d ≤ b)%Z) l →
  ∃ m, py_max l = Ok m ∧ m ∈ l ∧ Forall (λ d, (d ≤ m)%Z) l ∧ (0 ≤ m ≤ b)%Z.
Proof.
  intros Hne Hall. destruct l as [|x l]; [done|]. simpl.
  assert (∀ a, (foldl Z.max a l = a ∨ foldl Z.max a l ∈ l) ∧ (a ≤ foldl Z.max a l)%Z ∧
               Forall (λ d, (d ≤ foldl Z.max a l)%Z) l) as Hgen.
  { clear. induction l as [|y l IH]; intros a; simpl.
    - split; [by left|]. split; [lia|constructor].
    - destruct (IH (Z.max a y)) as (Hm & Hle & Hall).
      split; [|split; [lia|]].
      + destruct Hm as [Hm|Hm]; [|right; by right]. rewrite Hm.
        destruct (Z.max_spec a y) as [[_ ->]|[_ ->]]; [right; left|by left].
      + constructor; [lia|done]. }
  destruct (Hgen x) as (Hm & Hle & Hmax).
  eexists. split; [done|].
  assert (foldl Z.max x l ∈ x :: l) as Hin by (destruct Hm as [->|?]; [left|by right]).
  split; [done|]. split; [constructor; [done|done]|].
  rewrite Forall_forall in Hall. by apply Hall.
Qed.

Lemma stats_in_degree_eq n g l :
  stats_in_degree n (g, l) =
    (Ok tt, (touch_rev n g, mkDegrees (in_degrees l ++ [Z.of_nat (length (rev g n))])
                                      (out_degrees l))).
Proof. unfold stats_in_degree. rewrite (bind_ok _ _ _ _ _ (on_self_rev _ _ _)). done. Qed.

Lemma stats_out_degree_eq n g l :
  stats_out_degree n (g, l) =
    (Ok tt, (touch_fwd n g, mkDegrees (in_degrees l)
                                      (out_degrees l ++ [Z.of_nat (length (fwd g n))]))).
Proof. unfold stats_out_degree. rewrite (bind_ok _ _ _ _ _ (on_self_fwd _ _ _)). done. Qed.

Lemma stats_degrees_run g :
  nodes g ≠ [] →
  ∃ g',
    stats_degrees g =
      (Ok (Some (mkDegrees ((λ n, Z.of_nat (length (rev g n))) <$> node_ids g)
                           ((λ n, Z.of_nat (length (fwd g n))) <$> node_ids g))), g') ∧
    same_graph g g'.
Proof.
  intros Hne.
  destruct (for_each_ok
    (λ pre (s : Graph * degree_locals),
       same_graph g s.1 ∧ out_degrees s.2 = [] ∧
       in_degrees s.2 = (λ n, Z.of_nat (length (rev g n))) <$> pre)
    stats_in_degree (node_ids g) (g, mkDegrees [] []))
    as ([g1 l1] & Hrun1 & Hg1 & Hout1 & Hin1).
  { simpl. split; [apply same_graph_refl|done]. }
  { intros pre x post [g0 l0] _ (Hg0 & Ho & Hi). rewrite stats_in_degree_eq.
    eexists. split; [done|]. simpl in *.
    split; [eapply same_graph_trans; [done|apply same_graph_touch_rev]|]. split; [done|].
    destruct Hg0 as (_ & _ & _ & Hr). by rewrite Hi, Hr, fmap_app. }
  destruct (for_each_ok
    (λ pre (s : Graph * degree_locals),
       same_graph g s.1 ∧ in_degrees s.2 = in_degrees l1 ∧
       out_degrees s.2 = (λ n, Z.of_nat (length (fwd g n))) <$> pre)
    stats_out_degree (node_ids g) (g1, l1))
    as ([g2 l2] & Hrun2 & Hg2 & Hin2 & Hout2).
  { simpl. done. }
  { intros pre x post [g0 l0] _ (Hg0 & Hi & Ho). rewrite stats_out_degree_eq.
    eexists. split; [done|]. simpl in *.
    split; [eapply same_graph_trans; [done|apply same_graph_touch_fwd]|]. split; [done|].
    destruct Hg0 as (_ & _ & Hf & _). by rewrite Ho, Hf, fmap_app. }
  simpl in *. exists g2. split; [|done].
  unfold stats_degrees, this, mbind, M_bind. rewrite bool_decide_eq_true_2 by done.
  unfold with_locals, get_self, get_locals, mret, M_ret. cbn [fst snd].
  fold (node_ids g). rewrite Hrun1. cbn [fst snd].
  destruct Hg1 as (Hn1 & _). rewrite Hn1. fold (node_ids g). rewrite Hrun2. cbn [fst snd].
  destruct l2 as [i2 o2]. simpl in *. by rewrite Hin2, Hin1, Hout2.
Qed.

(** X22.  For a graph built by [add_node] and [add_edge] that has a node,
    the degree lists of [stats] have one entry per node, the in-degrees and
    the out-degrees each add up to the number of edges, so that the two
    averages are equal, and each maximum is an entry of its list, not
    below any other and below the number of nodes; the graph is unchanged
    up to empty index entries. *)
Theorem stats_degrees_spec (g : Graph) :
  reachable g → nodes g ≠ [] →
  ∃ l g', stats_degrees g = (Ok (Some l), g') ∧ same_graph g g' ∧
    length (in_degrees l) = node_count g ∧ length (out_degrees l) = node_count g ∧
    py_sum (in_degrees l) = Z.of_nat (edge_count g) ∧
    py_sum (out_degrees l) = Z.of_nat (edge_count g) ∧
    ∃ mi mo,
      py_max (in_degrees l) = Ok mi ∧ py_max (out_degrees l) = Ok mo ∧
      mi ∈ in_degrees l ∧ mo ∈ out_degrees l ∧
      Forall (λ d, (d ≤ mi)%Z) (in_degrees l) ∧ Forall (λ d, (d ≤ mo)%Z) (out_degrees l) ∧
      (0 ≤ mi < Z.of_nat (node_count g))%Z ∧ (0 ≤ mo < Z.of_nat (node_count g))%Z.
Proof.
  intros Hreach Hne. pose proof (reachable_wf g Hreach) as Hwf.
  destruct (stats_degrees_run g Hne) as (g' & Hrun & Hg').
  destruct (degree_sum g Hreach) as [Hsr Hsf].
  eexists _, g'. split; [done|]. split; [done|]. cbn [in_degrees out_degrees].
  assert (length (node_ids g) = node_count g) as Hlen.
  { unfold node_ids, node_count. by rewrite length_fmap. }
  assert (0 < node_count g) as Hpos.
  { unfold node_count. destruct (nodes g); [done|simpl; lia]. }
  rewrite !length_fmap, !py_sum_of_nat, Hsr, Hsf.
  split; [done|]. split; [done|]. split; [done|]. split; [done|].
  assert (∀ (nb : string → list string),
            (∀ n, NoDup (nb n)) → (∀ n x, x ∈ nb n → x ∈ node_ids g ∧ x ≠ n) →
            ∀ n, n ∈ node_ids g → S (length (nb n)) ≤ length (node_ids g)) as Hbound.
  { intros nb Hnd Hin n Hn.
    change (S (length (nb n))) with (length (n :: nb n)).
    apply submseteq_length, NoDup_submseteq.
    - constructor; [|done]. intros Hx. by destruct (Hin n n Hx).
    - intros x [->|Hx]%elem_of_cons; [done|]. by destruct (Hin n x Hx). }
  destruct (py_max_bound ((λ n, Z.of_nat (length (rev g n))) <$> node_ids g)
              (Z.of_nat (node_count g) - 1)) as (mi & Hmi & Hmiin & Hmile & Hmib).
  { destruct (node_ids g); [simpl in Hlen; lia|done]. }
  { apply Forall_fmap, Forall_forall. intros n Hn. simpl.
    pose proof (Hbound (rev g) (wf_rev_set g Hwf)) as Hb. specialize (Hb ltac:(
      intros t s Hs; apply (wf_rev g Hwf) in Hs;
      pose proof (has_edge_nodes g s t Hwf Hs) as [? _]; split; [done|];
      destruct Hs as (e & He & <- & <-); by apply (wf_I3 g Hwf)) n Hn). lia. }
  destruct (py_max_bound ((λ n, Z.of_nat (length (fwd g n))) <$> node_ids g)
              (Z.of_nat (node_count g) - 1)) as (mo & Hmo & Hmoin & Hmole & Hmob).
  { destruct (node_ids g); [simpl in Hlen; lia|done]. }
  { apply Forall_fmap, Forall_forall. intros n Hn. simpl.
    pose proof (Hbound (fwd g) (wf_fwd_set g Hwf)) as Hb. specialize (Hb ltac:(
      intros s t Ht; apply (wf_fwd g Hwf) in Ht;
      pose proof (has_edge_nodes g s t Hwf Ht) as [_ ?]; split; [done|];
      destruct Ht as (e & He & <- & <-); intros Heq; by apply (wf_I3 g Hwf e He)) n Hn). lia. }
  exists mi, mo. repeat (split; [done|]). lia.
Qed.

Lemma stats_degrees_spec_witness :
  reachable scenario_api ∧ nodes scenario_api ≠ [] ∧
  ∃ l g', stats_degrees scenario_api = (Ok (Some l), g') ∧
    py_sum (in_degrees l) = Z.of_nat (edge_count scenario_api) ∧
    py_sum (out_degrees l) = Z.of_nat (edge_count scenario_api).
Proof.
  assert (nodes scenario_api ≠ []) as Hne by (vm_compute; discriminate).
  split; [apply reachable_scenario_api|]. split; [exact Hne|].
  destruct (stats_degrees_spec scenario_api reachable_scenario_api Hne)
    as (l & g' & H1 & _ & _ & _ & H2 & H3 & _).
  exists l, g'. split; [exact H1|]. split; [exact H2|exact H3].
Defined.
(** ** Depth bounds that change nothing *)

(** X23.  On a well-formed graph, a depth bound of at least the number of
    nodes less one is no bound: [get_impact_radius] returns with it the set
    it returns without a bound. *)
Theorem impact_radius_saturates (g : Graph) (nid : string) (m : Z) (fuel : nat) :
  wf g → length (node_ids g) < fuel →
  (Z.of_nat (node_count g) - 1 ≤ m)%Z →
  ∃ r g1 g2,
    get_impact_radius fuel nid (Some m) g = (Ok r, g1) ∧
    get_impact_radius fuel nid None g = (Ok r, g2).
Proof.
  intros Hwf Hfuel Hm.
  destruct (impact_radius_char g nid (Some m) fuel Hwf Hfuel) as (r & g1 & Hrun & _ & Hr).
  destruct (impact_radius_char g nid None fuel Hwf Hfuel) as (r' & g2 & Hrun' & _ & Hr').
  exists r, g1, g2. split; [done|]. rewrite Hrun'. do 2 f_equal.
  apply set_eq. intros u. rewrite Hr, Hr'. split; cycle 1.
  { intros (Hne & k & Hw & _). split; [done|]. by exists k. }
  intros (Hne & k & Hw & _). split; [done|].
  destruct k as [|k]; [by inversion Hw|].
  pose proof (walk_nodes g k u nid Hwf Hw) as [Hu Hn].
  destruct (walk_is_path _ _ _ _ Hw) as (p' & Hp' & _).
  destruct (critical_path_char g u nid fuel Hwf Hfuel) as (p & g3 & _ & _ & Hp).
  destruct p as [p|]; cycle 1.
  { exfalso. destruct Hp as [?|[?|Hno]]; [done..|]. by apply (Hno p'). }
  destruct Hp as (Hp & Hnd & _).
  exists (length p - 1). split; [by apply is_path_walk|].
  assert (2 ≤ length p) as Hlen2.
  { destruct Hp as [|? ? ? ? ? Hp]; [done|]. apply is_path_nonempty in Hp. simpl. lia. }
  assert (length p ≤ length (node_ids g)) as Hle.
  { apply submseteq_length, NoDup_submseteq; [done|]. by eapply is_path_nodes. }
  unfold node_count in Hm. unfold node_ids in Hle. rewrite length_fmap in Hle. lia.
Qed.

Lemma impact_radius_saturates_witness :
  wf scenario_api ∧ length (node_ids scenario_api) < 4 ∧
  (Z.of_nat (node_count scenario_api) - 1 ≤ 2)%Z ∧
  ∃ r g1 g2,
    get_impact_radius 4 "db" (Some 2%Z) scenario_api = (Ok r, g1) ∧
    get_impact_radius 4 "db" None scenario_api = (Ok r, g2).
Proof.
  assert (length (node_ids scenario_api) < 4) as Hlen by (vm_compute; lia).
  assert (Z.of_nat (node_count scenario_api) - 1 ≤ 2)%Z as Hm by (vm_compute; discriminate).
  split; [apply reachable_wf, reachable_scenario_api|]. split; [done|]. split; [done|].
  exact (impact_radius_saturates scenario_api "db" 2 4
           (reachable_wf _ reachable_scenario_api) Hlen Hm).
Defined.
